(** * CollisionStage: hazard negotiation of the traffic-manager pipeline

    A shallow embedding of [TrafficManager/source/pipeline/CollisionStage.cpp].

    Conventions of the embedding.
    - [float] values are read as real numbers ([R]): arithmetic is exact, a
      comparison is the mathematical one.  The constants of the file are
      the real numbers that their [float] literals denote: [0.0001f] and
      [50 / 3.6f] are not decimal fractions and are written out as the
      binary fractions they are.
    - [ActorId] and every [uint] index is a natural number.
    - An expression of the source either yields a value, throws a
      [std::exception] (the checked [at] of a container), or has no defined
      behaviour (dereferencing a null handle, [front] of an empty buffer):
      the three cases of [Res].
    - The collaborators that are not part of the file (Boost.Geometry, the
      vicinity grid, the messenger, [cg::Math]) are the fields of the class
      [Collaborators]; every definition is stated over an arbitrary
      instance. *)

From Stdlib Require Import Reals Lra Lia List.
From stdpp Require Import gmap list fin_maps.

(** ** Numeric constants and vectors *)

Module CollisionStageConstants.
Local Open Scope R_scope.
Definition SEARCH_RADIUS : R := 20.
Definition VERTICAL_OVERLAP_THRESHOLD : R := 2.
(** [0.0001f]: the [float] nearest to 0.0001, which is below it. *)
Definition ZERO_AREA : R := 13743895 / 137438953472.
Definition BOUNDARY_EXTENSION_MINIMUM : R := 1.5.
Definition EXTENSION_SQUARE_POINT : R := 7.
Definition TIME_HORIZON : R := 0.5.
(** [50 / 3.6f]: the [float] quotient of 50 by the [float] nearest to 3.6,
    which is above 50 / 3.6. *)
Definition HIGHWAY_SPEED : R := 3640889 / 262144.
Definition HIGHWAY_TIME_HORIZON : R := 5.
End CollisionStageConstants.
Import CollisionStageConstants.

(** [std::max(a, b)] is [(a < b) ? b : a]. *)
Definition std_max (a b : R) : R := if Rlt_dec a b then b else a.

(** The additive extension of [GetGeodesicBoundary], lines 229-231. *)
Definition additive_extension (velocity : R) : R :=
  (std_max (sqrt (EXTENSION_SQUARE_POINT * velocity)) BOUNDARY_EXTENSION_MINIMUM
   + std_max (velocity * TIME_HORIZON) BOUNDARY_EXTENSION_MINIMUM
   + BOUNDARY_EXTENSION_MINIMUM)%R.

(** The value of [bbox_extension] after line 233. *)
Definition bbox_extension (velocity : R) : R :=
  if Rgt_dec velocity HIGHWAY_SPEED
  then (HIGHWAY_TIME_HORIZON * velocity)%R
  else additive_extension velocity.

(** ** Geometry of [carla::geom] used by the stage *)

Module cg.
Local Open Scope R_scope.

Record Vector3D : Type := mkVector3D { x : R; y : R; z : R }.

(** [cg::Location] derives from [cg::Vector3D]. *)
Definition Location : Type := Vector3D.

Definition add (a b : Vector3D) : Vector3D :=
  mkVector3D (x a + x b) (y a + y b) (z a + z b).
Definition sub (a b : Vector3D) : Vector3D :=
  mkVector3D (x a - x b) (y a - y b) (z a - z b).
Definition scale (k : R) (a : Vector3D) : Vector3D :=
  mkVector3D (k * x a) (k * y a) (k * z a).
Definition Length (a : Vector3D) : R :=
  sqrt (x a * x a + y a * y a + z a * z a).
(** [MakeUnitVector] multiplies by the inverse of the length.  For a
    vector of length zero the source divides by zero, and what it returns
    is no vector of real numbers: a statement about the value of a unit
    vector assumes that the length is not zero. *)
Definition MakeUnitVector (a : Vector3D) : Vector3D :=
  scale (1 / Length a) a.
End cg.

Definition LocationList : Type := list cg.Location.

(** The outer ring of a [bg::model::polygon], as the points of its WKT text. *)
Definition Polygon : Type := list (R * R).

(** ** Results of an expression: value, exception, undefined behaviour *)

Inductive Res (A : Type) : Type :=
| Ok (a : A)
| Throw
| Undef.
Arguments Ok {A} a.
Arguments Throw {A}.
Arguments Undef {A}.

Definition res_bind {A B : Type} (r : Res A) (k : A -> Res B) : Res B :=
  match r with
  | Ok a => k a
  | Throw => Throw
  | Undef => Undef
  end.

(** [v.at(i)]: range-checked access, [std::out_of_range] otherwise. *)
Definition at_ {A : Type} (v : list A) (i : nat) : Res A :=
  match v !! i with
  | Some a => Ok a
  | None => Throw
  end.

(** ** Actors, frames and the events of a tick *)

Definition ActorId : Type := nat.

(** What the client API returns for one actor during one tick. *)
Record ActorHandle : Type := mkActor {
  GetId : ActorId;
  GetLocation : cg.Location;
  GetVelocity : cg.Vector3D;
  GetForwardVector : cg.Vector3D;   (* GetTransform().GetForwardVector() *)
  extent : cg.Vector3D;             (* GetBoundingBox().extent *)
  IsAlive : bool
}.

(** An [Actor] is a shared pointer: [None] is [nullptr]. *)
Definition Actor : Type := option ActorHandle.

Record SimpleWaypoint : Type := mkWaypoint {
  wp_location : cg.Location;
  wp_forward : cg.Vector3D
}.

Record LocalizationToCollisionData : Type := mkLocalization {
  actor : ActorHandle;
  buffer : list SimpleWaypoint
}.

Record CollisionToPlannerData : Type := mkPlannerData { hazard : bool }.

(** The two output arrays shared with the motion planner. *)
Inductive PlannerFrame : Type := FrameA | FrameB.

(** What a tick does that is visible outside the function that does it. *)
Inductive Event : Type :=
| EvNegotiate (reference_vehicle other_vehicle : ActorHandle)
| EvLogWarning
| EvLogInfo
| EvWriteHazard (frame : PlannerFrame) (index : nat) (value : bool)
| EvFlipSelector
| EvSendData (packet_id : Z) (frame : PlannerFrame).

(** A computation with its trace of events. *)
Definition Run (A : Type) : Type := (Res A * list Event)%type.

Definition ret {A : Type} (a : A) : Run A := (Ok a, []).

Definition lift {A : Type} (r : Res A) : Run A := (r, []).

Definition emit (e : Event) : Run unit := (Ok tt, [e]).

Definition bind {A B : Type} (c : Run A) (k : A -> Run B) : Run B :=
  match fst c with
  | Ok a => (fst (k a), snd c ++ snd (k a))
  | Throw => (Throw, snd c)
  | Undef => (Undef, snd c)
  end.

(** [try { c } catch (const std::exception &) { handler }]. *)
Definition try_catch {A : Type} (c : Run A) (handler : Run A) : Run A :=
  match fst c with
  | Throw => (fst handler, snd c ++ snd handler)
  | _ => c
  end.

Notation "'let*' x ':=' c 'in' k" := (bind c (fun x => k))
  (at level 10, x name, c at level 100, k at level 200).
Notation "'do*' c 'in' k" := (bind c (fun _ => k))
  (at level 10, c at level 100, k at level 200).
Notation "'let+' x ':=' c 'in' k" := (res_bind c (fun x => k))
  (at level 10, x name, c at level 100, k at level 200).

(** ** Collaborators outside the file *)

Class Collaborators : Type := {
  (** the coordinate [read_wkt] reads back from [std::to_string] *)
  wkt_coordinate : R -> R;
  (** [bg::intersection]: the pieces of the intersection *)
  bg_intersection : Polygon -> Polygon -> list Polygon;
  bg_area : Polygon -> R;
  bg_distance : Polygon -> Polygon -> R;
  (** [cg::Math::DistanceSquared] *)
  DistanceSquared : cg.Location -> cg.Location -> R;
  (** the vicinity grid *)
  VicinityGrid : Type;
  UpdateGrid : VicinityGrid -> ActorHandle -> VicinityGrid;
  EraseActor : VicinityGrid -> ActorId -> VicinityGrid;
  GetActors : VicinityGrid -> ActorHandle -> VicinityGrid * list ActorId;
  (** [planner_messenger->SendData]: the state it returns *)
  SendData : Z -> PlannerFrame -> Z
}.

(** ** The stage *)

Section Model.
Context `{C : Collaborators}.

(** The members of [CollisionStage] (the clock is in seconds). *)
Record CollisionStage : Type := mkStage {
  localization_frame : list LocalizationToCollisionData;
  localization_messenger_state : Z;
  planner_frame_a : list CollisionToPlannerData;
  planner_frame_b : list CollisionToPlannerData;
  frame_selector : bool;
  planner_messenger_state : Z;
  id_to_index : gmap ActorId nat;
  unregistered_actors : gmap ActorId ActorHandle;
  vicinity_grid : VicinityGrid;
  last_world_actors_pass_instance : R
}.

(** What [Action] reads from outside the stage: the clock and the actors
    that [world.GetActors()] lists under the vehicle filter. *)
Record World : Type := mkWorld {
  now : R;
  world_actors : list ActorHandle
}.

(** *** GetBoundary *)

Definition GetBoundary (a : ActorHandle) : LocationList :=
  let location := GetLocation a in
  let heading_vector :=
    cg.mkVector3D (cg.x (GetForwardVector a)) (cg.y (GetForwardVector a)) 0 in
  let perpendicular_vector :=
    cg.mkVector3D (- cg.y heading_vector) (cg.x heading_vector) 0 in
  let x_boundary_vector := cg.scale (cg.x (extent a)) heading_vector in
  let y_boundary_vector := cg.scale (cg.y (extent a)) perpendicular_vector in
  [ cg.add location (cg.sub x_boundary_vector y_boundary_vector);
    cg.add location (cg.sub (cg.scale (-1) x_boundary_vector) y_boundary_vector);
    cg.add location (cg.add (cg.scale (-1) x_boundary_vector) y_boundary_vector);
    cg.add location (cg.add x_boundary_vector y_boundary_vector) ].

(** *** GetPolygon *)

Definition wkt_point (location : cg.Location) : R * R :=
  (wkt_coordinate (cg.x location), wkt_coordinate (cg.y location)).

(** The ring is closed with [boundary[0]], which an empty list lacks. *)
Definition GetPolygon (boundary : LocationList) : Res Polygon :=
  match boundary with
  | [] => Undef
  | first :: _ => Ok (map wkt_point boundary ++ [wkt_point first])
  end.

(** *** CheckOverlap *)

(** The loop over the pieces, from piece [i] on ([output] is what is left). *)
Fixpoint overlap_loop (output : list Polygon) (overlap : bool) : bool :=
  match output with
  | [] => overlap
  | p :: rest =>
      if overlap then overlap
      else overlap_loop rest
             (if Rgt_dec (bg_area p) ZERO_AREA then true else overlap)
  end.

Definition CheckOverlap (boundary_a boundary_b : LocationList) : Res bool :=
  if (0 <? length boundary_a)%nat && (0 <? length boundary_b)%nat then
    let+ reference_polygon := GetPolygon boundary_a in
    let+ other_polygon := GetPolygon boundary_b in
    let output := bg_intersection reference_polygon other_polygon in
    Ok (overlap_loop output false)
  else Ok false.

(** The contract of [bg::intersection] that symmetry rests on: swapping
    the operands gives pieces of the same areas. *)
Definition intersection_commutes : Prop :=
  forall (p q piece : Polygon),
    In piece (bg_intersection p q) ->
    exists piece', In piece' (bg_intersection q p) /\ (bg_area piece' = bg_area piece)%R.

(** *** GetGeodesicBoundary *)

(** [SimpleWaypoint::DistanceSquared]. *)
Definition wp_DistanceSquared (a b : SimpleWaypoint) : R :=
  DistanceSquared (wp_location a) (wp_location b).

(** The loop of lines 247-261 at iteration [i]: [rest] holds the waypoints
    of the buffer from index [i] on, so [i < size] is [rest <> []] and
    [at(i)] is its head. *)
Fixpoint boundary_loop (width bbox_ext : R)
    (boundary_start boundary_end : SimpleWaypoint)
    (rest : list SimpleWaypoint)
    (left_boundary right_boundary : LocationList)
    : LocationList * LocationList :=
  match rest with
  | [] => (left_boundary, right_boundary)
  | next :: rest' =>
      if Rlt_dec (wp_DistanceSquared boundary_start boundary_end)
                 (bbox_ext * bbox_ext)
      then
        let heading_vector := wp_forward boundary_end in
        let location := wp_location boundary_end in
        let perpendicular_vector :=
          cg.MakeUnitVector
            (cg.mkVector3D (- cg.y heading_vector) (cg.x heading_vector) 0) in
        let scaled_perpendicular := cg.scale width perpendicular_vector in
        boundary_loop width bbox_ext boundary_start next rest'
          (left_boundary ++ [cg.add location scaled_perpendicular])
          (right_boundary
             ++ [cg.add location (cg.scale (-1) scaled_perpendicular)])
      else (left_boundary, right_boundary)
  end.

Definition GetGeodesicBoundary (st : CollisionStage) (a : ActorHandle)
    : Res LocationList :=
  let bbox := GetBoundary a in
  match id_to_index st !! GetId a with
  | Some index =>
      let velocity := cg.Length (GetVelocity a) in
      let bbox_ext := bbox_extension velocity in
      let+ data := at_ (localization_frame st) index in
      let waypoint_buffer := buffer data in
      let width := cg.y (extent a) in
      match waypoint_buffer with
      | [] => Undef                         (* front() of an empty buffer *)
      | front :: _ =>
          let '(left_boundary, right_boundary) :=
            boundary_loop width bbox_ext front front waypoint_buffer [] [] in
          Ok (rev right_boundary ++ bbox ++ left_boundary)
      end
  | None => Ok bbox
  end.

(** *** NegotiateCollision *)

(** The height test reads [abs] as the absolute value of the difference;
    truncating the difference to an integer first would not change the
    outcome of the comparison with 2.0. *)
Definition NegotiateCollision (st : CollisionStage)
    (reference_vehicle other_vehicle : ActorHandle) : Res bool :=
  let reference_height := cg.z (GetLocation reference_vehicle) in
  let other_height := cg.z (GetLocation other_vehicle) in
  if Rlt_dec (Rabs (reference_height - other_height))
             VERTICAL_OVERLAP_THRESHOLD
  then
    let+ reference_geodesic_bbox := GetGeodesicBoundary st reference_vehicle in
    let+ other_geodesic_bbox := GetGeodesicBoundary st other_vehicle in
    let+ geodesic_overlap :=
      CheckOverlap reference_geodesic_bbox other_geodesic_bbox in
    let+ reference_geodesic_polygon := GetPolygon reference_geodesic_bbox in
    let+ other_geodesic_polygon := GetPolygon other_geodesic_bbox in
    let+ reference_polygon := GetPolygon (GetBoundary reference_vehicle) in
    let+ other_polygon := GetPolygon (GetBoundary other_vehicle) in
    let reference_vehicle_to_other_geodesic :=
      bg_distance reference_polygon other_geodesic_polygon in
    let other_vehicle_to_reference_geodesic :=
      bg_distance other_polygon reference_geodesic_polygon in
    if geodesic_overlap
       && (if Rgt_dec reference_vehicle_to_other_geodesic
                      other_vehicle_to_reference_geodesic
           then true else false)
    then Ok true
    else Ok false
  else Ok false.

(** The distance between the static boundary of [reference_vehicle] and
    the geodesic boundary of [other_vehicle], as [NegotiateCollision]
    computes it. *)
Definition static_to_geodesic_distance (st : CollisionStage)
    (reference_vehicle other_vehicle : ActorHandle) : Res R :=
  let+ other_geodesic_bbox := GetGeodesicBoundary st other_vehicle in
  let+ other_geodesic_polygon := GetPolygon other_geodesic_bbox in
  let+ reference_polygon := GetPolygon (GetBoundary reference_vehicle) in
  Ok (bg_distance reference_polygon other_geodesic_polygon).

(** *** Member updates *)

Definition frame_of_selector (selector : bool) : PlannerFrame :=
  if selector then FrameA else FrameB.

Definition planner_frame (st : CollisionStage) (f : PlannerFrame)
    : list CollisionToPlannerData :=
  match f with
  | FrameA => planner_frame_a st
  | FrameB => planner_frame_b st
  end.

Definition set_planner_frame (st : CollisionStage) (f : PlannerFrame)
    (v : list CollisionToPlannerData) : CollisionStage :=
  mkStage (localization_frame st) (localization_messenger_state st)
    (match f with FrameA => v | FrameB => planner_frame_a st end)
    (match f with FrameA => planner_frame_b st | FrameB => v end)
    (frame_selector st) (planner_messenger_state st) (id_to_index st)
    (unregistered_actors st) (vicinity_grid st)
    (last_world_actors_pass_instance st).

Definition set_vicinity_grid (st : CollisionStage) (g : VicinityGrid)
    : CollisionStage :=
  mkStage (localization_frame st) (localization_messenger_state st)
    (planner_frame_a st) (planner_frame_b st)
    (frame_selector st) (planner_messenger_state st) (id_to_index st)
    (unregistered_actors st) g (last_world_actors_pass_instance st).

Definition set_unregistered (st : CollisionStage)
    (t : gmap ActorId ActorHandle) (g : VicinityGrid) (clock : R)
    : CollisionStage :=
  mkStage (localization_frame st) (localization_messenger_state st)
    (planner_frame_a st) (planner_frame_b st)
    (frame_selector st) (planner_messenger_state st) (id_to_index st)
    t g clock.

(** *** The constructor *)

Definition init (number_of_vehicle : nat)
    (localization_state planner_state : Z) (grid : VicinityGrid)
    (clock : R) : CollisionStage :=
  mkStage [] localization_state
    (replicate number_of_vehicle (mkPlannerData false))
    (replicate number_of_vehicle (mkPlannerData false))
    true (planner_state - 1) ∅ ∅ grid clock.

(** *** Action: actors not spawned by the traffic manager (lines 53-83) *)

Definition note_world_actor (st : CollisionStage)
    (table : gmap ActorId ActorHandle) (a : ActorHandle)
    : gmap ActorId ActorHandle :=
  let unregistered_id := GetId a in
  match id_to_index st !! unregistered_id, table !! unregistered_id with
  | None, None => <[unregistered_id := a]> table
  | _, _ => table
  end.

Definition scan_world (st : CollisionStage) (w : World) : CollisionStage :=
  if Rgt_dec (now w - last_world_actors_pass_instance st) 0.5 then
    set_unregistered st
      (foldl (note_world_actor st) (unregistered_actors st) (world_actors w))
      (vicinity_grid st) (now w)
  else st.

Definition refresh_step (acc : VicinityGrid * list ActorId)
    (actor_info : ActorId * ActorHandle) : VicinityGrid * list ActorId :=
  if IsAlive (snd actor_info)
  then (UpdateGrid (fst acc) (snd actor_info), snd acc)
  else (EraseActor (fst acc) (fst actor_info), snd acc ++ [fst actor_info]).

Definition refresh_unregistered (st : CollisionStage) : CollisionStage :=
  let '(grid, actor_ids_to_erase) :=
    foldl refresh_step (vicinity_grid st, [])
          (map_to_list (unregistered_actors st)) in
  set_unregistered st
    (foldl (fun table actor_id => delete actor_id table)
           (unregistered_actors st) actor_ids_to_erase)
    grid (last_world_actors_pass_instance st).

(** *** Action: the candidates of one vehicle (lines 97-122) *)

(** Lines 103-108: the handle stays [nullptr] when neither table has the id. *)
Definition resolve_actor (st : CollisionStage) (actor_id : ActorId)
    : Res Actor :=
  match id_to_index st !! actor_id with
  | Some index =>
      let+ data := at_ (localization_frame st) index in
      Ok (Some (actor data))
  | None =>
      match unregistered_actors st !! actor_id with
      | Some a => Ok (Some a)
      | None => Ok None
      end
  end.

(** The body of the [try] block; the result is the new [collision_hazard]. *)
Definition check_candidate (st : CollisionStage) (ego_actor : ActorHandle)
    (actor_id : ActorId) (collision_hazard : bool) : Run bool :=
  if negb (actor_id =? GetId ego_actor)%nat then
    let* resolved := lift (resolve_actor st actor_id) in
    match resolved with
    | None => lift Undef                 (* actor->GetLocation() on nullptr *)
    | Some a =>
        let squared_distance :=
          DistanceSquared (GetLocation ego_actor) (GetLocation a) in
        if Rle_dec squared_distance (SEARCH_RADIUS * SEARCH_RADIUS) then
          do* emit (EvNegotiate ego_actor a) in
          let* negotiated := lift (NegotiateCollision st ego_actor a) in
          ret (if negotiated then true else collision_hazard)
        else ret collision_hazard
    end
  else ret collision_hazard.

(** The three ways the [try] block ends. *)
Inductive candidate_outcome (st : CollisionStage) (ego_actor : ActorHandle)
    (actor_id : ActorId) (collision_hazard : bool) : Run bool -> Prop :=
| outcome_skipped :
    candidate_outcome st ego_actor actor_id collision_hazard
      (Ok collision_hazard, [])
| outcome_failed (r : Res bool) :
    r = Throw \/ r = Undef ->
    actor_id <> GetId ego_actor ->
    candidate_outcome st ego_actor actor_id collision_hazard (r, [])
| outcome_negotiated (a : ActorHandle) (r : Res bool) :
    actor_id <> GetId ego_actor ->
    resolve_actor st actor_id = Ok (Some a) ->
    (DistanceSquared (GetLocation ego_actor) (GetLocation a)
     <= SEARCH_RADIUS * SEARCH_RADIUS)%R ->
    r = res_bind (NegotiateCollision st ego_actor a)
          (fun negotiated => Ok (if negotiated then true else collision_hazard)) ->
    candidate_outcome st ego_actor actor_id collision_hazard
      (r, [EvNegotiate ego_actor a]).

Definition log_problem (collision_hazard : bool) : Run bool :=
  do* emit EvLogWarning in
  do* emit EvLogInfo in
  ret collision_hazard.

(** The loop over [actor_id_list], from the iterator position on. *)
Fixpoint candidate_loop (st : CollisionStage) (ego_actor : ActorHandle)
    (rest : list ActorId) (collision_hazard : bool) : Run bool :=
  match rest with
  | [] => ret collision_hazard
  | actor_id :: rest' =>
      if collision_hazard then ret collision_hazard
      else
        let* after :=
          try_catch (check_candidate st ego_actor actor_id collision_hazard)
                    (log_problem collision_hazard) in
        candidate_loop st ego_actor rest' after
  end.

(** *** Action: the vehicles of the partition (lines 86-127) *)

(** [frame->at(i).hazard = value]. *)
Definition write_hazard (frame : list CollisionToPlannerData) (i : nat)
    (value : bool) : Res (list CollisionToPlannerData) :=
  let+ message := at_ frame i in
  Ok (<[i := mkPlannerData value]> frame).

Definition vehicle_step (current_planner_frame : PlannerFrame)
    (st : CollisionStage) (i : nat) : Run CollisionStage :=
  let* data := lift (at_ (localization_frame st) i) in
  let ego_actor := actor data in
  let found := GetActors (vicinity_grid st) ego_actor in
  let st1 := set_vicinity_grid st (fst found) in
  let actor_id_list := snd found in
  let* collision_hazard := candidate_loop st1 ego_actor actor_id_list false in
  let* written :=
    lift (write_hazard (planner_frame st1 current_planner_frame) i
                       collision_hazard) in
  do* emit (EvWriteHazard current_planner_frame i collision_hazard) in
  ret (set_planner_frame st1 current_planner_frame written).

Fixpoint vehicle_loop (current_planner_frame : PlannerFrame)
    (st : CollisionStage) (indices : list nat) : Run CollisionStage :=
  match indices with
  | [] => ret st
  | i :: rest =>
      let* st' := vehicle_step current_planner_frame st i in
      vehicle_loop current_planner_frame st' rest
  end.

(** Lines 53-83: only the worker whose range starts at 0 looks after the
    actors that the traffic manager did not spawn. *)
Definition handle_unregistered (st : CollisionStage) (w : World)
    (start_index : nat) : CollisionStage :=
  if (start_index =? 0)%nat
  then refresh_unregistered (scan_world st w)
  else st.

Definition Action (st : CollisionStage) (w : World)
    (start_index end_index : nat) : Run CollisionStage :=
  let current_planner_frame := frame_of_selector (frame_selector st) in
  let st1 := handle_unregistered st w start_index in
  vehicle_loop current_planner_frame st1
    (seq start_index (S end_index - start_index)).

(** The squared distance of two locations in the ground plane. *)
Definition planar_distance_squared (a b : cg.Location) : R :=
  ((cg.x b - cg.x a) * (cg.x b - cg.x a)
   + (cg.y b - cg.y a) * (cg.y b - cg.y a))%R.

(** What the search-radius claim needs of [cg::Math::DistanceSquared]: it is
    no smaller than the planar squared distance (true of the planar and of
    the spatial squared distance alike). *)
Definition DistanceSquared_covers_plane : Prop :=
  forall a b : cg.Location,
    (planar_distance_squared a b <= DistanceSquared a b)%R.

(** What the vehicle loop leaves alone: the received frame, the selector and
    the sizes of the two output arrays. *)
Definition same_frames (st st' : CollisionStage) : Prop :=
  localization_frame st' = localization_frame st /\
  frame_selector st' = frame_selector st /\
  planner_messenger_state st' = planner_messenger_state st /\
  forall f, length (planner_frame st' f) = length (planner_frame st f).

(** The index range [start_index .. end_index] of a worker. *)
Definition in_range (start_index end_index i : nat) : Prop :=
  (start_index <= i /\ i <= end_index)%nat.

(** The events of the candidate loop: negotiations and log lines. *)
Definition is_candidate_event (e : Event) : Prop :=
  match e with
  | EvNegotiate _ _ | EvLogWarning | EvLogInfo => True
  | _ => False
  end.

(** *** DataReceiver *)

(** [std::unordered_map::insert]: an existing key keeps its value. *)
Definition unordered_map_insert (m : gmap ActorId nat) (k : ActorId)
    (v : nat) : gmap ActorId nat :=
  match m !! k with
  | Some _ => m
  | None => <[k := v]> m
  end.

Fixpoint insert_indices (elements : list LocalizationToCollisionData)
    (index : nat) (m : gmap ActorId nat) : gmap ActorId nat :=
  match elements with
  | [] => m
  | element :: rest =>
      insert_indices rest (S index)
        (unordered_map_insert m (GetId (actor element)) index)
  end.

(** The packet is what [localization_messenger->ReceiveData] returned. *)
Definition DataReceiver (st : CollisionStage) (packet_id : Z)
    (packet_data : list LocalizationToCollisionData) : CollisionStage :=
  mkStage packet_data packet_id
    (planner_frame_a st) (planner_frame_b st)
    (frame_selector st) (planner_messenger_state st)
    (insert_indices packet_data 0 (id_to_index st))
    (unregistered_actors st) (vicinity_grid st)
    (last_world_actors_pass_instance st).

(** The identities of a frame, in frame order. *)
Definition frame_ids (frame : list LocalizationToCollisionData)
    : list ActorId :=
  map (fun element => GetId (actor element)) frame.

(** The index of the first occurrence of an identity. *)
Fixpoint first_position (id : ActorId) (ids : list ActorId) : option nat :=
  match ids with
  | [] => None
  | k :: rest =>
      if decide (k = id) then Some 0%nat else S <$> first_position id rest
  end.

(** [m] is a bijection from the identities [ids] onto [0, length ids). *)
Definition bijection_onto_indices (m : gmap ActorId nat)
    (ids : list ActorId) : Prop :=
  (forall id, is_Some (m !! id) <-> id ∈ ids) /\
  (forall id i, m !! id = Some i -> (i < length ids)%nat) /\
  (forall id1 id2 i, m !! id1 = Some i -> m !! id2 = Some i -> id1 = id2) /\
  (forall i, (i < length ids)%nat -> exists id, m !! id = Some i).

(** *** DataSender *)

Definition DataSender (st : CollisionStage) : Run CollisionStage :=
  let packet_id := planner_messenger_state st in
  let packet_data := frame_of_selector (frame_selector st) in
  do* emit EvFlipSelector in
  do* emit (EvSendData packet_id packet_data) in
  ret (mkStage (localization_frame st) (localization_messenger_state st)
         (planner_frame_a st) (planner_frame_b st)
         (negb (frame_selector st)) (SendData packet_id packet_data)
         (id_to_index st) (unregistered_actors st) (vicinity_grid st)
         (last_world_actors_pass_instance st)).

(** *** One tick *)

Record TickInput : Type := mkTickInput {
  packet_id : Z;
  packet_data : list LocalizationToCollisionData;
  world : World;
  ranges : list (nat * nat)
}.

Fixpoint dispatch (st : CollisionStage) (w : World)
    (partition : list (nat * nat)) : Run CollisionStage :=
  match partition with
  | [] => ret st
  | range :: rest =>
      let* st' := Action st w (fst range) (snd range) in
      dispatch st' w rest
  end.

(** Modelled from the spec: the driver of the stage ([PipelineStage], not
    part of the file) runs Receive, then Dispatch over the index ranges of
    the workers, then Send.  The ranges are run one after another. *)
Definition tick (st : CollisionStage) (input : TickInput)
    : Run CollisionStage :=
  let st1 := DataReceiver st (packet_id input) (packet_data input) in
  let* st2 := dispatch st1 (world input) (ranges input) in
  DataSender st2.

(** *** The double-buffer claim, as stated *)

(** In a trace, the selector is flipped only after the handoff. *)
Definition flip_follows_handoff (t : list Event) : Prop :=
  forall i j id f,
    t !! i = Some EvFlipSelector ->
    t !! j = Some (EvSendData id f) ->
    (j < i)%nat.

(** The array handed over in the trace [t] of tick k is written neither in
    [t] nor in the trace [t'] of tick k+1. *)
Definition exposed_never_written (t t' : list Event) : Prop :=
  forall id f j h,
    In (EvSendData id f) t ->
    ~ In (EvWriteHazard f j h) t /\ ~ In (EvWriteHazard f j h) t'.

End Model.

(** ** A concrete set of collaborators

    Used to run the stage on examples: a polygon is replaced by its
    axis-aligned bounding box, the grid has a single cell, and the messenger
    answers with the next packet number. *)

Module Box.
Local Open Scope R_scope.

Record Box : Type := mkBox { min_x : R; max_x : R; min_y : R; max_y : R }.

Definition of_point (p : R * R) : Box := mkBox (fst p) (fst p) (snd p) (snd p).

Definition join (a b : Box) : Box :=
  mkBox (Rmin (min_x a) (min_x b)) (Rmax (max_x a) (max_x b))
        (Rmin (min_y a) (min_y b)) (Rmax (max_y a) (max_y b)).

Definition meet (a b : Box) : Box :=
  mkBox (Rmax (min_x a) (min_x b)) (Rmin (max_x a) (max_x b))
        (Rmax (min_y a) (min_y b)) (Rmin (max_y a) (max_y b)).

Definition of_polygon (p : Polygon) : option Box :=
  match p with
  | [] => None
  | q :: rest => Some (fold_left (fun b r => join b (of_point r)) rest (of_point q))
  end.

Definition to_polygon (b : Box) : Polygon :=
  [ (min_x b, min_y b); (min_x b, max_y b); (max_x b, max_y b);
    (max_x b, min_y b); (min_x b, min_y b) ].

Definition area_of (b : Box) : R := (max_x b - min_x b) * (max_y b - min_y b).

Definition gap (a b : Box) : R :=
  Rmax 0 (Rmax (Rmax (min_x a - max_x b) (min_x b - max_x a))
               (Rmax (min_y a - max_y b) (min_y b - max_y a))).

Definition intersection (p q : Polygon) : list Polygon :=
  match of_polygon p, of_polygon q with
  | Some a, Some b =>
      let m := meet a b in
      if Rlt_dec (min_x m) (max_x m) then
        if Rlt_dec (min_y m) (max_y m) then [to_polygon m] else []
      else []
  | _, _ => []
  end.

Definition area (p : Polygon) : R :=
  match of_polygon p with
  | Some b => area_of b
  | None => 0
  end.

Definition distance (p q : Polygon) : R :=
  match of_polygon p, of_polygon q with
  | Some a, Some b => gap a b
  | _, _ => 0
  end.

Definition euclid_squared (a b : cg.Location) : R :=
  (cg.x b - cg.x a) * (cg.x b - cg.x a)
  + (cg.y b - cg.y a) * (cg.y b - cg.y a)
  + (cg.z b - cg.z a) * (cg.z b - cg.z a).

Definition update (g : list ActorHandle) (a : ActorHandle) : list ActorHandle :=
  filter (fun b => GetId b ≠ GetId a) g ++ [a].

Definition erase (g : list ActorHandle) (i : ActorId) : list ActorHandle :=
  filter (fun b => GetId b ≠ i) g.

Definition query (g : list ActorHandle) (a : ActorHandle)
    : list ActorHandle * list ActorId :=
  (update g a, map GetId (update g a)).

Definition collaborators : Collaborators :=
  {| wkt_coordinate := fun c => c;
     bg_intersection := intersection;
     bg_area := area;
     bg_distance := distance;
     DistanceSquared := euclid_squared;
     VicinityGrid := list ActorHandle;
     UpdateGrid := update;
     EraseActor := erase;
     GetActors := query;
     SendData := fun id _ => (id + 1)%Z |}.
End Box.

(** ** Scenarios *)

Module Scenario.
Local Open Scope R_scope.

(** A vehicle of half-extents 2 x 1 x 1 heading along the x axis. *)
Definition car (id : ActorId) (px py pz speed : R) : ActorHandle :=
  mkActor id (cg.mkVector3D px py pz) (cg.mkVector3D speed 0 0)
    (cg.mkVector3D 1 0 0) (cg.mkVector3D 2 1 1) true.

Definition waypoint (px py : R) : SimpleWaypoint :=
  mkWaypoint (cg.mkVector3D px py 0) (cg.mkVector3D 1 0 0).

(** The stage right after construction, for [n] vehicles. *)
Definition fresh (n : nat) : CollisionStage (C := Box.collaborators) :=
  init (C := Box.collaborators) n 0 1 [] 0.

Definition quiet_world : World := mkWorld 0 [].

(** The stage after it received a frame with vehicle 1 alone. *)
Definition one_vehicle (path : list SimpleWaypoint) : CollisionStage :=
  DataReceiver (fresh 1) 1 [mkLocalization (car 1%nat 0 0 0 0) path].

(** Two ticks: vehicle 7 alone, then vehicle 9 alone. *)
Definition second_tick : CollisionStage :=
  DataReceiver
    (DataReceiver (fresh 1) 1 [mkLocalization (car 7%nat 0 0 0 0) []])
    2 [mkLocalization (car 9%nat 0 0 0 0) []].

(** Vehicle 2 has left the frame: the map still sends it to index 1, which
    the frame of one vehicle no longer has.  The grid still knows it. *)
Definition stale_index : CollisionStage :=
  set_vicinity_grid
    (DataReceiver
       (DataReceiver (fresh 2) 1
          [mkLocalization (car 1%nat 0 0 0 0) [];
           mkLocalization (car 2%nat 5 0 0 0) []])
       2 [mkLocalization (car 1%nat 0 0 0 0) []])
    [car 2%nat 5 0 0 0].

(** Two vehicles 30 units apart, both in the frame. *)
Definition two_far : CollisionStage :=
  DataReceiver (fresh 2) 1
    [mkLocalization (car 1%nat 0 0 0 0) [];
     mkLocalization (car 2%nat 30 0 0 0) []].

(** A vehicle that follows a straight path towards a parked car. *)
Definition path : list SimpleWaypoint :=
  [waypoint 0 0; waypoint 3 0; waypoint 6 0; waypoint 9 0].

Definition follower : CollisionStage :=
  DataReceiver (fresh 2) 1 [mkLocalization (car 1%nat 0 0 0 0) path].

Definition ground (p : R * R) : cg.Location :=
  cg.mkVector3D (fst p) (snd p) 0.

(** The geodesic boundary of the follower and the boundary of the parked
    car. *)
Definition corridor : LocationList :=
  map ground [(3, -1); (0, -1); (0, -1); (2, -1); (-2, -1); (-2, 1); (2, 1);
              (0, 1); (0, 1); (3, 1)].

Definition parked : LocationList :=
  map ground [(6.5, -1); (2.5, -1); (2.5, 1); (6.5, 1)].

(** A tick for one vehicle and one worker. *)
Definition lone_input (id : Z) : TickInput :=
  mkTickInput id [mkLocalization (car 1%nat 0 0 0 0) []] quiet_world
    [(0%nat, 0%nat)].

(** The stage after the first tick of [fresh 1] on [lone_input 1]. *)
Definition after_first_tick : CollisionStage :=
  mkStage (C := Box.collaborators)
    [mkLocalization (car 1%nat 0 0 0 0) []] 1
    [mkPlannerData false] [mkPlannerData false] false 1
    {[ 1%nat := 0%nat ]} ∅ [car 1%nat 0 0 0 0] 0.

Definition after_second_tick : CollisionStage :=
  mkStage (C := Box.collaborators)
    [mkLocalization (car 1%nat 0 0 0 0) []] 2
    [mkPlannerData false] [mkPlannerData false] true 2
    {[ 1%nat := 0%nat ]} ∅ [car 1%nat 0 0 0 0] 0.

Definition first_trace : list Event :=
  [EvWriteHazard FrameA 0 false; EvFlipSelector; EvSendData 0 FrameA].

Definition second_trace : list Event :=
  [EvWriteHazard FrameB 0 false; EvFlipSelector; EvSendData 1 FrameB].

Definition third_trace : list Event :=
  [EvWriteHazard FrameA 0 false; EvFlipSelector; EvSendData 2 FrameA].
End Scenario.

(** Evaluates [Rmin] and [Rmax] of numerals. *)
Ltac eval_minmax :=
  repeat match goal with
  | |- context [Rmin ?a ?b] =>
      first [rewrite (Rmin_left a b) by lra | rewrite (Rmin_right a b) by lra]
  | |- context [Rmax ?a ?b] =>
      first [rewrite (Rmax_left a b) by lra | rewrite (Rmax_right a b) by lra]
  end.

(** Unfolds the bounding-box collaborators on polygons of numerals. *)
Ltac boxes :=
  cbn [GetPolygon map app wkt_point wkt_coordinate Box.collaborators
       cg.x cg.y fst snd res_bind bg_distance bg_intersection bg_area];
  unfold Box.distance, Box.intersection, Box.area, Box.gap, Box.meet,
    Box.area_of, Box.to_polygon;
  cbn [Box.of_polygon fold_left Box.join Box.of_point Box.min_x Box.max_x
       Box.min_y Box.max_y fst snd];
  unfold wkt_point, Scenario.ground;
  cbn [wkt_coordinate Box.collaborators cg.x cg.y fst snd].

(** Equality of two vectors of numerals. *)
Ltac vec := unfold Scenario.ground, cg.add, cg.scale; cbn; f_equal; lra.

(** * Further definitions

    The parts of the file that the properties of the second half need in
    addition: the debug drawing, names for the points the corridor loop
    adds, and what is asked of the vicinity grid. *)

Section FurtherModel.
Context `{C : Collaborators}.

(** ** DrawBoundary *)

(** [boundary[i]]: unchecked access. *)
Definition index_ {A : Type} (v : list A) (i : nat) : Res A :=
  match v !! i with
  | Some a => Ok a
  | None => Undef
  end.

(** The arguments of one [debug_helper.DrawLine] call that vary: the two
    end points (thickness, colour and life time are constants). *)
Definition Segment : Type := (cg.Location * cg.Location)%type.

Definition raised (location : cg.Location) : cg.Location :=
  cg.add location (cg.mkVector3D 0 0 1).

(** The loop of [DrawBoundary] over the indices that are left; the result
    lists the [DrawLine] calls in order. *)
Fixpoint draw_loop (boundary : LocationList) (indices : list nat)
    : Res (list Segment) :=
  match indices with
  | [] => Ok []
  | i :: rest =>
      let+ line_begin := index_ boundary i in
      let+ line_end := index_ boundary ((i + 1) mod length boundary) in
      let+ lines := draw_loop boundary rest in
      Ok ((raised line_begin, raised line_end) :: lines)
  end.

Definition DrawBoundary (boundary : LocationList) : Res (list Segment) :=
  draw_loop boundary (seq 0 (length boundary)).

(** ** The points of the corridor loop *)

(** The point pushed on [left_boundary] for the waypoint [w]. *)
Definition left_offset (width : R) (w : SimpleWaypoint) : cg.Location :=
  cg.add (wp_location w)
    (cg.scale width
       (cg.MakeUnitVector
          (cg.mkVector3D (- cg.y (wp_forward w)) (cg.x (wp_forward w)) 0))).

(** The point pushed on [right_boundary] for the waypoint [w]. *)
Definition right_offset (width : R) (w : SimpleWaypoint) : cg.Location :=
  cg.add (wp_location w)
    (cg.scale (-1)
       (cg.scale width
          (cg.MakeUnitVector
             (cg.mkVector3D (- cg.y (wp_forward w)) (cg.x (wp_forward w)) 0)))).

(** The waypoint is within the extension of the corridor. *)
Definition within_extension (bbox_ext : R) (boundary_start w : SimpleWaypoint)
    : Prop :=
  (wp_DistanceSquared boundary_start w < bbox_ext * bbox_ext)%R.

(** The scalar product of the ground-plane parts of two vectors. *)
Definition planar_dot (u v : cg.Vector3D) : R :=
  (cg.x u * cg.x v + cg.y u * cg.y v)%R.

(** [bg::distance] does not depend on the order of its operands. *)
Definition distance_commutes : Prop :=
  forall p q : Polygon, bg_distance p q = bg_distance q p.

(** ** Actors that the traffic manager did not spawn *)

(** Every entry of the table is stored under the identity of its actor, as
    line 64 inserts it. *)
Definition keyed_by_id (table : gmap ActorId ActorHandle) : Prop :=
  forall id a, table !! id = Some a -> GetId a = id.

(** What the refresh pass asks of the vicinity grid, for a notion [has] of
    an identity being in the grid: [UpdateGrid] puts the actor in,
    [EraseActor] takes the identity out, and neither touches another
    identity. *)
Record GridContract (has : VicinityGrid -> ActorId -> Prop) : Prop := {
  update_has : forall g a, has (UpdateGrid g a) (GetId a);
  update_other :
    forall g a id, id <> GetId a -> has (UpdateGrid g a) id <-> has g id;
  erase_gone : forall g id, ~ has (EraseActor g id) id;
  erase_other :
    forall g id id', id' <> id -> has (EraseActor g id) id' <-> has g id'
}.

(** ** The candidates that raise the hazard *)

(** The candidate is another actor, resolves to a handle inside the search
    radius, and the negotiation with it says hazard. *)
Definition hazardous_candidate (st : CollisionStage) (ego_actor : ActorHandle)
    (actor_id : ActorId) : Prop :=
  actor_id <> GetId ego_actor /\
  exists a,
    resolve_actor st actor_id = Ok (Some a) /\
    (DistanceSquared (GetLocation ego_actor) (GetLocation a)
     <= SEARCH_RADIUS * SEARCH_RADIUS)%R /\
    NegotiateCollision st ego_actor a = Ok true.

(** ** The query of the vicinity grid for one vehicle (line 93) *)

(** The stage after [vicinity_grid.GetActors(ego_actor)] for the vehicle of
    the frame entry [data]. *)
Definition queried (st : CollisionStage) (data : LocalizationToCollisionData)
    : CollisionStage :=
  set_vicinity_grid st (fst (GetActors (vicinity_grid st) (actor data))).

(** The identities that the call returned. *)
Definition candidates_of (st : CollisionStage)
    (data : LocalizationToCollisionData) : list ActorId :=
  snd (GetActors (vicinity_grid st) (actor data)).

(** ** The identity-to-index map against the frame *)

(** Every index stored in the map is a position of the frame at hand. *)
Definition indices_in_range (st : CollisionStage) : Prop :=
  forall id index,
    id_to_index st !! id = Some index ->
    (index < length (localization_frame st))%nat.

(** Every entry of the frame carries at least one waypoint. *)
Definition buffers_filled (st : CollisionStage) : Prop :=
  forall data, data ∈ localization_frame st -> buffer data <> [].

(** The identity is a key of one of the two tables that line 104 and line
    106 look into. *)
Definition known (st : CollisionStage) (actor_id : ActorId) : Prop :=
  is_Some (id_to_index st !! actor_id) \/
  is_Some (unregistered_actors st !! actor_id).

(** ** Where the identities of the vicinity grid come from *)

(** What the candidate loop asks of [GetActors], for a notion [has] of an
    identity being in the grid: the call puts at most the vehicle it is
    called for into the grid, and it returns only identities that the grid
    then has. *)
Record QueryContract (has : VicinityGrid -> ActorId -> Prop) : Prop := {
  query_adds :
    forall g a id, has (fst (GetActors g a)) id -> has g id \/ id = GetId a;
  query_returns :
    forall g a id, id ∈ snd (GetActors g a) -> has (fst (GetActors g a)) id
}.

(** Every identity in the grid is a key of one of the two tables, the
    table of unregistered actors is keyed by the actors' identities, and
    the vehicles of the frame are keys of the identity-to-index map. *)
Definition grid_known (has : VicinityGrid -> ActorId -> Prop)
    (st : CollisionStage) : Prop :=
  (forall id, has (vicinity_grid st) id -> known st id) /\
  keyed_by_id (unregistered_actors st) /\
  (forall data, data ∈ localization_frame st ->
     is_Some (id_to_index st !! GetId (actor data))).

(** The stages that the stage passes through when its functions run one
    after another: the constructor with a grid that has no identity, then
    any sequence of [DataReceiver], the maintenance of the unregistered
    actors at the start of [Action], a completed turn of the vehicle loop
    of [Action], and [DataSender]. *)
Inductive reachable (has : VicinityGrid -> ActorId -> Prop)
    : CollisionStage -> Prop :=
| reach_constructor number_of_vehicle localization_state planner_state
    grid clock :
    (forall id, ~ has grid id) ->
    reachable has
      (init number_of_vehicle localization_state planner_state grid clock)
| reach_DataReceiver st packet_id packet_data :
    reachable has st ->
    reachable has (DataReceiver st packet_id packet_data)
| reach_maintenance st w start_index :
    reachable has st ->
    reachable has (handle_unregistered st w start_index)
| reach_vehicle st f i st' t :
    reachable has st ->
    vehicle_step f st i = (Ok st', t) ->
    reachable has st'
| reach_DataSender st st' t :
    reachable has st ->
    DataSender st = (Ok st', t) ->
    reachable has st'.

End FurtherModel.

(** ** Further scenarios *)

Module Cases.
Local Open Scope R_scope.

(** An actor that is no longer alive. *)
Definition wreck (id : ActorId) : ActorHandle :=
  mkActor id (cg.mkVector3D 0 0 0) (cg.mkVector3D 0 0 0)
    (cg.mkVector3D 1 0 0) (cg.mkVector3D 2 1 1) false.

(** The single-cell grid has an identity when it holds an actor of it. *)
Definition grid_has (g : list ActorHandle) (id : ActorId) : Prop :=
  exists a, a ∈ g /\ GetId a = id.

(** A stage with vehicle 1 in the frame and the actors 5 (alive) and 6
    (not alive) in the table of unregistered actors and in the grid. *)
Definition with_unregistered : CollisionStage (C := Box.collaborators) :=
  mkStage (C := Box.collaborators)
    [mkLocalization (Scenario.car 1%nat 0 0 0 0) []] 1
    [mkPlannerData false] [mkPlannerData false] true 0
    {[ 1%nat := 0%nat ]}
    (<[ 5%nat := Scenario.car 5%nat 3 0 0 0 ]> {[ 6%nat := wreck 6%nat ]})
    [Scenario.car 5%nat 3 0 0 0; wreck 6%nat] 0.

(** One second later the world lists the vehicles 1, 5 and 8. *)
Definition busy_world : World :=
  mkWorld 1 [Scenario.car 1%nat 0 0 0 0; Scenario.car 5%nat 3 0 0 0;
             Scenario.car 8%nat 9 0 0 0].

(** The follower of [Scenario.follower], with the parked car 2 in the table
    of unregistered actors. *)
Definition with_parked : CollisionStage (C := Box.collaborators) :=
  set_unregistered Scenario.follower
    {[ 2%nat := Scenario.car 2%nat 4.5 0 0 0 ]} [] 0.

(** A square of side 2 around the origin, at height 0. *)
Definition square : LocationList :=
  [cg.mkVector3D 1 (-1) 0; cg.mkVector3D (-1) (-1) 0;
   cg.mkVector3D (-1) 1 0; cg.mkVector3D 1 1 0].

(** Two vehicles 30 units apart, each with waypoints ahead. *)
Definition convoy : CollisionStage (C := Box.collaborators) :=
  DataReceiver (Scenario.fresh 2) 1
    [mkLocalization (Scenario.car 1%nat 0 0 0 0) Scenario.path;
     mkLocalization (Scenario.car 2%nat 30 0 0 0) [Scenario.waypoint 30 0]].

(** The single-cell grid holds vehicles of the convoy only. *)
Definition convoy_grid (g : list ActorHandle) : Prop :=
  forall b, b ∈ g -> GetId b = 1%nat \/ GetId b = 2%nat.

(** Vehicle 1 with waypoints ahead and, 5 units on, vehicle 2 whose path
    buffer is empty: the stage after the constructor and one
    [DataReceiver]. *)
Definition stalled : CollisionStage (C := Box.collaborators) :=
  DataReceiver (Scenario.fresh 2) 1
    [mkLocalization (Scenario.car 1%nat 0 0 0 0) Scenario.path;
     mkLocalization (Scenario.car 2%nat 5 0 0 0) []].

(** The stage [stalled] when the vehicle loop reaches index 1: the flag of
    vehicle 1 is written and the grid holds vehicle 1. *)
Definition stalled_at_1 : CollisionStage (C := Box.collaborators) :=
  set_planner_frame
    (set_vicinity_grid stalled [Scenario.car 1%nat 0 0 0 0]) FrameA
    (<[0%nat := mkPlannerData false]> (planner_frame stalled FrameA)).

(** Two squares whose bounding boxes share a square of side 0.01. *)
Definition tile_a : LocationList :=
  [cg.mkVector3D 0 0 0; cg.mkVector3D 1 0 0; cg.mkVector3D 1 1 0;
   cg.mkVector3D 0 1 0].

Definition tile_b : LocationList :=
  [cg.mkVector3D 0.99 0.99 0; cg.mkVector3D 2 0.99 0; cg.mkVector3D 2 2 0;
   cg.mkVector3D 0.99 2 0].
End Cases.

(** * Properties *)

(** ** The boundary extension as a function of speed *)

Section ExtensionFacts.
Local Open Scope R_scope.

Lemma std_max_Rmax a b : std_max a b = Rmax a b.
Proof.
  unfold std_max, Rmax.
  destruct (Rlt_dec a b), (Rle_dec a b); lra.
Qed.

Lemma std_max_mono a a' b : a <= a' -> std_max a b <= std_max a' b.
Proof.
  intros H. rewrite !std_max_Rmax.
  apply Rmax_lub.
  - apply Rle_trans with a'; [exact H | apply Rmax_l].
  - apply Rmax_r.
Qed.

Lemma additive_extension_mono v1 v2 :
  v1 <= v2 -> additive_extension v1 <= additive_extension v2.
Proof.
  intros H. unfold additive_extension.
  assert (Hs : sqrt (EXTENSION_SQUARE_POINT * v1)
               <= sqrt (EXTENSION_SQUARE_POINT * v2)).
  { apply sqrt_le_1_alt. unfold EXTENSION_SQUARE_POINT. lra. }
  assert (Ht : v1 * TIME_HORIZON <= v2 * TIME_HORIZON).
  { unfold TIME_HORIZON. lra. }
  pose proof (std_max_mono _ _ BOUNDARY_EXTENSION_MINIMUM Hs).
  pose proof (std_max_mono _ _ BOUNDARY_EXTENSION_MINIMUM Ht).
  lra.
Qed.

Lemma sqrt_lt_10 x : x < 100 -> sqrt x < 10.
Proof.
  intros H.
  destruct (Rle_dec 0 x) as [Hx | Hx].
  - replace 10 with (sqrt 100).
    + apply sqrt_lt_1_alt. lra.
    + replace 100 with (10 * 10) by lra. apply sqrt_square. lra.
  - rewrite sqrt_neg_0 by lra. lra.
Qed.

(** Up to the highway threshold the additive formula stays below 19. *)
Lemma additive_extension_below v :
  v <= HIGHWAY_SPEED -> additive_extension v < 19.
Proof.
  intros H. unfold HIGHWAY_SPEED in H.
  unfold additive_extension, EXTENSION_SQUARE_POINT, TIME_HORIZON,
    BOUNDARY_EXTENSION_MINIMUM.
  assert (Hs : sqrt (7 * v) < 10) by (apply sqrt_lt_10; lra).
  rewrite !std_max_Rmax.
  unfold Rmax.
  destruct (Rle_dec (sqrt (7 * v)) 1.5), (Rle_dec (v * 0.5) 1.5); lra.
Qed.

Lemma bbox_extension_low v :
  v <= HIGHWAY_SPEED -> bbox_extension v = additive_extension v.
Proof.
  intros H. unfold bbox_extension.
  destruct (Rgt_dec v HIGHWAY_SPEED); [lra | reflexivity].
Qed.

Lemma bbox_extension_high v :
  HIGHWAY_SPEED < v -> bbox_extension v = HIGHWAY_TIME_HORIZON * v.
Proof.
  intros H. unfold bbox_extension.
  destruct (Rgt_dec v HIGHWAY_SPEED); [reflexivity | lra].
Qed.

Lemma bbox_extension_mono v1 v2 :
  v1 <= v2 -> bbox_extension v1 <= bbox_extension v2.
Proof.
  intros H.
  destruct (Rle_dec v2 HIGHWAY_SPEED) as [H2 | H2].
  - rewrite !bbox_extension_low by lra. now apply additive_extension_mono.
  - rewrite (bbox_extension_high v2) by lra.
    destruct (Rle_dec v1 HIGHWAY_SPEED) as [H1 | H1].
    + rewrite bbox_extension_low by lra.
      pose proof (additive_extension_below v1 H1).
      unfold HIGHWAY_SPEED, HIGHWAY_TIME_HORIZON in *. lra.
    + rewrite bbox_extension_high by lra.
      unfold HIGHWAY_TIME_HORIZON. lra.
Qed.

End ExtensionFacts.

(** C3 (as stated, refuted): the speed [3640889 / 262144], the [float]
    value of the constant [HIGHWAY_SPEED] itself, is at the threshold, and
    above 50 km/h; the extension there is the additive length, not
    [5.0 * speed]. *)
Lemma C3_at_threshold_counterexample :
  (3640889 / 262144 >= HIGHWAY_SPEED)%R /\
  (3640889 / 262144 >= 50 / 3.6)%R /\
  bbox_extension (3640889 / 262144) <> (5.0 * (3640889 / 262144))%R /\
  (bbox_extension (3640889 / 262144) < 19)%R /\
  (69 < 5.0 * (3640889 / 262144))%R.
Proof.
  assert (Hat : (3640889 / 262144 <= HIGHWAY_SPEED)%R)
    by (unfold HIGHWAY_SPEED; lra).
  pose proof (additive_extension_below _ Hat) as H.
  rewrite bbox_extension_low by exact Hat.
  split; [unfold HIGHWAY_SPEED; lra |].
  split; [lra |]. split; [lra |]. split; [exact H | lra].
Qed.

(** C3 (amended): the threshold is the [float] constant [50 / 3.6f], that
    is [3640889 / 262144].  The extension is the additive length
    [max(sqrt(7.0*speed), 1.5) + max(speed*0.5, 1.5) + 1.5] at or below the
    threshold and [5.0 * speed] strictly above it; it is non-decreasing in
    speed over the whole range, so no speed above the threshold yields a
    shorter extension than a lower speed. *)
Theorem C3_bbox_extension_formula_and_monotone :
  forall v1 v2 : R,
    ((v1 <= 3640889 / 262144)%R ->
       bbox_extension v1
       = (Rmax (sqrt (7.0 * v1)) 1.5 + Rmax (v1 * 0.5) 1.5 + 1.5)%R) /\
    ((v1 > 3640889 / 262144)%R -> bbox_extension v1 = (5.0 * v1)%R) /\
    ((v1 <= v2)%R -> (bbox_extension v1 <= bbox_extension v2)%R).
Proof.
  intros v1 v2. repeat split.
  - intros H. rewrite bbox_extension_low by exact H.
    unfold additive_extension. rewrite !std_max_Rmax.
    unfold EXTENSION_SQUARE_POINT, TIME_HORIZON, BOUNDARY_EXTENSION_MINIMUM.
    replace (7.0 * v1)%R with (7 * v1)%R by lra. reflexivity.
  - intros H. rewrite bbox_extension_high by exact H.
    unfold HIGHWAY_TIME_HORIZON. lra.
  - apply bbox_extension_mono.
Qed.

Lemma C3_witness :
  bbox_extension 1 = (Rmax (sqrt (7.0 * 1)) 1.5 + Rmax (1 * 0.5) 1.5 + 1.5)%R /\
  bbox_extension 20 = (5.0 * 20)%R /\
  (bbox_extension 1 <= bbox_extension 20)%R.
Proof.
  destruct (C3_bbox_extension_formula_and_monotone 1 20) as (Hlow & _ & Hmono).
  destruct (C3_bbox_extension_formula_and_monotone 20 20) as (_ & Hhigh & _).
  split; [apply Hlow; lra |].
  split; [apply Hhigh; lra |].
  apply Hmono; lra.
Defined.

(** ** Negotiation *)

Section Negotiation.
Context `{C : Collaborators}.
Local Open Scope R_scope.

Lemma GetPolygon_GetBoundary a : exists p, GetPolygon (GetBoundary a) = Ok p.
Proof. unfold GetBoundary. simpl. eauto. Qed.

Lemma GetPolygon_Ok boundary :
  boundary <> [] -> exists p, GetPolygon boundary = Ok p.
Proof. destruct boundary; [congruence | simpl; eauto]. Qed.

Lemma GetPolygon_Ok_inv boundary p :
  GetPolygon boundary = Ok p -> boundary <> [].
Proof. destruct boundary; simpl; congruence. Qed.

(** [CheckOverlap] always returns. *)
Lemma CheckOverlap_total boundary_a boundary_b :
  exists overlap, CheckOverlap boundary_a boundary_b = Ok overlap.
Proof.
  unfold CheckOverlap.
  destruct boundary_a as [| a la], boundary_b as [| b lb]; simpl; eauto.
Qed.

(** A hazard means: both distances exist and the reference one is larger. *)
Lemma NegotiateCollision_true st r o :
  NegotiateCollision st r o = Ok true ->
  exists d_ref d_other,
    static_to_geodesic_distance st r o = Ok d_ref /\
    static_to_geodesic_distance st o r = Ok d_other /\
    d_ref > d_other.
Proof.
  unfold NegotiateCollision, static_to_geodesic_distance.
  destruct (Rlt_dec _ _) as [_ | _]; [| discriminate].
  destruct (GetGeodesicBoundary st r) as [gr | |]; cbn [res_bind]; try discriminate.
  destruct (GetGeodesicBoundary st o) as [go | |]; cbn [res_bind]; try discriminate.
  destruct (CheckOverlap gr go) as [ov | |]; cbn [res_bind]; try discriminate.
  destruct (GetPolygon gr) as [pgr | |]; cbn [res_bind]; try discriminate.
  destruct (GetPolygon go) as [pgo | |]; cbn [res_bind]; try discriminate.
  destruct (GetPolygon (GetBoundary r)) as [pr | |]; cbn [res_bind]; try discriminate.
  destruct (GetPolygon (GetBoundary o)) as [po | |]; cbn [res_bind]; try discriminate.
  destruct ov; cbn [andb]; [| discriminate].
  destruct (Rgt_dec _ _) as [Hgt | _]; [| discriminate].
  intros _. eauto.
Qed.

(** With both distances defined, the result is defined too, and a tie
    gives no hazard. *)
Lemma NegotiateCollision_tie st r o d :
  static_to_geodesic_distance st r o = Ok d ->
  static_to_geodesic_distance st o r = Ok d ->
  NegotiateCollision st r o = Ok false.
Proof.
  unfold NegotiateCollision, static_to_geodesic_distance.
  destruct (Rlt_dec _ _) as [_ | _]; [| reflexivity].
  destruct (GetGeodesicBoundary st r) as [gr | |]; cbn [res_bind]; try discriminate.
  destruct (GetGeodesicBoundary st o) as [go | |]; cbn [res_bind]; try discriminate.
  destruct (CheckOverlap_total gr go) as [ov ->]; cbn [res_bind].
  destruct (GetPolygon gr) as [pgr | |]; cbn [res_bind]; try discriminate.
  destruct (GetPolygon go) as [pgo | |]; cbn [res_bind]; try discriminate.
  destruct (GetPolygon (GetBoundary r)) as [pr | |]; cbn [res_bind]; try discriminate.
  destruct (GetPolygon (GetBoundary o)) as [po | |]; cbn [res_bind]; try discriminate.
  intros [= H1] [= H2].
  destruct (Rgt_dec _ _) as [Hgt | _]; [lra |].
  destruct ov; reflexivity.
Qed.

(** C2: for two vehicles of the same tick, [NegotiateCollision a b] and
    [NegotiateCollision b a] are never both true, and when the two
    static-to-geodesic distances are equal both calls return false. *)
Theorem C2_negotiation_asymmetric :
  forall (st : CollisionStage) (a b : ActorHandle),
    ~ (NegotiateCollision st a b = Ok true /\
       NegotiateCollision st b a = Ok true) /\
    (forall d : R,
       static_to_geodesic_distance st a b = Ok d ->
       static_to_geodesic_distance st b a = Ok d ->
       NegotiateCollision st a b = Ok false /\
       NegotiateCollision st b a = Ok false).
Proof.
  intros st a b. split.
  - intros [Hab Hba].
    apply NegotiateCollision_true in Hab as (d1 & d2 & E1 & E2 & Hgt).
    apply NegotiateCollision_true in Hba as (d1' & d2' & E1' & E2' & Hgt').
    rewrite E2 in E1'. rewrite E1 in E2'.
    injection E1' as <-. injection E2' as <-. lra.
  - intros d Hab Hba. split; eapply NegotiateCollision_tie; eauto.
Qed.

(** C5: two vehicles whose heights differ by 2.0 or more are never a
    hazard to each other, whatever their planar geometry. *)
Theorem C5_vertical_separation_no_hazard :
  forall (st : CollisionStage) (reference_vehicle other_vehicle : ActorHandle),
    Rabs (cg.z (GetLocation reference_vehicle)
          - cg.z (GetLocation other_vehicle)) >= 2.0 ->
    NegotiateCollision st reference_vehicle other_vehicle = Ok false.
Proof.
  intros st r o H. unfold NegotiateCollision.
  destruct (Rlt_dec _ _) as [Hlt | _]; [| reflexivity].
  unfold VERTICAL_OVERLAP_THRESHOLD in Hlt. lra.
Qed.

End Negotiation.

Lemma C2_witness :
  NegotiateCollision (Scenario.fresh 2)
    (Scenario.car 1 0 0 0 0) (Scenario.car 2 10 0 0 0) = Ok false /\
  NegotiateCollision (Scenario.fresh 2)
    (Scenario.car 2 10 0 0 0) (Scenario.car 1 0 0 0 0) = Ok false.
Proof.
  apply (C2_negotiation_asymmetric (Scenario.fresh 2)
           (Scenario.car 1 0 0 0 0) (Scenario.car 2 10 0 0 0)) with (d := 6%R).
  - cbv [static_to_geodesic_distance GetGeodesicBoundary Scenario.fresh init
         id_to_index res_bind GetPolygon GetBoundary bg_distance
         Box.collaborators Box.distance Box.of_polygon Box.gap].
    rewrite lookup_empty. simpl. f_equal.
    eval_minmax. lra.
  - cbv [static_to_geodesic_distance GetGeodesicBoundary Scenario.fresh init
         id_to_index res_bind GetPolygon GetBoundary bg_distance
         Box.collaborators Box.distance Box.of_polygon Box.gap].
    rewrite lookup_empty. simpl. f_equal.
    eval_minmax. lra.
Defined.

Lemma C5_witness :
  NegotiateCollision (Scenario.fresh 2)
    (Scenario.car 1 0 0 0 0) (Scenario.car 2 0 0 3 0) = Ok false.
Proof.
  apply C5_vertical_separation_no_hazard.
  simpl. rewrite Rabs_left by lra. lra.
Defined.

(** ** Boundaries and overlap *)

Section Boundaries.
Context `{C : Collaborators}.
Local Open Scope R_scope.

(** Every iteration of the corridor loop adds one point on each side. *)
Lemma boundary_loop_lengths width bbox_ext boundary_start rest :
  forall boundary_end left_boundary right_boundary,
    length left_boundary = length right_boundary ->
    length (fst (boundary_loop width bbox_ext boundary_start boundary_end rest
                   left_boundary right_boundary))
    = length (snd (boundary_loop width bbox_ext boundary_start boundary_end rest
                     left_boundary right_boundary)).
Proof.
  induction rest as [| next rest IH]; intros boundary_end l r Hlen.
  - exact Hlen.
  - cbn [boundary_loop].
    destruct (Rlt_dec _ _) as [_ | _]; [| exact Hlen].
    apply IH. rewrite !length_app. cbn [length]. lia.
Qed.

Lemma GetGeodesicBoundary_unregistered st a :
  id_to_index st !! GetId a = None ->
  GetGeodesicBoundary st a = Ok (GetBoundary a).
Proof. intros H. unfold GetGeodesicBoundary. now rewrite H. Qed.

Lemma GetGeodesicBoundary_registered st a index data front rest :
  id_to_index st !! GetId a = Some index ->
  localization_frame st !! index = Some data ->
  buffer data = front :: rest ->
  exists left_boundary right_boundary,
    length left_boundary = length right_boundary /\
    GetGeodesicBoundary st a
    = Ok (rev right_boundary ++ GetBoundary a ++ left_boundary).
Proof.
  intros Hid Hframe Hbuf. unfold GetGeodesicBoundary, at_.
  rewrite Hid, Hframe. cbn [res_bind]. rewrite Hbuf.
  pose proof (boundary_loop_lengths (cg.y (extent a))
                (bbox_extension (cg.Length (GetVelocity a)))
                front (front :: rest) front [] [] eq_refl) as Hlen.
  destruct (boundary_loop _ _ _ _ _ _ _) as [l r].
  exists l, r. split; [exact Hlen | reflexivity].
Qed.

Lemma GetGeodesicBoundary_empty_buffer st a index data :
  id_to_index st !! GetId a = Some index ->
  localization_frame st !! index = Some data ->
  buffer data = [] ->
  GetGeodesicBoundary st a = Undef.
Proof.
  intros Hid Hframe Hbuf. unfold GetGeodesicBoundary, at_.
  rewrite Hid, Hframe. cbn [res_bind]. now rewrite Hbuf.
Qed.

(** *** CheckOverlap *)

Lemma overlap_loop_true output :
  overlap_loop output true = true.
Proof. destruct output; reflexivity. Qed.

Lemma overlap_loop_spec output :
  overlap_loop output false = true <->
  exists p, In p output /\ bg_area p > ZERO_AREA.
Proof.
  induction output as [| p rest IH]; cbn [overlap_loop].
  - split; [discriminate | intros (p & [] & _)].
  - destruct (Rgt_dec (bg_area p) ZERO_AREA) as [Hgt | Hle].
    + rewrite overlap_loop_true. split; [| reflexivity].
      intros _. exists p. split; [now left | exact Hgt].
    + rewrite IH. split.
      * intros (q & Hin & Hq). exists q. split; [now right | exact Hq].
      * intros (q & [-> | Hin] & Hq); [contradiction | eauto].
Qed.

Lemma CheckOverlap_true boundary_a boundary_b :
  CheckOverlap boundary_a boundary_b = Ok true <->
  exists polygon_a polygon_b piece,
    GetPolygon boundary_a = Ok polygon_a /\
    GetPolygon boundary_b = Ok polygon_b /\
    In piece (bg_intersection polygon_a polygon_b) /\
    bg_area piece > ZERO_AREA.
Proof.
  unfold CheckOverlap.
  destruct boundary_a as [| a la], boundary_b as [| b lb];
    cbn [length Nat.ltb Nat.leb andb GetPolygon res_bind].
  - split; [discriminate | intros (? & ? & ? & [=] & _)].
  - split; [discriminate | intros (? & ? & ? & [=] & _)].
  - split; [discriminate | intros (? & ? & ? & _ & [=] & _)].
  - split.
    + intros [= H]. apply overlap_loop_spec in H as (p & Hin & Hp).
      eauto 7.
    + intros (pa & pb & p & [= <-] & [= <-] & Hin & Hp).
      f_equal. apply overlap_loop_spec. eauto.
Qed.

Lemma CheckOverlap_true_sym boundary_a boundary_b :
  intersection_commutes ->
  CheckOverlap boundary_a boundary_b = Ok true ->
  CheckOverlap boundary_b boundary_a = Ok true.
Proof.
  intros Hsym H.
  apply CheckOverlap_true in H as (pa & pb & p & Ha & Hb & Hin & Hp).
  destruct (Hsym _ _ _ Hin) as (p' & Hin' & Harea).
  apply CheckOverlap_true. exists pb, pa, p'.
  repeat split; try assumption. rewrite Harea. exact Hp.
Qed.

Lemma CheckOverlap_true_ring first_a rest_a first_b rest_b :
  CheckOverlap (first_a :: rest_a) (first_b :: rest_b) = Ok true <->
  exists piece,
    In piece
       (bg_intersection
          (map wkt_point (first_a :: rest_a) ++ [wkt_point first_a])
          (map wkt_point (first_b :: rest_b) ++ [wkt_point first_b])) /\
    bg_area piece > ZERO_AREA.
Proof.
  rewrite CheckOverlap_true. cbn [GetPolygon]. split.
  - intros (pa & pb & piece & [= <-] & [= <-] & Hin & Hp). eauto.
  - intros (piece & Hin & Hp). eexists _, _, piece. auto.
Qed.


End Boundaries.

Lemma Box_intersection_commutes :
  intersection_commutes (C := Box.collaborators).
Proof.
  intros p q piece Hin. exists piece. split; [| reflexivity].
  cbn [bg_intersection Box.collaborators] in *. unfold Box.intersection in *.
  destruct (Box.of_polygon p) as [a |], (Box.of_polygon q) as [b |];
    try contradiction.
  replace (Box.meet b a) with (Box.meet a b); [exact Hin |].
  unfold Box.meet. f_equal; first [apply Rmax_comm | apply Rmin_comm].
Qed.



(** ** The identity-to-index map *)

Section Registry.
Context `{C : Collaborators}.

Lemma unordered_map_insert_lookup (m : gmap ActorId nat) k v id :
  unordered_map_insert m k v !! id
  = match m !! id with
    | Some i => Some i
    | None => if decide (k = id) then Some v else None
    end.
Proof.
  unfold unordered_map_insert.
  destruct (m !! k) as [old |] eqn:Ek.
  - destruct (m !! id) eqn:Eid; [reflexivity |].
    destruct (decide (k = id)) as [-> | _]; [congruence | reflexivity].
  - destruct (decide (k = id)) as [-> | Hne].
    + rewrite lookup_insert_eq, Ek. reflexivity.
    + rewrite lookup_insert_ne by exact Hne. now destruct (m !! id).
Qed.

(** The map after the loop of [DataReceiver]: old entries win, a new
    identity gets the index of its first occurrence. *)
Lemma insert_indices_lookup elements :
  forall index (m : gmap ActorId nat) id,
    insert_indices elements index m !! id
    = match m !! id with
      | Some i => Some i
      | None => (fun p => (index + p)%nat) <$> first_position id (frame_ids elements)
      end.
Proof.
  induction elements as [| element rest IH]; intros index m id.
  - cbn. now destruct (m !! id).
  - cbn [insert_indices frame_ids map first_position].
    rewrite IH, unordered_map_insert_lookup.
    fold (frame_ids rest).
    destruct (m !! id) as [i |]; [reflexivity |].
    destruct (decide (GetId (actor element) = id)) as [_ | _].
    + cbn. f_equal. lia.
    + destruct (first_position id (frame_ids rest)) as [p |]; cbn;
        [f_equal; lia | reflexivity].
Qed.

Lemma first_position_spec id ids i :
  first_position id ids = Some i <->
  ids !! i = Some id /\ forall j, (j < i)%nat -> ids !! j <> Some id.
Proof.
  revert i. induction ids as [| k rest IH]; intros i; cbn [first_position].
  - split; [discriminate | intros [H _]; discriminate].
  - destruct (decide (k = id)) as [-> | Hne].
    + split.
      * intros [= <-]. split; [reflexivity | intros j Hj; lia].
      * intros [Hi Hfirst]. destruct i as [| i]; [reflexivity |].
        exfalso. apply (Hfirst 0%nat); [lia | reflexivity].
    + destruct i as [| i].
      * split.
        -- destruct (first_position id rest); discriminate.
        -- intros [[= ->] _]. contradiction.
      * split.
        -- intros H.
           destruct (first_position id rest) as [p |] eqn:E; [| discriminate].
           injection H as ->.
           destruct (proj1 (IH i) eq_refl) as [Hi Hfirst]. split; [exact Hi |].
           intros [| j] Hj; cbn; [congruence | apply Hfirst; lia].
        -- intros [Hi Hfirst].
           assert (E : first_position id rest = Some i).
           { apply IH. split; [exact Hi |].
             intros j Hj. apply (Hfirst (S j)). lia. }
           now rewrite E.
Qed.

Lemma first_position_NoDup id ids i :
  NoDup ids -> first_position id ids = Some i <-> ids !! i = Some id.
Proof.
  intros Hnd. rewrite first_position_spec. split; [tauto |].
  intros Hi. split; [exact Hi |].
  intros j Hj Hjid.
  pose proof (NoDup_lookup _ _ _ _ Hnd Hi Hjid). lia.
Qed.

Lemma fmap_plus_0 (o : option nat) : (fun p => (0 + p)%nat) <$> o = o.
Proof. now destruct o. Qed.

(** On a map that is empty, a frame without a duplicate identity gives the
    bijection onto the indices of the frame. *)
Lemma DataReceiver_first_frame st packet_id frame :
  id_to_index st = ∅ -> NoDup (frame_ids frame) ->
  bijection_onto_indices (id_to_index (DataReceiver st packet_id frame))
    (frame_ids frame) /\
  forall id i,
    id_to_index (DataReceiver st packet_id frame) !! id = Some i <->
    frame_ids frame !! i = Some id.
Proof.
  intros Hempty Hnd. cbn [DataReceiver id_to_index].
  assert (Hlookup : forall id i,
             insert_indices frame 0 (id_to_index st) !! id = Some i <->
             frame_ids frame !! i = Some id).
  { intros id i. rewrite insert_indices_lookup, Hempty, lookup_empty, fmap_plus_0.
    now apply first_position_NoDup. }
  split; [| exact Hlookup].
  repeat split.
  - intros [i Hi]. apply list_elem_of_lookup. exists i. now apply Hlookup.
  - intros Hin. apply list_elem_of_lookup in Hin as [i Hi].
    exists i. now apply Hlookup.
  - intros id i Hi. apply Hlookup in Hi. now apply lookup_lt_Some in Hi.
  - intros id1 id2 i H1 H2. apply Hlookup in H1, H2. congruence.
  - intros i Hi. apply lookup_lt_is_Some_2 in Hi as [id Hid].
    exists id. now apply Hlookup.
Qed.

(** An entry of the map outlives every later frame. *)
Lemma DataReceiver_keeps st packet_id frame id index :
  id_to_index st !! id = Some index ->
  id_to_index (DataReceiver st packet_id frame) !! id = Some index.
Proof.
  intros H. cbn [DataReceiver id_to_index].
  now rewrite insert_indices_lookup, H.
Qed.

End Registry.

(** C1 (the code at the failing input): [DataReceiver] only inserts, and an
    insert keeps an existing key.  On the first frame after the constructor
    the map is the bijection the claim speaks of; any entry then outlives
    every later frame.  After a tick with vehicle 7 alone and a tick with
    vehicle 9 alone the entry of vehicle 7 is still in the map, the map is
    no bijection from the identities of the second frame onto [0, 1), and
    the identity 7 resolves to the handle of vehicle 9. *)
Theorem C1_stale_entry_outlives_its_frame :
  (forall (C : Collaborators) (number_of_vehicle : nat)
          (localization_state planner_state : Z) (grid : VicinityGrid)
          (clock : R) (packet_id : Z)
          (frame : list LocalizationToCollisionData),
     NoDup (frame_ids frame) ->
     bijection_onto_indices
       (id_to_index
          (DataReceiver
             (init number_of_vehicle localization_state planner_state grid
                clock)
             packet_id frame))
       (frame_ids frame)) /\
  (forall (C : Collaborators) (st : CollisionStage) (packet_id : Z)
          (frame : list LocalizationToCollisionData) (id : ActorId)
          (index : nat),
     id_to_index st !! id = Some index ->
     id_to_index (DataReceiver st packet_id frame) !! id = Some index) /\
  Scenario.second_tick
  = DataReceiver
      (DataReceiver (init (C := Box.collaborators) 1 0 1 [] 0) 1
         [mkLocalization (Scenario.car 7 0 0 0 0) []])
      2 [mkLocalization (Scenario.car 9 0 0 0 0) []] /\
  frame_ids (localization_frame Scenario.second_tick) = [9%nat] /\
  id_to_index Scenario.second_tick !! 7%nat = Some 0%nat /\
  id_to_index Scenario.second_tick !! 9%nat = Some 0%nat /\
  ~ bijection_onto_indices (id_to_index Scenario.second_tick)
      (frame_ids (localization_frame Scenario.second_tick)) /\
  resolve_actor Scenario.second_tick 7%nat
  = Ok (Some (Scenario.car 9 0 0 0 0)).
Proof.
  split; [| split].
  - intros C n ls ps grid clock packet_id frame Hnd.
    now apply DataReceiver_first_frame.
  - intros C st packet_id frame id index. apply DataReceiver_keeps.
  - split; [reflexivity |]. split; [reflexivity |].
    split; [reflexivity |]. split; [reflexivity |].
    split; [| reflexivity].
    intros (_ & _ & Hinj & _).
    specialize (Hinj 7%nat 9%nat 0%nat eq_refl eq_refl). discriminate.
Qed.

(** ** The candidates of one vehicle *)

Section Candidates.
Context `{C : Collaborators}.
Local Open Scope R_scope.

Lemma bind_lift_Ok {A B : Type} (a : A) (k : A -> Run B) :
  bind (lift (Ok a)) k = k a.
Proof. unfold bind, lift. cbn. now destruct (k a). Qed.

Lemma bind_lift_Throw {A B : Type} (k : A -> Run B) :
  bind (lift Throw) k = (Throw, []).
Proof. reflexivity. Qed.

Lemma bind_lift_Undef {A B : Type} (k : A -> Run B) :
  bind (lift Undef) k = (Undef, []).
Proof. reflexivity. Qed.

Lemma bind_ret {A B : Type} (a : A) (k : A -> Run B) :
  bind (ret a) k = k a.
Proof. apply bind_lift_Ok. Qed.

Lemma bind_emit {B : Type} (e : Event) (k : unit -> Run B) :
  bind (emit e) k = (fst (k tt), e :: snd (k tt)).
Proof. reflexivity. Qed.

Lemma log_problem_run h : log_problem h = (Ok h, [EvLogWarning; EvLogInfo]).
Proof. reflexivity. Qed.

Lemma check_candidate_outcome st ego_actor actor_id h :
  candidate_outcome st ego_actor actor_id h
    (check_candidate st ego_actor actor_id h).
Proof.
  unfold check_candidate.
  destruct (Nat.eqb_spec actor_id (GetId ego_actor)) as [Heq | Hne];
    cbn [negb]; [constructor |].
  destruct (resolve_actor st actor_id) as [[a |] | |] eqn:Hres;
    rewrite ?bind_lift_Ok, ?bind_lift_Throw, ?bind_lift_Undef;
    try (apply outcome_failed; [auto | exact Hne]).
  destruct (Rle_dec _ _) as [Hle | Hgt]; [| constructor].
  rewrite bind_emit.
  destruct (NegotiateCollision st ego_actor a) as [n | |] eqn:Hn;
    rewrite ?bind_lift_Ok, ?bind_lift_Throw, ?bind_lift_Undef;
    cbn [fst snd ret]; eapply outcome_negotiated; eauto; now rewrite Hn.
Qed.

(** Beyond the search radius the candidate is left alone. *)
Lemma check_candidate_far st ego_actor actor_id a h :
  resolve_actor st actor_id = Ok (Some a) ->
  DistanceSquared (GetLocation ego_actor) (GetLocation a)
    > SEARCH_RADIUS * SEARCH_RADIUS ->
  check_candidate st ego_actor actor_id h = (Ok h, []).
Proof.
  intros Hres Hfar. unfold check_candidate.
  destruct (negb _); [| reflexivity].
  rewrite Hres, bind_lift_Ok.
  destruct (Rle_dec _ _) as [Hle | _]; [lra | reflexivity].
Qed.

(** A null handle: the candidate is in neither table. *)
Lemma check_candidate_null st ego_actor actor_id h :
  actor_id <> GetId ego_actor ->
  id_to_index st !! actor_id = None ->
  unregistered_actors st !! actor_id = None ->
  resolve_actor st actor_id = Ok None /\
  check_candidate st ego_actor actor_id h = (Undef, []).
Proof.
  intros Hne Hid Hun.
  assert (Hres : resolve_actor st actor_id = Ok None).
  { unfold resolve_actor. now rewrite Hid, Hun. }
  split; [exact Hres |].
  unfold check_candidate.
  destruct (Nat.eqb_spec actor_id (GetId ego_actor)); [contradiction |].
  cbn [negb]. now rewrite Hres.
Qed.

Lemma candidate_loop_hazard st ego_actor rest :
  candidate_loop st ego_actor rest true = (Ok true, []).
Proof. destruct rest; reflexivity. Qed.

(** One turn of the loop, by the way the [try] block ended. *)
Lemma candidate_loop_cons_ok st ego_actor actor_id rest after t :
  check_candidate st ego_actor actor_id false = (Ok after, t) ->
  candidate_loop st ego_actor (actor_id :: rest) false
  = (fst (candidate_loop st ego_actor rest after),
     t ++ snd (candidate_loop st ego_actor rest after)).
Proof.
  intros H. cbn [candidate_loop]. now rewrite H.
Qed.

Lemma candidate_loop_cons_throw st ego_actor actor_id rest t :
  check_candidate st ego_actor actor_id false = (Throw, t) ->
  candidate_loop st ego_actor (actor_id :: rest) false
  = (fst (candidate_loop st ego_actor rest false),
     (t ++ [EvLogWarning; EvLogInfo])
     ++ snd (candidate_loop st ego_actor rest false)).
Proof.
  intros H. cbn [candidate_loop]. now rewrite H.
Qed.

Lemma candidate_loop_cons_undef st ego_actor actor_id rest t :
  check_candidate st ego_actor actor_id false = (Undef, t) ->
  candidate_loop st ego_actor (actor_id :: rest) false = (Undef, t).
Proof. intros H. cbn [candidate_loop]. now rewrite H. Qed.

(** No exception leaves the loop. *)
Lemma candidate_loop_never_throws st ego_actor rest :
  forall h, fst (candidate_loop st ego_actor rest h) <> Throw.
Proof.
  induction rest as [| actor_id rest IH]; intros h; [discriminate |].
  destruct h; [rewrite candidate_loop_hazard; discriminate |].
  destruct (check_candidate st ego_actor actor_id false) as [[after | |] t] eqn:E.
  - rewrite (candidate_loop_cons_ok _ _ _ _ _ _ E). apply IH.
  - rewrite (candidate_loop_cons_throw _ _ _ _ _ E). apply IH.
  - rewrite (candidate_loop_cons_undef _ _ _ _ _ E). discriminate.
Qed.

(** Every negotiation of the loop is with an actor inside the search
    radius, and a hazard comes from one of them. *)
Lemma candidate_loop_negotiations st ego_actor rest :
  forall h,
    (forall a b, In (EvNegotiate a b) (snd (candidate_loop st ego_actor rest h)) ->
       a = ego_actor /\
       DistanceSquared (GetLocation ego_actor) (GetLocation b)
         <= SEARCH_RADIUS * SEARCH_RADIUS) /\
    (fst (candidate_loop st ego_actor rest h) = Ok true ->
     h = true \/
     exists b, In (EvNegotiate ego_actor b)
                  (snd (candidate_loop st ego_actor rest h)) /\
               NegotiateCollision st ego_actor b = Ok true).
Proof.
  induction rest as [| actor_id rest IH]; intros h.
  - cbn. split; [tauto |]. intros [= ->]. now left.
  - destruct h; [rewrite candidate_loop_hazard; cbn; split; [tauto | auto] |].
    pose proof (check_candidate_outcome st ego_actor actor_id false) as Hout.
    destruct (check_candidate st ego_actor actor_id false) as [r t] eqn:E.
    inversion Hout as [| r' Hr Hne | a r' Hne Hres Hle Hr]; subst.
    + rewrite (candidate_loop_cons_ok _ _ _ _ _ _ E). cbn [fst snd app].
      apply IH.
    + destruct Hr as [-> | ->].
      * rewrite (candidate_loop_cons_throw _ _ _ _ _ E). cbn [fst snd app].
        destruct (IH false) as [IH1 IH2]. split.
        -- intros a b [H | [H | H]]; try discriminate. now apply IH1.
        -- intros H. destruct (IH2 H) as [? | (b & Hin & Hb)]; [now left |].
           right. exists b. split; [right; right; exact Hin | exact Hb].
      * rewrite (candidate_loop_cons_undef _ _ _ _ _ E). cbn.
        split; [tauto | discriminate].
    + destruct (NegotiateCollision st ego_actor a) as [n | |] eqn:Hn;
        cbn [res_bind] in E.
      * rewrite (candidate_loop_cons_ok _ _ _ _ _ _ E). cbn [fst snd app].
        destruct (IH (if n then true else false)) as [IH1 IH2]. split.
        -- intros a' b [[= <- <-] | H]; [split; [reflexivity | exact Hle] |].
           now apply IH1.
        -- intros H. right.
           destruct (IH2 H) as [Hn' | (b & Hin & Hb)].
           ++ exists a. split; [now left |]. now destruct n.
           ++ exists b. split; [now right | exact Hb].
      * rewrite (candidate_loop_cons_throw _ _ _ _ _ E). cbn [fst snd app].
        destruct (IH false) as [IH1 IH2]. split.
        -- intros a' b [[= <- <-] | [H | [H | H]]]; try discriminate;
             [split; [reflexivity | exact Hle] | now apply IH1].
        -- intros H. destruct (IH2 H) as [? | (b & Hin & Hb)]; [now left |].
           right. exists b. split; [right; right; right; exact Hin | exact Hb].
      * rewrite (candidate_loop_cons_undef _ _ _ _ _ E). cbn [fst snd].
        split; [| discriminate].
        intros a' b [[= <- <-] | []]. split; [reflexivity | exact Hle].
Qed.

End Candidates.

(** ** The vehicles of a partition *)

Section Vehicles.
Context `{C : Collaborators}.

Lemma same_frames_refl st : same_frames st st.
Proof. repeat split. Qed.

Lemma same_frames_trans st1 st2 st3 :
  same_frames st1 st2 -> same_frames st2 st3 -> same_frames st1 st3.
Proof.
  intros (A1 & A2 & A3 & A4) (B1 & B2 & B3 & B4).
  split; [congruence |]. split; [congruence |]. split; [congruence |].
  intros f. now rewrite B4, A4.
Qed.

Lemma bind_Ok_inv {A B : Type} (c : Run A) (k : A -> Run B) b t :
  bind c k = (Ok b, t) ->
  exists a t1 t2, c = (Ok a, t1) /\ k a = (Ok b, t2) /\ t = t1 ++ t2.
Proof.
  unfold bind. destruct c as [[a | |] t1]; cbn [fst snd]; try discriminate.
  destruct (k a) as [r t2] eqn:E. cbn [fst snd]. intros [= -> <-]. eauto 6.
Qed.

Lemma bind_Throw_inv {A B : Type} (c : Run A) (k : A -> Run B) t :
  bind c k = (Throw, t) ->
  c = (Throw, t) \/
  exists a t1 t2, c = (Ok a, t1) /\ k a = (Throw, t2) /\ t = t1 ++ t2.
Proof.
  unfold bind. destruct c as [[a | |] t1]; cbn [fst snd]; try discriminate.
  - destruct (k a) as [r t2] eqn:E. cbn [fst snd]. intros [= -> <-].
    right. eauto 6.
  - intros [= <-]. now left.
Qed.

Lemma handle_unregistered_same_frames st w start_index :
  same_frames st (handle_unregistered st w start_index) /\
  id_to_index (handle_unregistered st w start_index) = id_to_index st.
Proof.
  unfold handle_unregistered, refresh_unregistered, scan_world.
  destruct (start_index =? 0)%nat; [| repeat split].
  destruct (Rgt_dec _ _); destruct (foldl _ _ _) as [grid ids];
    (split; [repeat split; intros []; reflexivity | reflexivity]).
Qed.

(** The candidate loop only negotiates and logs. *)
Lemma candidate_loop_events st ego_actor rest :
  forall h e,
    In e (snd (candidate_loop st ego_actor rest h)) -> is_candidate_event e.
Proof.
  induction rest as [| actor_id rest IH]; intros h e; [intros [] |].
  destruct h; [rewrite candidate_loop_hazard; intros [] |].
  pose proof (check_candidate_outcome st ego_actor actor_id false) as Hout.
  destruct (check_candidate st ego_actor actor_id false) as [[after | |] t1] eqn:E.
  - rewrite (candidate_loop_cons_ok _ _ _ _ _ _ E). cbn [snd].
    intros Hin. apply in_app_or in Hin as [Hin | Hin]; [| now apply IH in Hin].
    inversion Hout; subst; cbn in Hin;
      repeat (destruct Hin as [<- | Hin]; [exact I |]); destruct Hin.
  - rewrite (candidate_loop_cons_throw _ _ _ _ _ E). cbn [snd].
    intros Hin. apply in_app_or in Hin as [Hin | Hin]; [| now apply IH in Hin].
    apply in_app_or in Hin as [Hin | [<- | [<- | []]]]; try exact I.
    inversion Hout; subst; cbn in Hin;
      repeat (destruct Hin as [<- | Hin]; [exact I |]); destruct Hin.
  - rewrite (candidate_loop_cons_undef _ _ _ _ _ E). cbn [snd].
    intros Hin.
    inversion Hout; subst; cbn in Hin;
      repeat (destruct Hin as [<- | Hin]; [exact I |]); destruct Hin.
Qed.

Lemma candidate_loop_no_writes st ego_actor rest h g j v :
  ~ In (EvWriteHazard g j v) (snd (candidate_loop st ego_actor rest h)).
Proof. intros H. now apply candidate_loop_events in H. Qed.

Lemma candidate_loop_no_flips st ego_actor rest h :
  ~ In EvFlipSelector (snd (candidate_loop st ego_actor rest h)).
Proof. intros H. now apply candidate_loop_events in H. Qed.

Lemma candidate_loop_no_sends st ego_actor rest h id f :
  ~ In (EvSendData id f) (snd (candidate_loop st ego_actor rest h)).
Proof. intros H. now apply candidate_loop_events in H. Qed.

(** One turn of the vehicle loop, case by case. *)
Lemma vehicle_step_unfold f st i :
  vehicle_step f st i
  = match localization_frame st !! i with
    | None => (Throw, [])
    | Some data =>
        let found := GetActors (vicinity_grid st) (actor data) in
        let st1 := set_vicinity_grid st (fst found) in
        let scanned := candidate_loop st1 (actor data) (snd found) false in
        match fst scanned with
        | Ok h =>
            match planner_frame st f !! i with
            | Some _ =>
                (Ok (set_planner_frame st1 f
                       (<[i := mkPlannerData h]> (planner_frame st f))),
                 snd scanned ++ [EvWriteHazard f i h])
            | None => (Throw, snd scanned)
            end
        | Throw => (Throw, snd scanned)
        | Undef => (Undef, snd scanned)
        end
    end.
Proof.
  unfold vehicle_step, at_.
  destruct (localization_frame st !! i) as [data |];
    [rewrite bind_lift_Ok | reflexivity].
  cbn zeta. unfold bind at 1.
  destruct (candidate_loop _ _ _ _) as [[h | |] t0]; cbn [fst snd];
    try reflexivity.
  unfold write_hazard, at_.
  replace (planner_frame
             (set_vicinity_grid st (GetActors (vicinity_grid st) (actor data)).1) f)
    with (planner_frame st f) by (destruct f; reflexivity).
  destruct (planner_frame st f !! i) as [message |]; cbn [res_bind].
  - rewrite bind_lift_Ok, bind_emit. reflexivity.
  - rewrite bind_lift_Throw. cbn [fst snd]. now rewrite app_nil_r.
Qed.

(** What a completed turn of the vehicle loop did. *)
Lemma vehicle_step_Ok f st i st' t :
  vehicle_step f st i = (Ok st', t) ->
  exists data h t0,
    localization_frame st !! i = Some data /\
    let found := GetActors (vicinity_grid st) (actor data) in
    let st1 := set_vicinity_grid st (fst found) in
    candidate_loop st1 (actor data) (snd found) false = (Ok h, t0) /\
    (i < length (planner_frame st f))%nat /\
    st' = set_planner_frame st1 f
            (<[i := mkPlannerData h]> (planner_frame st f)) /\
    t = t0 ++ [EvWriteHazard f i h].
Proof.
  rewrite vehicle_step_unfold.
  destruct (localization_frame st !! i) as [data |] eqn:Hdata; [| discriminate].
  cbn zeta.
  destruct (candidate_loop _ _ _ _) as [[h | |] t0] eqn:Hloop; cbn [fst snd];
    try discriminate.
  destruct (planner_frame st f !! i) as [message |] eqn:Hmsg; [| discriminate].
  intros [= <- <-]. exists data, h, t0. cbn zeta.
  apply lookup_lt_Some in Hmsg. auto.
Qed.

(** An exception leaves a turn only from the two range-checked accesses. *)
Lemma vehicle_step_Throw f st i t :
  vehicle_step f st i = (Throw, t) ->
  (length (localization_frame st) <= i)%nat \/
  (length (planner_frame st f) <= i)%nat.
Proof.
  rewrite vehicle_step_unfold.
  destruct (localization_frame st !! i) as [data |] eqn:Hdata.
  - cbn zeta.
    pose proof (candidate_loop_never_throws
                  (set_vicinity_grid st (fst (GetActors (vicinity_grid st) (actor data))))
                  (actor data) (snd (GetActors (vicinity_grid st) (actor data)))
                  false) as Hnt.
    destruct (candidate_loop _ _ _ _) as [[h | |] t0] eqn:Hloop;
      cbn [fst snd] in *; try congruence.
    destruct (planner_frame st f !! i) as [message |] eqn:Hmsg; [discriminate |].
    intros _. right. now apply lookup_ge_None in Hmsg.
  - intros _. left. now apply lookup_ge_None in Hdata.
Qed.

Lemma vehicle_step_same_frames f st i st' t :
  vehicle_step f st i = (Ok st', t) ->
  same_frames st st' /\
  id_to_index st' = id_to_index st /\
  (exists h, planner_frame st' f !! i = Some (mkPlannerData h) /\
             In (EvWriteHazard f i h) t) /\
  (forall j, j <> i -> planner_frame st' f !! j = planner_frame st f !! j) /\
  (forall g j h, In (EvWriteHazard g j h) t -> g = f /\ j = i).
Proof.
  intros H. apply vehicle_step_Ok in H
    as (data & h & t0 & Hdata & Hloop & Hi & -> & ->).
  cbn zeta in Hloop.
  split; [| split; [| split; [| split]]].
  - repeat split. intros g. destruct f, g; cbn; now rewrite ?length_insert.
  - reflexivity.
  - exists h. split.
    + destruct f; cbn; now apply list_lookup_insert_eq.
    + apply in_or_app. right. now left.
  - intros j Hj. destruct f; cbn; now apply list_lookup_insert_ne.
  - intros g j h' Hin. apply in_app_or in Hin as [Hin | [[= <- <- <-] | []]];
      [| auto].
    exfalso. change t0 with (snd (Ok h, t0)) in Hin. rewrite <- Hloop in Hin.
    now apply candidate_loop_no_writes in Hin.
Qed.

(** With the index inside both arrays, a turn of the vehicle loop writes
    the flag unless a candidate ran into undefined behaviour. *)
Lemma vehicle_step_writes f st i data :
  localization_frame st !! i = Some data ->
  (i < length (planner_frame st f))%nat ->
  fst (candidate_loop
         (set_vicinity_grid st (fst (GetActors (vicinity_grid st) (actor data))))
         (actor data) (snd (GetActors (vicinity_grid st) (actor data))) false)
  <> Undef ->
  exists h st' t,
    vehicle_step f st i = (Ok st', t) /\
    planner_frame st' f !! i = Some (mkPlannerData h) /\
    In (EvWriteHazard f i h) t.
Proof.
  intros Hdata Hi Hdef. rewrite vehicle_step_unfold, Hdata. cbn zeta.
  pose proof (candidate_loop_never_throws
                (set_vicinity_grid st (fst (GetActors (vicinity_grid st) (actor data))))
                (actor data) (snd (GetActors (vicinity_grid st) (actor data)))
                false) as Hnt.
  destruct (candidate_loop _ _ _ _) as [[h | |] t0]; cbn [fst snd] in *;
    try congruence.
  destruct (lookup_lt_is_Some_2 _ _ Hi) as [message ->].
  exists h. eexists. eexists. split; [reflexivity |]. split.
  - destruct f; cbn; now apply list_lookup_insert_eq.
  - apply in_or_app. right. now left.
Qed.

Lemma vehicle_loop_cons f st i rest :
  vehicle_loop f st (i :: rest)
  = bind (vehicle_step f st i) (fun st' => vehicle_loop f st' rest).
Proof. reflexivity. Qed.

(** What a completed vehicle loop did. *)
Lemma vehicle_loop_Ok f indices :
  forall st st' t,
    vehicle_loop f st indices = (Ok st', t) ->
    same_frames st st' /\
    id_to_index st' = id_to_index st /\
    (forall j, ~ In j indices ->
       planner_frame st' f !! j = planner_frame st f !! j) /\
    (List.NoDup indices ->
     forall i, In i indices ->
       exists h, planner_frame st' f !! i = Some (mkPlannerData h) /\
                 In (EvWriteHazard f i h) t) /\
    (forall g j h, In (EvWriteHazard g j h) t -> g = f /\ In j indices).
Proof.
  induction indices as [| i rest IH]; intros st st' t.
  - intros [= <- <-]. split; [apply same_frames_refl |].
    split; [reflexivity |]. split; [reflexivity |].
    split; [intros _ i [] | intros g j h []].
  - rewrite vehicle_loop_cons. intros H.
    apply bind_Ok_inv in H as (st1 & t1 & t2 & Hstep & Hrest & ->).
    apply vehicle_step_same_frames in Hstep
      as (Hsame1 & Hid1 & (h & Hh & Hev) & Hother1 & Hwrites1).
    apply IH in Hrest as (Hsame2 & Hid2 & Hother2 & Hflags2 & Hwrites2).
    split; [eapply same_frames_trans; eauto |].
    split; [congruence |].
    split; [| split].
    + intros j Hj. rewrite Hother2, Hother1; [reflexivity | |];
        intros ?; apply Hj; [left; congruence | now right].
    + intros Hnd i' [<- | Hin].
      * exists h. split; [| apply in_or_app; now left].
        rewrite Hother2; [exact Hh |]. now inversion Hnd.
      * inversion Hnd; subst.
        destruct (Hflags2 ltac:(assumption) i' Hin) as (h' & Hh' & Hev').
        exists h'. split; [exact Hh' | apply in_or_app; now right].
    + intros g j h' Hin. apply in_app_or in Hin as [Hin | Hin].
      * destruct (Hwrites1 _ _ _ Hin) as [-> ->]. split; [reflexivity | now left].
      * destruct (Hwrites2 _ _ _ Hin) as [-> Hj]. split; [reflexivity | now right].
Qed.

(** An exception leaves the vehicle loop only from a range-checked access
    with an index outside the frame. *)
Lemma vehicle_loop_Throw f indices :
  forall st t,
    vehicle_loop f st indices = (Throw, t) ->
    exists i, In i indices /\
      ((length (localization_frame st) <= i)%nat \/
       (length (planner_frame st f) <= i)%nat).
Proof.
  induction indices as [| i rest IH]; intros st t; [discriminate |].
  rewrite vehicle_loop_cons. intros H.
  apply bind_Throw_inv in H as [H | (st1 & t1 & t2 & Hstep & Hrest & ->)].
  - exists i. split; [now left | eapply vehicle_step_Throw; eauto].
  - apply vehicle_step_same_frames in Hstep as ((Hf & _ & _ & Hlen) & _).
    apply IH in Hrest as (j & Hj & Hout).
    exists j. split; [now right |]. now rewrite <- Hf, <- Hlen.
Qed.

Lemma in_range_seq start_index end_index i :
  In i (seq start_index (S end_index - start_index))
  <-> in_range start_index end_index i.
Proof. rewrite in_seq. unfold in_range. lia. Qed.

(** What a completed [Action] did. *)
Lemma Action_Ok st w start_index end_index st' t :
  Action st w start_index end_index = (Ok st', t) ->
  let f := frame_of_selector (frame_selector st) in
  same_frames st st' /\
  id_to_index st' = id_to_index st /\
  (forall i, in_range start_index end_index i ->
     exists h, planner_frame st' f !! i = Some (mkPlannerData h) /\
               In (EvWriteHazard f i h) t) /\
  (forall g j h, In (EvWriteHazard g j h) t ->
     g = f /\ in_range start_index end_index j) /\
  ~ In EvFlipSelector t.
Proof.
  intros H f. unfold Action in H. fold f in H.
  destruct (handle_unregistered_same_frames st w start_index) as [Hsame0 Hid0].
  pose proof H as Hloop.
  apply vehicle_loop_Ok in Hloop as (Hsame & Hid & _ & Hflags & Hwrites).
  split; [eapply same_frames_trans; eauto |].
  split; [congruence |].
  split; [| split].
  - intros i Hi. apply Hflags; [apply seq_NoDup | now apply in_range_seq].
  - intros g j h Hin. destruct (Hwrites _ _ _ Hin) as [-> Hj].
    split; [reflexivity | now apply in_range_seq].
  - clear - H. revert H.
    generalize (handle_unregistered st w start_index).
    generalize (seq start_index (S end_index - start_index)).
    intros indices. revert t.
    induction indices as [| i rest IH]; intros t st0.
    + intros [= _ <-] [].
    + rewrite vehicle_loop_cons. intros H.
      apply bind_Ok_inv in H as (st1 & t1 & t2 & Hstep & Hrest & ->).
      intros Hin. apply in_app_or in Hin as [Hin | Hin];
        [| eapply IH; eauto].
      apply vehicle_step_Ok in Hstep as (data & h & t0 & _ & Hl & _ & _ & ->).
      apply in_app_or in Hin as [Hin | [[=] | []]].
      cbn zeta in Hl. change t0 with (snd (Ok h, t0)) in Hin.
      rewrite <- Hl in Hin. now apply candidate_loop_no_flips in Hin.
Qed.

Lemma Action_Throw st w start_index end_index t :
  Action st w start_index end_index = (Throw, t) ->
  exists i, in_range start_index end_index i /\
    ((length (localization_frame st) <= i)%nat \/
     (length (planner_frame st (frame_of_selector (frame_selector st))) <= i)%nat).
Proof.
  unfold Action. intros H.
  destruct (handle_unregistered_same_frames st w start_index)
    as [(Hf & _ & _ & Hlen) _].
  apply vehicle_loop_Throw in H as (i & Hi & Hout).
  exists i. split; [now apply in_range_seq |]. now rewrite <- Hf, <- Hlen.
Qed.

End Vehicles.

(** ** Exceptions, search radius and null handles in [Action] *)

Section ActionClaims.
Context `{C : Collaborators}.
Local Open Scope R_scope.

Lemma snd_bind {A B : Type} (c : Run A) (k : A -> Run B) e :
  In e (snd (bind c k)) ->
  In e (snd c) \/ exists a, fst c = Ok a /\ In e (snd (k a)).
Proof.
  unfold bind. destruct c as [[a | |] t]; cbn [fst snd]; auto.
  intros H. apply in_app_or in H as [H | H]; eauto.
Qed.

Lemma vehicle_step_negotiations f st i a b :
  In (EvNegotiate a b) (snd (vehicle_step f st i)) ->
  DistanceSquared (GetLocation a) (GetLocation b)
    <= SEARCH_RADIUS * SEARCH_RADIUS.
Proof.
  rewrite vehicle_step_unfold.
  destruct (localization_frame st !! i) as [data |]; [| intros []].
  cbn zeta.
  pose proof (candidate_loop_negotiations
                (set_vicinity_grid st (fst (GetActors (vicinity_grid st) (actor data))))
                (actor data) (snd (GetActors (vicinity_grid st) (actor data)))
                false) as [Hneg _].
  destruct (candidate_loop _ _ _ _) as [[h | |] t0]; cbn [fst snd] in *;
    try (intros Hin; now destruct (Hneg _ _ Hin) as [-> ?]).
  destruct (planner_frame st f !! i); cbn [snd]; intros Hin;
    [apply in_app_or in Hin as [Hin | [[=] | []]] |];
    now destruct (Hneg _ _ Hin) as [-> ?].
Qed.

Lemma vehicle_loop_negotiations f indices :
  forall st a b,
    In (EvNegotiate a b) (snd (vehicle_loop f st indices)) ->
    DistanceSquared (GetLocation a) (GetLocation b)
      <= SEARCH_RADIUS * SEARCH_RADIUS.
Proof.
  induction indices as [| i rest IH]; intros st a b; [intros [] |].
  rewrite vehicle_loop_cons. intros H.
  apply snd_bind in H as [H | (st1 & _ & H)].
  - eapply vehicle_step_negotiations; eauto.
  - eapply IH; eauto.
Qed.

(** C8: [NegotiateCollision] is invoked only for a candidate whose squared
    planar distance to the vehicle is at most 20 * 20; a candidate farther
    away is skipped without a call and without a hazard, and a hazard found
    by the candidate loop comes from a negotiation with an actor inside the
    radius. *)
Theorem C8_negotiation_within_search_radius :
  DistanceSquared_covers_plane ->
  forall (st : CollisionStage) (ego_actor : ActorHandle),
    (forall w start_index end_index a b,
       In (EvNegotiate a b) (snd (Action st w start_index end_index)) ->
       planar_distance_squared (GetLocation a) (GetLocation b) <= 20 * 20) /\
    (forall actor_id b h,
       resolve_actor st actor_id = Ok (Some b) ->
       planar_distance_squared (GetLocation ego_actor) (GetLocation b) > 20 * 20 ->
       check_candidate st ego_actor actor_id h = (Ok h, [])) /\
    (forall actor_id_list,
       fst (candidate_loop st ego_actor actor_id_list false) = Ok true ->
       exists b,
         In (EvNegotiate ego_actor b)
            (snd (candidate_loop st ego_actor actor_id_list false)) /\
         NegotiateCollision st ego_actor b = Ok true /\
         planar_distance_squared (GetLocation ego_actor) (GetLocation b)
           <= 20 * 20).
Proof.
  intros Hplane st ego_actor. split; [| split].
  - intros w start_index end_index a b Hin. unfold Action in Hin.
    apply vehicle_loop_negotiations in Hin.
    pose proof (Hplane (GetLocation a) (GetLocation b)).
    unfold SEARCH_RADIUS in Hin. lra.
  - intros actor_id b h Hres Hfar. eapply check_candidate_far; eauto.
    pose proof (Hplane (GetLocation ego_actor) (GetLocation b)).
    unfold SEARCH_RADIUS. lra.
  - intros ids H.
    destruct (candidate_loop_negotiations st ego_actor ids false) as [Hneg Hhaz].
    destruct (Hhaz H) as [[=] | (b & Hin & Hb)].
    exists b. split; [exact Hin |]. split; [exact Hb |].
    destruct (Hneg _ _ Hin) as [_ Hle].
    pose proof (Hplane (GetLocation ego_actor) (GetLocation b)).
    unfold SEARCH_RADIUS in Hle. lra.
Qed.

End ActionClaims.

(** ** The frame selector *)

Section Selector.
Context `{C : Collaborators}.

(** An event of the dispatch phase: a candidate event or a hazard flag
    written to the array [f]. *)
Lemma vehicle_step_events f st i e :
  In e (snd (vehicle_step f st i)) ->
  is_candidate_event e \/ exists j h, e = EvWriteHazard f j h.
Proof.
  rewrite vehicle_step_unfold.
  destruct (localization_frame st !! i) as [data |]; [| intros []].
  cbn zeta.
  pose proof (candidate_loop_events
                (set_vicinity_grid st (fst (GetActors (vicinity_grid st) (actor data))))
                (actor data) (snd (GetActors (vicinity_grid st) (actor data)))
                false e) as Hev.
  destruct (candidate_loop _ _ _ _) as [[h | |] t0]; cbn [fst snd] in *; auto.
  destruct (planner_frame st f !! i); cbn [snd]; auto.
  intros Hin. apply in_app_or in Hin as [Hin | [<- | []]]; eauto.
Qed.

Lemma vehicle_loop_events f indices :
  forall st e,
    In e (snd (vehicle_loop f st indices)) ->
    is_candidate_event e \/ exists j h, e = EvWriteHazard f j h.
Proof.
  induction indices as [| i rest IH]; intros st e; [intros [] |].
  rewrite vehicle_loop_cons. intros H.
  apply snd_bind in H as [H | (st1 & _ & H)].
  - eapply vehicle_step_events; eauto.
  - eapply IH; eauto.
Qed.

Lemma dispatch_cons st w range rest :
  dispatch st w (range :: rest)
  = bind (Action st w (fst range) (snd range))
         (fun st' => dispatch st' w rest).
Proof. reflexivity. Qed.

(** The dispatch phase keeps the selector and writes to the selected array
    only. *)
Lemma dispatch_Ok w partition :
  forall st st' t,
    dispatch st w partition = (Ok st', t) ->
    same_frames st st' /\
    forall e, In e t ->
      is_candidate_event e \/
      exists j h, e = EvWriteHazard (frame_of_selector (frame_selector st)) j h.
Proof.
  induction partition as [| range rest IH]; intros st st' t.
  - intros [= <- <-]. split; [apply same_frames_refl | intros e []].
  - rewrite dispatch_cons. intros H.
    apply bind_Ok_inv in H as (st1 & t1 & t2 & Hact & Hrest & ->).
    pose proof (Action_Ok _ _ _ _ _ _ Hact) as (Hsame1 & _).
    apply IH in Hrest as (Hsame2 & Hev2).
    split; [eapply same_frames_trans; eauto |].
    intros e Hin. apply in_app_or in Hin as [Hin | Hin].
    + unfold Action in Hact. change t1 with (snd (Ok st1, t1)) in Hin.
      rewrite <- Hact in Hin. now apply vehicle_loop_events in Hin.
    + destruct Hsame1 as (_ & Hsel & _). rewrite <- Hsel. now apply Hev2.
Qed.

Lemma DataSender_run st :
  DataSender st
  = (Ok (mkStage (localization_frame st) (localization_messenger_state st)
           (planner_frame_a st) (planner_frame_b st)
           (negb (frame_selector st))
           (SendData (planner_messenger_state st)
                     (frame_of_selector (frame_selector st)))
           (id_to_index st) (unregistered_actors st) (vicinity_grid st)
           (last_world_actors_pass_instance st)),
     [EvFlipSelector;
      EvSendData (planner_messenger_state st)
                 (frame_of_selector (frame_selector st))]).
Proof. reflexivity. Qed.

Lemma frame_of_selector_negb b :
  frame_of_selector (negb b) <> frame_of_selector b.
Proof. destruct b; discriminate. Qed.

(** What a completed tick did. *)
Lemma tick_Ok st input st' t :
  tick st input = (Ok st', t) ->
  let f := frame_of_selector (frame_selector st) in
  (exists writes,
     t = writes ++ [EvFlipSelector; EvSendData (planner_messenger_state st) f] /\
     ~ In EvFlipSelector writes /\
     (forall id g, ~ In (EvSendData id g) writes) /\
     (forall g j h, In (EvWriteHazard g j h) writes -> g = f)) /\
  frame_selector st' = negb (frame_selector st).
Proof.
  intros H f. unfold tick in H.
  apply bind_Ok_inv in H as (st2 & t1 & t2 & Hdisp & Hsend & ->).
  apply dispatch_Ok in Hdisp as ((_ & Hsel & Hstate & _) & Hev).
  cbn [DataReceiver frame_selector planner_messenger_state] in Hsel, Hstate, Hev.
  rewrite DataSender_run in Hsend. injection Hsend as <- <-.
  rewrite Hsel, Hstate. fold f. split; [| reflexivity].
  exists t1. split; [reflexivity |].
  split; [| split].
  - intros Hin. destruct (Hev _ Hin) as [[] | (j & h & [=])].
  - intros id g Hin. destruct (Hev _ Hin) as [[] | (j & h & [=])].
  - intros g j h Hin. destruct (Hev _ Hin) as [[] | (j' & h' & [= -> _ _])].
    reflexivity.
Qed.

(** C6 (amended): [DataSender] flips the selector exactly once, after the
    packet has taken the array selected for the tick and before [SendData]
    hands the packet over; [Action] and [DataReceiver] never flip it, and
    [Action] writes hazard flags to the selected array only.  Hence, in a
    completed tick, every hazard flag is written to the selected array
    before the single flip; the array handed over at tick k is the array
    written at tick k, the next tick writes to the other array, and the tick
    after that writes to the same array again. *)
Theorem C6_selector_flips_once_per_tick :
  forall st : CollisionStage,
    let f := frame_of_selector (frame_selector st) in
    (snd (DataSender st)
     = [EvFlipSelector; EvSendData (planner_messenger_state st) f] /\
     exists st', fst (DataSender st) = Ok st' /\
                 frame_selector st' = negb (frame_selector st) /\
                 frame_of_selector (frame_selector st') <> f) /\
    (forall w start_index end_index st' t,
       Action st w start_index end_index = (Ok st', t) ->
       frame_selector st' = frame_selector st /\
       ~ In EvFlipSelector t /\
       (forall g j h, In (EvWriteHazard g j h) t -> g = f)) /\
    (forall id data,
       frame_selector (DataReceiver st id data) = frame_selector st) /\
    (forall input st' t,
       tick st input = (Ok st', t) ->
       (exists writes,
          t = writes
              ++ [EvFlipSelector; EvSendData (planner_messenger_state st) f] /\
          ~ In EvFlipSelector writes /\
          (forall id g, ~ In (EvSendData id g) writes) /\
          (forall g j h, In (EvWriteHazard g j h) writes -> g = f)) /\
       frame_of_selector (frame_selector st') <> f /\
       (forall input' st'' t',
          tick st' input' = (Ok st'', t') ->
          frame_of_selector (frame_selector st'') = f)).
Proof.
  intros st f. split; [| split; [| split]].
  - split; [reflexivity |]. eexists. split; [reflexivity |].
    split; [reflexivity | apply frame_of_selector_negb].
  - intros w start_index end_index st' t H.
    apply Action_Ok in H as ((_ & Hsel & _) & _ & _ & Hwrites & Hflips).
    split; [exact Hsel |]. split; [exact Hflips |].
    intros g j h Hin. now destruct (Hwrites _ _ _ Hin).
  - reflexivity.
  - intros input st' t H.
    apply tick_Ok in H as (Htrace & Hflip).
    split; [exact Htrace |]. split.
    + rewrite Hflip. apply frame_of_selector_negb.
    + intros input' st'' t' H'. apply tick_Ok in H' as (_ & Hflip').
      unfold f. rewrite Hflip', Hflip. now destruct (frame_selector st).
Qed.

End Selector.

(** ** The stage on the example data *)

Lemma scan_world_idle `{C : Collaborators} (st : CollisionStage) (w : World) :
  (now w - last_world_actors_pass_instance st <= 0.5)%R ->
  scan_world st w = st.
Proof.
  intros H. unfold scan_world.
  destruct (Rgt_dec _ _) as [Hgt | _]; [lra | reflexivity].
Qed.

Lemma Box_covers_plane :
  DistanceSquared_covers_plane (C := Box.collaborators).
Proof.
  intros a b. cbn [DistanceSquared Box.collaborators].
  unfold planar_distance_squared, Box.euclid_squared.
  pose proof (Rle_0_sqr (cg.z b - cg.z a)) as Hz. unfold Rsqr in Hz. lra.
Qed.

Lemma stale_index_Action :
  exists st',
    Action Scenario.stale_index Scenario.quiet_world 0 0
    = (Ok st', [EvLogWarning; EvLogInfo; EvWriteHazard FrameA 0 false]).
Proof.
  unfold Action, handle_unregistered. cbn [Nat.eqb].
  rewrite scan_world_idle by (cbn; lra).
  eexists. reflexivity.
Qed.

Lemma stalled_first_vehicle :
  vehicle_step FrameA (refresh_unregistered Cases.stalled) 0
  = (Ok Cases.stalled_at_1, [EvWriteHazard FrameA 0 false]).
Proof. reflexivity. Qed.

Lemma stalled_geodesic :
  GetGeodesicBoundary Cases.stalled (Scenario.car 2 5 0 0 0) = Undef.
Proof.
  apply GetGeodesicBoundary_empty_buffer
    with (index := 1%nat)
         (data := mkLocalization (Scenario.car 2 5 0 0 0) []);
    reflexivity.
Qed.

Lemma stalled_second_vehicle :
  vehicle_step FrameA Cases.stalled_at_1 1
  = (Undef, [EvNegotiate (Scenario.car 2 5 0 0 0) (Scenario.car 1 0 0 0 0)]).
Proof.
  assert (Hcheck :
            check_candidate
              (set_vicinity_grid Cases.stalled_at_1
                 [Scenario.car 1 0 0 0 0; Scenario.car 2 5 0 0 0])
              (Scenario.car 2 5 0 0 0) 1%nat false
            = (Undef, [EvNegotiate (Scenario.car 2 5 0 0 0)
                         (Scenario.car 1 0 0 0 0)])).
  { unfold check_candidate.
    change (negb (1 =? GetId (Scenario.car 2 5 0 0 0))%nat) with true.
    cbv iota.
    change (resolve_actor _ 1%nat) with (Ok (Some (Scenario.car 1 0 0 0 0))).
    rewrite bind_lift_Ok.
    destruct (Rle_dec _ _) as [_ | Hfar].
    - rewrite bind_emit.
      assert (Hn : NegotiateCollision
                     (set_vicinity_grid Cases.stalled_at_1
                        [Scenario.car 1 0 0 0 0; Scenario.car 2 5 0 0 0])
                     (Scenario.car 2 5 0 0 0) (Scenario.car 1 0 0 0 0)
                   = Undef).
      { unfold NegotiateCollision.
        destruct (Rlt_dec _ _) as [_ | H];
          [| exfalso; apply H; cbn; rewrite Rminus_diag, Rabs_R0;
             unfold VERTICAL_OVERLAP_THRESHOLD; lra].
        change (GetGeodesicBoundary _ (Scenario.car 2 5 0 0 0))
          with (GetGeodesicBoundary Cases.stalled (Scenario.car 2 5 0 0 0)).
        now rewrite stalled_geodesic. }
      rewrite Hn, bind_lift_Undef. reflexivity.
    - exfalso. apply Hfar. cbn. unfold Box.euclid_squared, SEARCH_RADIUS.
      cbn. lra. }
  rewrite vehicle_step_unfold.
  change (localization_frame Cases.stalled_at_1 !! 1%nat)
    with (Some (mkLocalization (Scenario.car 2 5 0 0 0) [])).
  cbv iota zeta.
  change (GetActors (vicinity_grid Cases.stalled_at_1)
            (actor (mkLocalization (Scenario.car 2 5 0 0 0) [])))
    with ([Scenario.car 1 0 0 0 0; Scenario.car 2 5 0 0 0], [1; 2]%nat).
  cbn [fst snd actor].
  rewrite (candidate_loop_cons_undef _ _ _ _ _ Hcheck). reflexivity.
Qed.

(** C4 (the code at the failing input): an actor that is not a key of the
    identity-to-index map gets the 4-corner static boundary; a registered
    vehicle whose path buffer is empty gets no boundary at all: the
    function takes the front of the empty buffer.  The stage [stalled] is
    what the constructor and one [DataReceiver] give for a frame whose
    second vehicle has an empty buffer; [Action] on it writes the flag of
    the first vehicle, negotiates for the second and does not complete. *)
Theorem C4_empty_buffer_front_undefined :
  (forall (C : Collaborators) (st : CollisionStage) (a : ActorHandle),
     (id_to_index st !! GetId a = None ->
      GetGeodesicBoundary st a = Ok (GetBoundary a) /\
      length (GetBoundary a) = 4%nat) /\
     (forall index data,
        id_to_index st !! GetId a = Some index ->
        localization_frame st !! index = Some data ->
        buffer data = [] ->
        GetGeodesicBoundary st a = Undef /\
        GetGeodesicBoundary st a <> Ok (GetBoundary a))) /\
  Cases.stalled
  = DataReceiver (init (C := Box.collaborators) 2 0 1 [] 0) 1
      [mkLocalization (Scenario.car 1 0 0 0 0) Scenario.path;
       mkLocalization (Scenario.car 2 5 0 0 0) []] /\
  GetGeodesicBoundary Cases.stalled (Scenario.car 2 5 0 0 0) = Undef /\
  Action Cases.stalled Scenario.quiet_world 0 1
  = (Undef,
     [EvWriteHazard FrameA 0 false;
      EvNegotiate (Scenario.car 2 5 0 0 0) (Scenario.car 1 0 0 0 0)]).
Proof.
  split; [| split; [reflexivity | split; [exact stalled_geodesic |]]].
  - intros C st a. split.
    + intros H. split; [now apply GetGeodesicBoundary_unregistered |].
      reflexivity.
    + intros index data Hid Hframe Hbuf.
      rewrite (GetGeodesicBoundary_empty_buffer st a index data Hid Hframe
                 Hbuf).
      split; [reflexivity | discriminate].
  - unfold Action, handle_unregistered. cbn [Nat.eqb].
    rewrite scan_world_idle by (cbn; lra).
    change (seq 0 (2 - 0)) with [0; 1]%nat.
    change (frame_of_selector (frame_selector Cases.stalled)) with FrameA.
    rewrite vehicle_loop_cons, stalled_first_vehicle.
    unfold bind at 1. cbn [fst snd].
    rewrite vehicle_loop_cons, stalled_second_vehicle. reflexivity.
Qed.

Lemma lone_tick (st : CollisionStage (C := Box.collaborators)) (id : Z) :
  (now Scenario.quiet_world - last_world_actors_pass_instance st <= 0.5)%R ->
  tick st (Scenario.lone_input id)
  = bind (bind (vehicle_loop (frame_of_selector (frame_selector st))
                  (refresh_unregistered
                     (DataReceiver st id (packet_data (Scenario.lone_input id))))
                  [0%nat])
               ret)
         DataSender.
Proof.
  intros Hidle. unfold tick, Scenario.lone_input.
  cbn [packet_id packet_data world ranges dispatch fst snd].
  unfold Action, handle_unregistered. cbn [Nat.eqb].
  rewrite scan_world_idle by exact Hidle.
  reflexivity.
Qed.

Lemma three_ticks :
  tick (Scenario.fresh 1) (Scenario.lone_input 1)
  = (Ok Scenario.after_first_tick, Scenario.first_trace) /\
  tick Scenario.after_first_tick (Scenario.lone_input 2)
  = (Ok Scenario.after_second_tick, Scenario.second_trace) /\
  snd (tick Scenario.after_second_tick (Scenario.lone_input 3))
  = Scenario.third_trace.
Proof.
  split; [| split]; rewrite lone_tick by (cbn; lra); reflexivity.
Qed.

(** C6 (as stated, refuted): in the first tick of a stage with one vehicle
    the selector is flipped before the packet is handed over, and the array
    handed over is the array that tick has written; it is also the array
    that the third tick writes. *)
Lemma C6_handoff_counterexample :
  tick (Scenario.fresh 1) (Scenario.lone_input 1)
  = (Ok Scenario.after_first_tick, Scenario.first_trace) /\
  tick Scenario.after_first_tick (Scenario.lone_input 2)
  = (Ok Scenario.after_second_tick, Scenario.second_trace) /\
  snd (tick Scenario.after_second_tick (Scenario.lone_input 3))
  = Scenario.third_trace /\
  ~ flip_follows_handoff Scenario.first_trace /\
  ~ exposed_never_written Scenario.first_trace Scenario.second_trace /\
  ~ exposed_never_written Scenario.first_trace Scenario.third_trace.
Proof.
  destruct three_ticks as (H1 & H2 & H3).
  split; [exact H1 |]. split; [exact H2 |]. split; [exact H3 |].
  split; [| split].
  - intros H. specialize (H 1%nat 2%nat 0%Z FrameA eq_refl eq_refl). lia.
  - intros H.
    destruct (H 0%Z FrameA 0%nat false) as [Hk _].
    + right. right. now left.
    + apply Hk. now left.
  - intros H.
    destruct (H 0%Z FrameA 0%nat false) as [_ Hk].
    + right. right. now left.
    + apply Hk. now left.
Qed.

Lemma C6_witness :
  frame_of_selector (frame_selector Scenario.after_first_tick) <> FrameA /\
  forall input' st'' t',
    tick Scenario.after_first_tick input' = (Ok st'', t') ->
    frame_of_selector (frame_selector st'') = FrameA.
Proof.
  destruct three_ticks as (H1 & _).
  destruct (C6_selector_flips_once_per_tick (Scenario.fresh 1))
    as (_ & _ & _ & Htick).
  apply (Htick _ _ _ H1).
Defined.

Lemma C8_witness :
  check_candidate Scenario.two_far (Scenario.car 1 0 0 0 0) 2%nat false
  = (Ok false, []).
Proof.
  apply (C8_negotiation_within_search_radius Box_covers_plane
           Scenario.two_far (Scenario.car 1 0 0 0 0))
    with (b := Scenario.car 2 30 0 0 0).
  - reflexivity.
  - unfold planar_distance_squared. cbn. lra.
Defined.

(** ** A follower and a parked car

    Vehicle 1 stands at the origin with a path along the x axis; the parked
    car 2 is not managed and stands 4.5 units ahead.  The geodesic boundary
    of vehicle 1 reaches the parked car, so vehicle 1 is the one flagged. *)

Section FollowerExample.
Local Open Scope R_scope.

Lemma Length_zero : cg.Length (cg.mkVector3D 0 0 0) = 0.
Proof.
  unfold cg.Length. cbn.
  replace (0 * 0 + 0 * 0 + 0 * 0) with 0 by lra. apply sqrt_0.
Qed.

(** A standing vehicle looks 4.5 units ahead. *)
Lemma bbox_extension_0 : bbox_extension 0 = 4.5.
Proof.
  unfold bbox_extension.
  destruct (Rgt_dec _ _) as [H | _]; [unfold HIGHWAY_SPEED in H; lra |].
  unfold additive_extension, EXTENSION_SQUARE_POINT, TIME_HORIZON,
    BOUNDARY_EXTENSION_MINIMUM.
  replace (7 * 0) with 0 by lra. rewrite sqrt_0.
  unfold std_max. repeat (destruct (Rlt_dec _ _); try lra).
Qed.

Lemma unit_left :
  cg.MakeUnitVector (cg.mkVector3D (- 0) 1 0) = cg.mkVector3D 0 1 0.
Proof.
  unfold cg.MakeUnitVector, cg.Length, cg.scale. cbn.
  replace (- 0 * - 0 + 1 * 1 + 0 * 0) with 1 by lra. rewrite sqrt_1.
  f_equal; lra.
Qed.

(** The two ways a turn of the corridor loop goes. *)
Lemma boundary_loop_in `{C : Collaborators} w e s en next rest l r :
  wp_DistanceSquared s en < e * e ->
  boundary_loop w e s en (next :: rest) l r
  = boundary_loop w e s next rest
      (l ++ [cg.add (wp_location en)
               (cg.scale w
                  (cg.MakeUnitVector
                     (cg.mkVector3D (- cg.y (wp_forward en))
                        (cg.x (wp_forward en)) 0)))])
      (r ++ [cg.add (wp_location en)
               (cg.scale (-1)
                  (cg.scale w
                     (cg.MakeUnitVector
                        (cg.mkVector3D (- cg.y (wp_forward en))
                           (cg.x (wp_forward en)) 0))))]).
Proof.
  intros H. cbn [boundary_loop].
  destruct (Rlt_dec _ _); [reflexivity | contradiction].
Qed.

Lemma boundary_loop_out `{C : Collaborators} w e s en next rest l r :
  ~ wp_DistanceSquared s en < e * e ->
  boundary_loop w e s en (next :: rest) l r = (l, r).
Proof.
  intros H. cbn [boundary_loop].
  destruct (Rlt_dec _ _); [contradiction | reflexivity].
Qed.

Lemma GetBoundary_follower :
  GetBoundary (Scenario.car 1%nat 0 0 0 0)
  = map Scenario.ground [(2, -1); (-2, -1); (-2, 1); (2, 1)].
Proof.
  unfold GetBoundary. cbn [map].
  repeat (apply (f_equal2 cons); [vec |]). reflexivity.
Qed.

Lemma GetBoundary_parked :
  GetBoundary (Scenario.car 2%nat 4.5 0 0 0) = Scenario.parked.
Proof.
  unfold GetBoundary, Scenario.parked. cbn [map].
  repeat (apply (f_equal2 cons); [vec |]). reflexivity.
Qed.

(** The corridor: the loop uses the front waypoint twice, then the waypoint
    at 3, and stops at the waypoint at 6, which is farther than 4.5. *)
Lemma GetGeodesicBoundary_follower :
  GetGeodesicBoundary Scenario.follower (Scenario.car 1%nat 0 0 0 0)
  = Ok Scenario.corridor.
Proof.
  unfold GetGeodesicBoundary.
  replace (id_to_index Scenario.follower !! GetId (Scenario.car 1%nat 0 0 0 0))
    with (Some 0%nat) by reflexivity.
  replace (at_ (localization_frame Scenario.follower) 0%nat)
    with (Ok (mkLocalization (Scenario.car 1%nat 0 0 0 0) Scenario.path))
    by reflexivity.
  cbn [res_bind buffer]. unfold Scenario.path.
  change (GetVelocity (Scenario.car 1%nat 0 0 0 0)) with (cg.mkVector3D 0 0 0).
  rewrite Length_zero, bbox_extension_0, GetBoundary_follower.
  do 3 rewrite boundary_loop_in
    by (unfold wp_DistanceSquared; cbn; unfold Box.euclid_squared; cbn; lra).
  rewrite boundary_loop_out
    by (unfold wp_DistanceSquared; cbn; unfold Box.euclid_squared; cbn; lra).
  cbn [Scenario.waypoint wp_forward wp_location cg.x cg.y].
  rewrite unit_left.
  cbn [app rev map]. unfold Scenario.corridor. cbn [map]. f_equal.
  repeat (apply (f_equal2 cons); [vec |]). reflexivity.
Qed.

Lemma GetGeodesicBoundary_parked :
  GetGeodesicBoundary Scenario.follower (Scenario.car 2%nat 4.5 0 0 0)
  = Ok Scenario.parked.
Proof.
  unfold GetGeodesicBoundary.
  replace (id_to_index Scenario.follower !! GetId (Scenario.car 2%nat 4.5 0 0 0))
    with (@None nat) by reflexivity.
  now rewrite GetBoundary_parked.
Qed.

(** The follower is 0.5 away from the parked car, whose own boundary touches
    the corridor: the follower is flagged, the parked car is not. *)
Lemma follower_yields :
  NegotiateCollision Scenario.follower
    (Scenario.car 1%nat 0 0 0 0) (Scenario.car 2%nat 4.5 0 0 0) = Ok true /\
  NegotiateCollision Scenario.follower
    (Scenario.car 2%nat 4.5 0 0 0) (Scenario.car 1%nat 0 0 0 0) = Ok false.
Proof.
  split.
  - unfold NegotiateCollision.
    destruct (Rlt_dec _ _) as [_ | H];
      [| exfalso; apply H; cbn; rewrite Rminus_diag, Rabs_R0;
         unfold VERTICAL_OVERLAP_THRESHOLD; lra].
    rewrite GetGeodesicBoundary_follower, GetGeodesicBoundary_parked,
      GetBoundary_follower, GetBoundary_parked.
    cbn [res_bind]. unfold CheckOverlap, Scenario.corridor, Scenario.parked.
    cbn [length map Nat.ltb Nat.leb andb].
    boxes. eval_minmax.
    repeat (destruct (Rlt_dec _ _) as [? | ?]; [| exfalso; lra]).
    cbn [overlap_loop]. boxes. eval_minmax.
    unfold ZERO_AREA.
    repeat (destruct (Rgt_dec _ _) as [? | ?]; [| exfalso; lra]).
    reflexivity.
  - unfold NegotiateCollision.
    destruct (Rlt_dec _ _) as [_ | H];
      [| exfalso; apply H; cbn; rewrite Rminus_diag, Rabs_R0;
         unfold VERTICAL_OVERLAP_THRESHOLD; lra].
    rewrite GetGeodesicBoundary_follower, GetGeodesicBoundary_parked,
      GetBoundary_follower, GetBoundary_parked.
    cbn [res_bind]. unfold CheckOverlap, Scenario.corridor, Scenario.parked.
    cbn [length map Nat.ltb Nat.leb andb].
    boxes. eval_minmax.
    repeat (destruct (Rlt_dec _ _) as [? | ?]; [| exfalso; lra]).
    cbn [overlap_loop]. boxes. eval_minmax.
    unfold ZERO_AREA.
    destruct (Rgt_dec _ _) as [? | ?]; [| exfalso; lra].
    destruct (Rgt_dec _ _) as [? | ?]; [exfalso; lra |].
    reflexivity.
Qed.

End FollowerExample.

(** * Further properties *)

(** ** Actors that the traffic manager did not spawn (lines 53-83) *)

Section Unregistered.
Context `{C : Collaborators}.

(** One world actor: the table changes only at its identity, and only when
    neither table has it. *)
Lemma note_world_actor_lookup st (table : gmap ActorId ActorHandle) a id :
  note_world_actor st table a !! id
  = match table !! id with
    | Some b => Some b
    | None =>
        if decide (GetId a = id)
        then match id_to_index st !! id with
             | Some _ => None
             | None => Some a
             end
        else None
    end.
Proof.
  unfold note_world_actor.
  destruct (decide (GetId a = id)) as [<- | Hne].
  - destruct (id_to_index st !! GetId a) eqn:Er,
             (table !! GetId a) eqn:Et;
      rewrite ?Et, ?lookup_insert_eq; reflexivity.
  - destruct (id_to_index st !! GetId a), (table !! GetId a);
      rewrite ?lookup_insert_ne by exact Hne; now destruct (table !! id).
Qed.

(** The whole list of world actors. *)
Lemma note_world_actors_lookup st actors :
  forall (table : gmap ActorId ActorHandle) id,
    (forall b, table !! id = Some b ->
       foldl (note_world_actor st) table actors !! id = Some b) /\
    (table !! id = None -> is_Some (id_to_index st !! id) ->
       foldl (note_world_actor st) table actors !! id = None) /\
    (forall b, foldl (note_world_actor st) table actors !! id = Some b ->
       table !! id = Some b \/
       (table !! id = None /\ id_to_index st !! id = None /\
        b ∈ actors /\ GetId b = id)) /\
    (forall a, a ∈ actors -> GetId a = id ->
       is_Some (id_to_index st !! id) \/
       is_Some (foldl (note_world_actor st) table actors !! id)).
Proof.
  induction actors as [| a actors IH]; intros table id; cbn [foldl].
  - split; [auto |]. split; [auto |]. split; [auto |].
    intros a Ha. now apply elem_of_nil in Ha.
  - destruct (IH (note_world_actor st table a) id) as (IH1 & IH2 & IH3 & IH4).
    pose proof (note_world_actor_lookup st table a id) as Hstep.
    split; [| split; [| split]].
    + intros b Hb. apply IH1. now rewrite Hstep, Hb.
    + intros Hnone [i Hi]. apply IH2; [| eauto].
      rewrite Hstep, Hnone, Hi. now destruct (decide (GetId a = id)).
    + intros b Hb. apply IH3 in Hb as [Hb | (Hnone & Hreg & Hin & Hid)].
      * rewrite Hstep in Hb.
        destruct (table !! id) as [b' |] eqn:E; [now left |].
        destruct (decide (GetId a = id)) as [Ha | _]; [| discriminate].
        destruct (id_to_index st !! id) eqn:Er; [discriminate |].
        injection Hb as <-. right. repeat split; auto. apply elem_of_cons; auto.
      * rewrite Hstep in Hnone.
        destruct (table !! id) as [b' |] eqn:E; [discriminate |].
        right. repeat split; auto. apply elem_of_cons; auto.
    + intros a' Hin Hid. apply elem_of_cons in Hin as [-> | Hin]; [| eauto].
      destruct (id_to_index st !! id) as [i |] eqn:Er; [left; eauto |].
      right.
      destruct (table !! id) as [b |] eqn:E.
      * exists b. apply IH1. exact Hstep.
      * exists a. apply IH1. rewrite Hstep.
        now destruct (decide (GetId a = id)).
Qed.

(** X1: when more than 0.5 s have passed, the scan of the world keeps every
    entry of the table of unregistered actors, never adds an identity that
    is registered, leaves every listed vehicle either registered or in the
    table, adds only listed vehicles under their own identity, and sets the
    clock to the current time; otherwise it changes nothing. *)
Theorem X1_scan_world_registers_unknown_vehicles :
  forall (st : CollisionStage) (w : World),
    ((now w - last_world_actors_pass_instance st > 0.5)%R ->
     let st' := scan_world st w in
     (forall id a, unregistered_actors st !! id = Some a ->
        unregistered_actors st' !! id = Some a) /\
     (forall id, is_Some (id_to_index st !! id) ->
        unregistered_actors st !! id = None ->
        unregistered_actors st' !! id = None) /\
     (forall a, a ∈ world_actors w ->
        is_Some (id_to_index st !! GetId a) \/
        is_Some (unregistered_actors st' !! GetId a)) /\
     (forall id a, unregistered_actors st' !! id = Some a ->
        unregistered_actors st !! id = Some a \/
        (a ∈ world_actors w /\ GetId a = id /\ id_to_index st !! id = None)) /\
     (keyed_by_id (unregistered_actors st) ->
      keyed_by_id (unregistered_actors st')) /\
     last_world_actors_pass_instance st' = now w /\
     id_to_index st' = id_to_index st /\
     vicinity_grid st' = vicinity_grid st) /\
    ((now w - last_world_actors_pass_instance st <= 0.5)%R ->
     scan_world st w = st).
Proof.
  intros st w. split.
  - intros Hdue st'. subst st'. unfold scan_world.
    destruct (Rgt_dec _ _) as [_ | Hn]; [| contradiction].
    cbn [set_unregistered unregistered_actors last_world_actors_pass_instance
         id_to_index vicinity_grid].
    split; [| split; [| split; [| split; [| split]]]].
    + intros id a Ha.
      now apply (note_world_actors_lookup st (world_actors w)
                   (unregistered_actors st) id).
    + intros id Hreg Hnone.
      now apply (note_world_actors_lookup st (world_actors w)
                   (unregistered_actors st) id).
    + intros a Ha.
      now apply (note_world_actors_lookup st (world_actors w)
                   (unregistered_actors st) (GetId a)) with (a := a).
    + intros id a Ha.
      apply (note_world_actors_lookup st (world_actors w)
               (unregistered_actors st) id) in Ha
        as [Ha | (_ & Hreg & Hin & Hid)]; auto.
    + intros Hkeyed id a Ha.
      apply (note_world_actors_lookup st (world_actors w)
               (unregistered_actors st) id) in Ha
        as [Ha | (_ & _ & _ & Hid)]; eauto.
    + auto.
  - intros Hidle. unfold scan_world.
    destruct (Rgt_dec _ _) as [Hgt | _]; [lra | reflexivity].
Qed.

(** The identities collected for erasure: those of the entries that are
    not alive, after the ones collected before. *)
Lemma refresh_step_erased (l : list (ActorId * ActorHandle)) :
  forall acc,
    snd (foldl refresh_step acc l)
    = snd acc ++ map fst (List.filter (fun e => negb (IsAlive (snd e))) l).
Proof.
  induction l as [| e l IH]; intros acc; cbn [foldl List.filter map].
  - now rewrite app_nil_r.
  - rewrite IH. unfold refresh_step.
    destruct (IsAlive (snd e)); cbn [negb snd map]; [reflexivity |].
    now rewrite <- app_assoc.
Qed.

Lemma erase_all_lookup (ids : list ActorId) :
  forall (table : gmap ActorId ActorHandle) id,
    foldl (fun t actor_id => delete actor_id t) table ids !! id
    = if decide (id ∈ ids) then None else table !! id.
Proof.
  induction ids as [| i ids IH]; intros table id; cbn [foldl].
  - destruct (decide (id ∈ [])) as [H | _]; [| reflexivity].
    now apply elem_of_nil in H.
  - rewrite IH.
    destruct (decide (id ∈ ids)) as [Hin | Hnin].
    + destruct (decide (id ∈ i :: ids)) as [_ | Hn]; [reflexivity |].
      exfalso. apply Hn. apply elem_of_cons. auto.
    + destruct (decide (id = i)) as [-> | Hne].
      * rewrite lookup_delete_eq.
        destruct (decide (i ∈ i :: ids)) as [_ | Hn]; [reflexivity |].
        exfalso. apply Hn. apply elem_of_cons. auto.
      * rewrite lookup_delete_ne by congruence.
        destruct (decide (id ∈ i :: ids)) as [Hin | _]; [| reflexivity].
        apply elem_of_cons in Hin as [? | ?]; contradiction.
Qed.

Lemma refresh_unregistered_table st :
  unregistered_actors (refresh_unregistered st)
  = foldl (fun t actor_id => delete actor_id t) (unregistered_actors st)
      (map fst (List.filter (fun e => negb (IsAlive (snd e)))
                  (map_to_list (unregistered_actors st)))).
Proof.
  unfold refresh_unregistered.
  pose proof (refresh_step_erased (map_to_list (unregistered_actors st))
                (vicinity_grid st, [])) as H.
  destruct (foldl refresh_step _ _) as [grid ids]. cbn [snd app] in H.
  cbn [set_unregistered unregistered_actors]. now rewrite H.
Qed.

Lemma refresh_unregistered_lookup st id a :
  unregistered_actors (refresh_unregistered st) !! id = Some a <->
  unregistered_actors st !! id = Some a /\ IsAlive a = true.
Proof.
  rewrite refresh_unregistered_table, erase_all_lookup.
  destruct (decide (id ∈ _)) as [Hin | Hnin].
  - split; [discriminate |]. intros [Ha Halive]. exfalso.
    apply list_elem_of_fmap in Hin as ([i b] & -> & Hin).
    apply list_elem_of_In, filter_In in Hin as [Hin Hdead].
    apply list_elem_of_In, elem_of_map_to_list in Hin.
    cbn [fst snd] in *. rewrite Ha in Hin. injection Hin as <-.
    now rewrite Halive in Hdead.
  - split; [| now intros [Ha _]].
    intros Ha. split; [exact Ha |].
    destruct (IsAlive a) eqn:E; [reflexivity |]. exfalso. apply Hnin.
    apply list_elem_of_fmap. exists (id, a). split; [reflexivity |].
    apply list_elem_of_In, filter_In. split.
    + now apply list_elem_of_In, elem_of_map_to_list.
    + cbn. now rewrite E.
Qed.

(** X2: the refresh pass removes from the table of unregistered actors
    exactly the entries whose actor is not alive: an entry is in the table
    afterwards if and only if it was there before and its actor is alive.
    Nothing else of the stage but the vicinity grid changes. *)
Theorem X2_refresh_keeps_alive_entries :
  forall (st : CollisionStage) (id : ActorId) (a : ActorHandle),
    (unregistered_actors (refresh_unregistered st) !! id = Some a <->
     unregistered_actors st !! id = Some a /\ IsAlive a = true) /\
    id_to_index (refresh_unregistered st) = id_to_index st /\
    localization_frame (refresh_unregistered st) = localization_frame st /\
    last_world_actors_pass_instance (refresh_unregistered st)
    = last_world_actors_pass_instance st.
Proof.
  intros st id a. split; [apply refresh_unregistered_lookup |].
  unfold refresh_unregistered.
  destruct (foldl refresh_step _ _) as [grid ids]. auto.
Qed.

(** The grid after the pass over a list of entries with distinct keys. *)
Lemma refresh_step_grid (has : VicinityGrid -> ActorId -> Prop)
    (l : list (ActorId * ActorHandle)) :
  GridContract has ->
  NoDup (l.*1) ->
  (forall id a, (id, a) ∈ l -> GetId a = id) ->
  forall acc id,
    (forall a, (id, a) ∈ l ->
       (IsAlive a = true -> has (fst (foldl refresh_step acc l)) id) /\
       (IsAlive a = false -> ~ has (fst (foldl refresh_step acc l)) id)) /\
    (id ∉ l.*1 ->
       has (fst (foldl refresh_step acc l)) id <-> has (fst acc) id).
Proof.
  intros Hc. induction l as [| [i a] l IH]; intros Hnd Hkey acc id.
  - cbn. split; [| tauto]. intros a Ha. now apply elem_of_nil in Ha.
  - cbn [fmap list_fmap fst] in Hnd. apply NoDup_cons in Hnd as [Hi Hnd].
    assert (Hkey' : forall id a, (id, a) ∈ l -> GetId a = id).
    { intros id' a' Hin. apply Hkey. apply elem_of_cons. auto. }
    assert (Ha : GetId a = i) by (apply Hkey; apply elem_of_cons; auto).
    cbn [foldl].
    assert (Halive : IsAlive a = true ->
              fst (refresh_step acc (i, a)) = UpdateGrid (fst acc) a).
    { intros E. unfold refresh_step. cbn [fst snd]. now rewrite E. }
    assert (Hdead : IsAlive a = false ->
              fst (refresh_step acc (i, a)) = EraseActor (fst acc) i).
    { intros E. unfold refresh_step. cbn [fst snd]. now rewrite E. }
    destruct (IH Hnd Hkey' (refresh_step acc (i, a)) id) as [IH1 IH2].
    split.
    + intros x Hx. apply elem_of_cons in Hx as [[= -> ->] | Hx];
        [| now apply IH1].
      destruct (IH Hnd Hkey' (refresh_step acc (i, a)) i) as [_ IHi].
      specialize (IHi Hi).
      split; intros E.
      * apply IHi. rewrite (Halive E), <- Ha. apply (update_has has Hc).
      * intros H. apply IHi in H. rewrite (Hdead E) in H.
        now apply (erase_gone has Hc) in H.
    + intros Hnin. cbn [fmap list_fmap fst] in Hnin.
      apply not_elem_of_cons in Hnin as [Hne Hnin].
      rewrite (IH2 Hnin).
      destruct (IsAlive a) eqn:E.
      * rewrite (Halive eq_refl). apply (update_other has Hc). congruence.
      * rewrite (Hdead eq_refl). now apply (erase_other has Hc).
Qed.

Lemma refresh_unregistered_grid st :
  vicinity_grid (refresh_unregistered st)
  = fst (foldl refresh_step (vicinity_grid st, [])
           (map_to_list (unregistered_actors st))).
Proof.
  unfold refresh_unregistered.
  now destruct (foldl refresh_step _ _) as [grid ids].
Qed.

(** X3: for a vicinity grid whose [UpdateGrid] puts an actor in and whose
    [EraseActor] takes an identity out without touching other identities,
    and a table whose entries are stored under their own identity: after
    the refresh pass every unregistered actor that is alive is in the grid,
    every one that is not alive is out of the grid (and, by X2, out of the
    table), and the identities that the table does not have are in the grid
    exactly when they were before. *)
Theorem X3_refresh_keeps_grid_and_table_in_step :
  forall (has : VicinityGrid -> ActorId -> Prop) (st : CollisionStage),
    GridContract has ->
    keyed_by_id (unregistered_actors st) ->
    forall id,
      (forall a, unregistered_actors st !! id = Some a ->
         (IsAlive a = true ->
          has (vicinity_grid (refresh_unregistered st)) id /\
          unregistered_actors (refresh_unregistered st) !! id = Some a) /\
         (IsAlive a = false ->
          ~ has (vicinity_grid (refresh_unregistered st)) id /\
          unregistered_actors (refresh_unregistered st) !! id = None)) /\
      (unregistered_actors st !! id = None ->
         has (vicinity_grid (refresh_unregistered st)) id
         <-> has (vicinity_grid st) id).
Proof.
  intros has st Hc Hkeyed id.
  rewrite refresh_unregistered_grid.
  destruct (refresh_step_grid has (map_to_list (unregistered_actors st)) Hc
              (NoDup_fst_map_to_list _)
              ltac:(intros i a Hin; apply elem_of_map_to_list in Hin;
                    now apply Hkeyed)
              (vicinity_grid st, []) id) as [H1 H2].
  split.
  - intros a Ha.
    destruct (H1 a ltac:(now apply elem_of_map_to_list)) as [Halive Hdead].
    split; intros E.
    + split; [now apply Halive |].
      now apply (refresh_unregistered_lookup st id a).
    + split; [now apply Hdead |].
      destruct (unregistered_actors (refresh_unregistered st) !! id)
        as [b |] eqn:Eb; [| reflexivity].
      apply (refresh_unregistered_lookup st id b) in Eb as [Eb Hb].
      congruence.
  - intros Hnone. apply H2. intros Hin.
    apply list_elem_of_fmap in Hin as ([i a] & -> & Hin).
    apply elem_of_map_to_list in Hin. cbn in Hnone. congruence.
Qed.

End Unregistered.

Lemma X1_witness :
  (is_Some (id_to_index Cases.with_unregistered !! 8%nat) \/
   is_Some (unregistered_actors
              (scan_world Cases.with_unregistered Cases.busy_world) !! 8%nat)) /\
  unregistered_actors
    (scan_world Cases.with_unregistered Cases.busy_world) !! 1%nat = None /\
  scan_world Cases.with_unregistered Scenario.quiet_world
  = Cases.with_unregistered.
Proof.
  destruct (X1_scan_world_registers_unknown_vehicles
              Cases.with_unregistered Cases.busy_world) as [Hdue _].
  destruct (X1_scan_world_registers_unknown_vehicles
              Cases.with_unregistered Scenario.quiet_world) as [_ Hidle].
  assert (Hlate : (now Cases.busy_world
                   - last_world_actors_pass_instance Cases.with_unregistered
                   > 0.5)%R) by (cbn; lra).
  destruct (Hdue Hlate) as (_ & Hreg & Hall & _).
  split; [| split].
  - apply (Hall (Scenario.car 8 9 0 0 0)).
    apply elem_of_cons. right. apply elem_of_cons. right.
    apply elem_of_cons. now left.
  - apply Hreg; [eexists |]; reflexivity.
  - apply Hidle. cbn. lra.
Defined.

(** The single-cell grid of the scenarios keeps the contract. *)
Lemma Box_grid_contract :
  GridContract (C := Box.collaborators) Cases.grid_has.
Proof.
  split; cbn [UpdateGrid EraseActor Box.collaborators];
    unfold Cases.grid_has, Box.update, Box.erase.
  - intros g a. exists a. split; [| reflexivity].
    apply elem_of_app. right. now apply list_elem_of_singleton.
  - intros g a id Hne. split.
    + intros (b & Hb & Hid). apply elem_of_app in Hb as [Hb | Hb].
      * apply list_elem_of_filter in Hb as [_ Hb]. eauto.
      * apply list_elem_of_singleton in Hb. congruence.
    + intros (b & Hb & Hid). exists b. split; [| exact Hid].
      apply elem_of_app. left. apply list_elem_of_filter.
      split; [congruence | exact Hb].
  - intros g id (b & Hb & Hid).
    apply list_elem_of_filter in Hb as [Hne _]. contradiction.
  - intros g id id' Hne. split.
    + intros (b & Hb & Hid). apply list_elem_of_filter in Hb as [_ Hb]. eauto.
    + intros (b & Hb & Hid). exists b. split; [| exact Hid].
      apply list_elem_of_filter. split; [congruence | exact Hb].
Qed.

Lemma with_unregistered_keyed :
  keyed_by_id (unregistered_actors Cases.with_unregistered).
Proof.
  intros id a. cbn [unregistered_actors Cases.with_unregistered].
  destruct (decide (id = 5%nat)) as [-> | H5].
  - rewrite lookup_insert_eq. now intros [= <-].
  - rewrite lookup_insert_ne by congruence.
    destruct (decide (id = 6%nat)) as [-> | H6].
    + rewrite lookup_singleton_eq. now intros [= <-].
    + rewrite lookup_singleton_ne by congruence. discriminate.
Qed.

Lemma X3_witness :
  (Cases.grid_has
     (vicinity_grid (refresh_unregistered Cases.with_unregistered)) 5%nat /\
   unregistered_actors (refresh_unregistered Cases.with_unregistered) !! 5%nat
   = Some (Scenario.car 5 3 0 0 0)) /\
  (~ Cases.grid_has
       (vicinity_grid (refresh_unregistered Cases.with_unregistered)) 6%nat /\
   unregistered_actors (refresh_unregistered Cases.with_unregistered) !! 6%nat
   = None).
Proof.
  destruct (X3_refresh_keeps_grid_and_table_in_step (C := Box.collaborators)
              Cases.grid_has
              Cases.with_unregistered Box_grid_contract
              with_unregistered_keyed 5%nat) as [H5 _].
  destruct (X3_refresh_keeps_grid_and_table_in_step (C := Box.collaborators)
              Cases.grid_has
              Cases.with_unregistered Box_grid_contract
              with_unregistered_keyed 6%nat) as [H6 _].
  split.
  - now apply (H5 (Scenario.car 5 3 0 0 0)).
  - now apply (H6 (Cases.wreck 6)).
Defined.

(** ** What [Action] leaves alone (lines 47-128) *)

Section ActionFrame.
Context `{C : Collaborators}.

Lemma handle_unregistered_planner_frames st w start_index f :
  planner_frame (handle_unregistered st w start_index) f = planner_frame st f /\
  localization_messenger_state (handle_unregistered st w start_index)
  = localization_messenger_state st.
Proof.
  unfold handle_unregistered, refresh_unregistered, scan_world.
  destruct (start_index =? 0)%nat; [| auto].
  destruct (Rgt_dec _ _); destruct (foldl _ _ _) as [grid ids];
    destruct f; auto.
Qed.

(** The members that the vehicle loop never assigns, and the output array
    that is not selected. *)
Lemma vehicle_loop_untouched f indices :
  forall st st' t,
    vehicle_loop f st indices = (Ok st', t) ->
    unregistered_actors st' = unregistered_actors st /\
    last_world_actors_pass_instance st' = last_world_actors_pass_instance st /\
    localization_messenger_state st' = localization_messenger_state st /\
    forall g, g <> f -> planner_frame st' g = planner_frame st g.
Proof.
  induction indices as [| i rest IH]; intros st st' t.
  - intros [= <- <-]. auto.
  - rewrite vehicle_loop_cons. intros H.
    apply bind_Ok_inv in H as (st1 & t1 & t2 & Hstep & Hrest & ->).
    apply vehicle_step_Ok in Hstep as (data & h & t0 & _ & _ & _ & -> & _).
    apply IH in Hrest as (-> & -> & -> & Hother).
    split; [reflexivity |]. split; [reflexivity |]. split; [reflexivity |].
    intros g Hg. rewrite (Hother g Hg).
    destruct f, g; try reflexivity; now destruct Hg.
Qed.

(** X4: a completed [Action] changes neither the received frame, nor the
    identity-to-index map, nor the frame selector, nor the two messenger
    states; and the table of unregistered actors and the clock of the
    world scan are changed only by the worker whose range starts at index
    0, before its loop over the vehicles. *)
Theorem X4_Action_leaves_registry_alone :
  forall (st : CollisionStage) (w : World) (start_index end_index : nat)
         (st' : CollisionStage) (t : list Event),
    Action st w start_index end_index = (Ok st', t) ->
    localization_frame st' = localization_frame st /\
    id_to_index st' = id_to_index st /\
    frame_selector st' = frame_selector st /\
    planner_messenger_state st' = planner_messenger_state st /\
    localization_messenger_state st' = localization_messenger_state st /\
    unregistered_actors st'
    = unregistered_actors (handle_unregistered st w start_index) /\
    last_world_actors_pass_instance st'
    = last_world_actors_pass_instance (handle_unregistered st w start_index) /\
    (start_index <> 0%nat ->
     unregistered_actors st' = unregistered_actors st /\
     last_world_actors_pass_instance st' = last_world_actors_pass_instance st).
Proof.
  intros st w start_index end_index st' t H.
  pose proof (Action_Ok _ _ _ _ _ _ H) as ((Hframe & Hsel & Hstate & _) & Hid & _).
  unfold Action in H.
  apply vehicle_loop_untouched in H as (Htable & Hclock & Hloc & _).
  destruct (handle_unregistered_planner_frames st w start_index FrameA)
    as [_ Hloc0].
  repeat (split; [congruence |]).
  intros Hstart. unfold handle_unregistered in Htable, Hclock.
  destruct (Nat.eqb_spec start_index 0); [contradiction | auto].
Qed.

(** X5: a completed [Action] writes into the selected output array at the
    indices of its own range only: the entries outside the range keep their
    value, the array keeps its size, and the array that is not selected is
    not touched at all. *)
Theorem X5_Action_writes_own_range_only :
  forall (st : CollisionStage) (w : World) (start_index end_index : nat)
         (st' : CollisionStage) (t : list Event),
    Action st w start_index end_index = (Ok st', t) ->
    let f := frame_of_selector (frame_selector st) in
    (forall j, ~ in_range start_index end_index j ->
       planner_frame st' f !! j = planner_frame st f !! j) /\
    length (planner_frame st' f) = length (planner_frame st f) /\
    planner_frame st' (frame_of_selector (negb (frame_selector st)))
    = planner_frame st (frame_of_selector (negb (frame_selector st))).
Proof.
  intros st w start_index end_index st' t H f.
  pose proof (Action_Ok _ _ _ _ _ _ H) as ((_ & _ & _ & Hlen) & _).
  unfold Action in H. fold f in H.
  pose proof (vehicle_loop_untouched _ _ _ _ _ H) as (_ & _ & _ & Hother).
  apply vehicle_loop_Ok in H as (_ & _ & Hkeep & _).
  split; [| split].
  - intros j Hj. rewrite Hkeep.
    + now rewrite (proj1 (handle_unregistered_planner_frames st w start_index f)).
    + intros Hin. apply Hj. now apply in_range_seq.
  - apply Hlen.
  - rewrite Hother by (unfold f; apply frame_of_selector_negb).
    apply handle_unregistered_planner_frames.
Qed.

End ActionFrame.

Lemma two_far_Action :
  exists st',
    Action Scenario.two_far Scenario.quiet_world 1 1
    = (Ok st', [EvWriteHazard FrameA 1 false]).
Proof. eexists. reflexivity. Qed.

Lemma X4_witness :
  exists st',
    fst (Action Scenario.two_far Scenario.quiet_world 1 1) = Ok st' /\
    id_to_index st' = id_to_index Scenario.two_far /\
    unregistered_actors st' = unregistered_actors Scenario.two_far.
Proof.
  destruct two_far_Action as [st' H]. exists st'.
  split; [now rewrite H |].
  destruct (X4_Action_leaves_registry_alone _ _ _ _ _ _ H)
    as (_ & Hid & _ & _ & _ & _ & _ & Hother).
  split; [exact Hid |]. now apply Hother.
Defined.

Lemma X5_witness :
  exists st',
    fst (Action Scenario.two_far Scenario.quiet_world 1 1) = Ok st' /\
    planner_frame st' FrameA !! 0%nat
    = planner_frame Scenario.two_far FrameA !! 0%nat /\
    planner_frame st' FrameB = planner_frame Scenario.two_far FrameB.
Proof.
  destruct two_far_Action as [st' H]. exists st'.
  split; [now rewrite H |].
  destruct (X5_Action_writes_own_range_only _ _ _ _ _ _ H) as (Hout & _ & Hb).
  split; [| exact Hb].
  apply Hout. unfold in_range. lia.
Defined.

(** ** The candidate loop (lines 94-122) *)

Section CandidateLoop.
Context `{C : Collaborators}.
Local Open Scope R_scope.

Lemma bind_assoc {A B D : Type} (c : Run A) (k : A -> Run B)
    (k' : B -> Run D) :
  bind (bind c k) k' = bind c (fun a => bind (k a) k').
Proof.
  unfold bind. destruct c as [[a | |] t]; cbn [fst snd]; try reflexivity.
  destruct (k a) as [[b | |] t1]; cbn [fst snd]; try reflexivity.
  now rewrite app_assoc.
Qed.

Lemma bind_ext {A B : Type} (c : Run A) (k k' : A -> Run B) :
  (forall a, k a = k' a) -> bind c k = bind c k'.
Proof.
  intros H. unfold bind. destruct c as [[a | |] t]; cbn [fst snd];
    try reflexivity.
  now rewrite H.
Qed.

(** The loop over a list in two parts is the loop over the first part
    followed by the loop over the second. *)
Lemma candidate_loop_app st ego_actor l1 :
  forall l2 h,
    candidate_loop st ego_actor (l1 ++ l2) h
    = bind (candidate_loop st ego_actor l1 h)
           (fun h' => candidate_loop st ego_actor l2 h').
Proof.
  induction l1 as [| c l1 IH]; intros l2 h.
  - cbn [app candidate_loop]. now rewrite bind_ret.
  - cbn [app candidate_loop]. destruct h.
    + rewrite bind_ret. now rewrite candidate_loop_hazard.
    + rewrite bind_assoc. apply bind_ext. intros after. apply IH.
Qed.

(** X6: the candidate loop stops at the first hazard.  Once the loop over
    some candidates has found a hazard, whatever candidates follow are
    neither resolved nor negotiated: the result and the trace are those of
    the first part.  In general the loop over [l1 ++ l2] is the loop over
    [l1] followed by the loop over [l2] from the hazard state reached. *)
Theorem X6_candidate_loop_stops_at_first_hazard :
  forall (st : CollisionStage) (ego_actor : ActorHandle)
         (l1 l2 : list ActorId) (h : bool),
    candidate_loop st ego_actor (l1 ++ l2) h
    = bind (candidate_loop st ego_actor l1 h)
           (fun h' => candidate_loop st ego_actor l2 h') /\
    (forall t,
       candidate_loop st ego_actor l1 h = (Ok true, t) ->
       candidate_loop st ego_actor (l1 ++ l2) h = (Ok true, t)).
Proof.
  intros st ego_actor l1 l2 h. split; [apply candidate_loop_app |].
  intros t H. rewrite candidate_loop_app, H. unfold bind. cbn [fst snd].
  rewrite candidate_loop_hazard. cbn [fst snd]. now rewrite app_nil_r.
Qed.

(** X7: the vehicle's own identity among the candidates has no effect:
    the loop over the candidates gives the same result and the same trace
    with the occurrences of the own identity removed. *)
Theorem X7_own_identity_is_skipped :
  forall (st : CollisionStage) (ego_actor : ActorHandle)
         (actor_id_list : list ActorId) (h : bool),
    candidate_loop st ego_actor
      (filter (fun actor_id => actor_id <> GetId ego_actor) actor_id_list) h
    = candidate_loop st ego_actor actor_id_list h.
Proof.
  intros st ego_actor l. induction l as [| c l IH]; intros h; [reflexivity |].
  destruct (decide (c = GetId ego_actor)) as [-> | Hne].
  - rewrite filter_cons_False by tauto. rewrite IH.
    cbn [candidate_loop]. destruct h; [now rewrite candidate_loop_hazard |].
    unfold check_candidate. rewrite Nat.eqb_refl. cbn [negb].
    unfold try_catch. cbn [ret fst]. now rewrite bind_ret.
  - rewrite filter_cons_True by exact Hne.
    cbn [candidate_loop]. destruct h; [reflexivity |].
    apply bind_ext. intros after. apply IH.
Qed.

(** The [try] block says hazard exactly for a hazardous candidate. *)
Lemma check_candidate_hazard st ego_actor actor_id t :
  check_candidate st ego_actor actor_id false = (Ok true, t) ->
  hazardous_candidate st ego_actor actor_id.
Proof.
  intros H.
  pose proof (check_candidate_outcome st ego_actor actor_id false) as Hout.
  rewrite H in Hout.
  inversion Hout as [| r Hr Hne | a r Hne Hres Hle Hr]; subst.
  - destruct Hr; discriminate.
  - split; [exact Hne |]. exists a.
    destruct (NegotiateCollision st ego_actor a) as [[|] | |];
      cbn [res_bind] in *; try discriminate. auto.
Qed.

Lemma hazardous_check_candidate st ego_actor actor_id :
  hazardous_candidate st ego_actor actor_id ->
  exists t, check_candidate st ego_actor actor_id false = (Ok true, t).
Proof.
  intros (Hne & a & Hres & Hle & Hneg). unfold check_candidate.
  destruct (Nat.eqb_spec actor_id (GetId ego_actor)); [contradiction |].
  cbn [negb]. rewrite Hres, bind_lift_Ok.
  destruct (Rle_dec _ _); [| contradiction].
  rewrite bind_emit, Hneg, bind_lift_Ok. cbn [ret fst snd]. eauto.
Qed.

(** The hazard state the loop ends with, when it ends normally. *)
Lemma candidate_loop_result st ego_actor l :
  forall h r,
    fst (candidate_loop st ego_actor l h) = Ok r ->
    (r = true <->
     h = true \/
     exists actor_id, actor_id ∈ l /\ hazardous_candidate st ego_actor actor_id).
Proof.
  induction l as [| c l IH]; intros h r.
  - cbn. intros [= <-]. split; [auto |].
    intros [? | (c & Hc & _)]; [assumption | now apply elem_of_nil in Hc].
  - destruct h.
    + rewrite candidate_loop_hazard. cbn. intros [= <-]. tauto.
    + destruct (check_candidate st ego_actor c false) as [[after | |] t] eqn:E.
      * rewrite (candidate_loop_cons_ok _ _ _ _ _ _ E). cbn [fst].
        intros H. rewrite (IH _ _ H). split.
        -- intros [-> | (c' & Hin & Hc')].
           ++ right. exists c. split; [apply elem_of_cons; auto |].
              eapply check_candidate_hazard; eauto.
           ++ right. exists c'. split; [apply elem_of_cons; auto | exact Hc'].
        -- intros [[=] | (c' & Hin & Hc')].
           apply elem_of_cons in Hin as [-> | Hin]; [| right; eauto].
           left. apply hazardous_check_candidate in Hc' as [t' Ht'].
           congruence.
      * rewrite (candidate_loop_cons_throw _ _ _ _ _ E). cbn [fst].
        intros H. rewrite (IH _ _ H). split.
        -- intros [[=] | (c' & Hin & Hc')].
           right. exists c'. split; [apply elem_of_cons; auto | exact Hc'].
        -- intros [[=] | (c' & Hin & Hc')].
           apply elem_of_cons in Hin as [-> | Hin]; [| right; eauto].
           apply hazardous_check_candidate in Hc' as [t' Ht']. congruence.
      * rewrite (candidate_loop_cons_undef _ _ _ _ _ E). discriminate.
Qed.

(** X8: when the candidate loop of a vehicle ends normally, the hazard it
    reports is true exactly when some candidate is another actor that
    resolves to a handle within the search radius and with which the
    negotiation says hazard.  Hence the flag does not depend on the order in
    which the unordered set of candidates is traversed: two traversals of
    the same candidates that both end normally report the same flag. *)
Theorem X8_hazard_flag_is_order_independent :
  forall (st : CollisionStage) (ego_actor : ActorHandle)
         (l1 l2 : list ActorId) (r1 r2 : bool),
    fst (candidate_loop st ego_actor l1 false) = Ok r1 ->
    (r1 = true <->
     exists actor_id,
       actor_id ∈ l1 /\ hazardous_candidate st ego_actor actor_id) /\
    (l1 ≡ₚ l2 ->
     fst (candidate_loop st ego_actor l2 false) = Ok r2 ->
     r1 = r2).
Proof.
  intros st ego_actor l1 l2 r1 r2 H1.
  pose proof (candidate_loop_result st ego_actor l1 false r1 H1) as Hr1.
  split.
  - rewrite Hr1. split; [intros [[=] | ?]; assumption | auto].
  - intros Hperm H2.
    pose proof (candidate_loop_result st ego_actor l2 false r2 H2) as Hr2.
    assert (Hiff : r1 = true <-> r2 = true).
    { rewrite Hr1, Hr2. split; intros [[=] | (c & Hc & Hh)]; right; exists c;
        (split; [| exact Hh]); [now rewrite <- Hperm | now rewrite Hperm]. }
    destruct r1, r2; try reflexivity; [symmetry |]; now apply Hiff.
Qed.

End CandidateLoop.

(** The parked car is a hazardous candidate for the follower. *)
Lemma parked_is_hazardous :
  hazardous_candidate Cases.with_parked (Scenario.car 1 0 0 0 0) 2%nat.
Proof.
  split; [discriminate |]. exists (Scenario.car 2 4.5 0 0 0).
  split; [reflexivity |]. split.
  - cbn. unfold Box.euclid_squared, SEARCH_RADIUS. cbn. lra.
  - change (NegotiateCollision Cases.with_parked
              (Scenario.car 1 0 0 0 0) (Scenario.car 2 4.5 0 0 0))
      with (NegotiateCollision Scenario.follower
              (Scenario.car 1 0 0 0 0) (Scenario.car 2 4.5 0 0 0)).
    apply follower_yields.
Qed.

Lemma parked_found :
  exists t,
    candidate_loop Cases.with_parked (Scenario.car 1 0 0 0 0) [2%nat] false
    = (Ok true, t) /\
    candidate_loop Cases.with_parked (Scenario.car 1 0 0 0 0) [1; 2]%nat false
    = (Ok true, t).
Proof.
  destruct (hazardous_check_candidate _ _ _ parked_is_hazardous) as [t Ht].
  exists t. split.
  - rewrite (candidate_loop_cons_ok _ _ _ _ _ _ Ht).
    cbn [candidate_loop ret fst snd]. now rewrite app_nil_r.
  - assert (Hself : check_candidate Cases.with_parked (Scenario.car 1 0 0 0 0)
                      1%nat false = (Ok false, [])) by reflexivity.
    rewrite (candidate_loop_cons_ok _ _ _ _ _ _ Hself).
    rewrite (candidate_loop_cons_ok _ _ _ _ _ _ Ht).
    cbn [candidate_loop ret fst snd app]. now rewrite app_nil_r.
Qed.

Lemma X6_witness :
  exists t,
    candidate_loop Cases.with_parked (Scenario.car 1 0 0 0 0)
      ([2] ++ [7; 9])%nat false = (Ok true, t).
Proof.
  destruct parked_found as (t & Ht & _). exists t.
  now apply (X6_candidate_loop_stops_at_first_hazard Cases.with_parked
               (Scenario.car 1 0 0 0 0) [2%nat] [7; 9]%nat false).
Defined.

Lemma X8_witness :
  (exists actor_id,
     actor_id ∈ [2; 1]%nat /\
     hazardous_candidate Cases.with_parked (Scenario.car 1 0 0 0 0) actor_id) /\
  forall r2,
    fst (candidate_loop Cases.with_parked (Scenario.car 1 0 0 0 0)
           [1; 2]%nat false) = Ok r2 ->
    true = r2.
Proof.
  destruct parked_found as (t & Ht & Ht').
  assert (H1 : fst (candidate_loop Cases.with_parked (Scenario.car 1 0 0 0 0)
                      [2; 1]%nat false) = Ok true).
  { destruct (hazardous_check_candidate _ _ _ parked_is_hazardous) as [t0 Ht0].
    now rewrite (candidate_loop_cons_ok _ _ _ _ _ _ Ht0). }
  split.
  - now apply (X8_hazard_flag_is_order_independent Cases.with_parked
                 (Scenario.car 1 0 0 0 0) [2; 1]%nat [1; 2]%nat true true H1).
  - intros r2 H2.
    apply (X8_hazard_flag_is_order_independent Cases.with_parked
             (Scenario.car 1 0 0 0 0) [2; 1]%nat [1; 2]%nat true r2 H1);
      [apply Permutation_swap | exact H2].
Defined.

(** ** Exceptions in the candidate loop (lines 97-126) *)

Section Containment.
Context `{C : Collaborators}.

Lemma next_stage_fields st g f l :
  localization_frame (set_planner_frame (set_vicinity_grid st g) f l)
  = localization_frame st /\
  id_to_index (set_planner_frame (set_vicinity_grid st g) f l)
  = id_to_index st /\
  unregistered_actors (set_planner_frame (set_vicinity_grid st g) f l)
  = unregistered_actors st /\
  planner_frame (set_planner_frame (set_vicinity_grid st g) f l) f = l.
Proof. destruct f; repeat split. Qed.

(** One turn of the vehicle loop whose candidate loop did not end in
    undefined behaviour. *)
Lemma vehicle_step_flag f st i data r t0 :
  localization_frame st !! i = Some data ->
  (i < length (planner_frame st f))%nat ->
  candidate_loop (queried st data) (actor data) (candidates_of st data) false
  = (r, t0) ->
  r <> Undef ->
  exists h,
    r = Ok h /\
    (h = true <->
     exists actor_id,
       actor_id ∈ candidates_of st data /\
       hazardous_candidate (queried st data) (actor data) actor_id) /\
    vehicle_step f st i
    = (Ok (set_planner_frame (queried st data) f
             (<[i := mkPlannerData h]> (planner_frame st f))),
       t0 ++ [EvWriteHazard f i h]).
Proof.
  intros Hdata Hi Hloop Hdef.
  pose proof (candidate_loop_never_throws (queried st data) (actor data)
                (candidates_of st data) false) as Hnt.
  rewrite Hloop in Hnt. cbn [fst] in Hnt.
  destruct r as [h | |]; [| contradiction | contradiction].
  exists h. split; [reflexivity |]. split.
  - pose proof (candidate_loop_result (queried st data) (actor data)
                  (candidates_of st data) false h) as Hres.
    rewrite Hloop in Hres. rewrite (Hres eq_refl).
    split; [intros [[=] | H]; exact H | auto].
  - rewrite vehicle_step_unfold, Hdata. cbn zeta.
    fold (queried st data). fold (candidates_of st data).
    rewrite Hloop. cbn [fst snd].
    destruct (lookup_lt_is_Some_2 _ _ Hi) as [message ->]. reflexivity.
Qed.

(** Every flag of a completed vehicle loop is the result of the candidate
    loop of its vehicle. *)
Lemma vehicle_loop_flags f indices :
  forall st st' t,
    vehicle_loop f st indices = (Ok st', t) ->
    List.NoDup indices ->
    forall i, In i indices ->
      exists st_i data h t0 before after,
        localization_frame st_i = localization_frame st /\
        id_to_index st_i = id_to_index st /\
        unregistered_actors st_i = unregistered_actors st /\
        localization_frame st !! i = Some data /\
        candidate_loop (queried st_i data) (actor data)
          (candidates_of st_i data) false = (Ok h, t0) /\
        planner_frame st' f !! i = Some (mkPlannerData h) /\
        t = before ++ t0 ++ [EvWriteHazard f i h] ++ after.
Proof.
  induction indices as [| j rest IH]; intros st st' t Hrun Hnd i Hin;
    [destruct Hin |].
  rewrite vehicle_loop_cons in Hrun.
  apply bind_Ok_inv in Hrun as (st1 & t1 & t2 & Hstep & Hrest & ->).
  apply vehicle_step_Ok in Hstep
    as (data & h & t0 & Hdata & Hloop & Hj & -> & ->).
  cbn zeta in Hloop.
  apply List.NoDup_cons_iff in Hnd as [Hfresh Hnd].
  destruct (next_stage_fields st
              (fst (GetActors (vicinity_grid st) (actor data))) f
              (<[j := mkPlannerData h]> (planner_frame st f)))
    as (Hframe & Hid & Hun & Hflag).
  destruct (Nat.eq_dec i j) as [-> | Hne].
  - exists st, data, h, t0, [], t2.
    split; [reflexivity |]. split; [reflexivity |]. split; [reflexivity |].
    split; [exact Hdata |]. split; [exact Hloop |]. split.
    + apply vehicle_loop_Ok in Hrest as (_ & _ & Hkeep & _).
      rewrite (Hkeep j Hfresh), Hflag.
      now apply list_lookup_insert_eq.
    + cbn [app]. now rewrite <- !app_assoc.
  - destruct Hin as [-> | Hin]; [contradiction |].
    destruct (IH _ _ _ Hrest Hnd i Hin)
      as (st_i & data_i & h_i & t_i & before & after
          & Hf & Hm & Hu & Hd & Hl & Hp & ->).
    exists st_i, data_i, h_i, t_i, ((t0 ++ [EvWriteHazard f j h]) ++ before),
      after.
    split; [now rewrite Hf |]. split; [now rewrite Hm |].
    split; [now rewrite Hu |].
    split; [now rewrite <- Hframe |]. split; [exact Hl |].
    split; [exact Hp |]. now rewrite <- !app_assoc.
Qed.

(** C7: an exception raised while one candidate is resolved or negotiated
    is caught in the candidate loop and logged, the hazard stays as it was
    and the remaining candidates are processed; no exception leaves the
    candidate loop.  Whatever its candidates threw, a vehicle whose
    candidate loop ends (that is, short of undefined behaviour) and whose
    index is inside the output array gets the result of its candidate loop
    written as its flag: the flag is true exactly when some candidate is
    another actor that resolved to a handle within the search radius and
    was negotiated as a hazard, so a candidate that threw counts as no
    hazard; and the vehicle loop goes on with the vehicles that follow.
    When [Action] completes, the flag at every index of the worker's range
    is the result of the candidate loop of the vehicle at that index. *)
Theorem C7_candidate_exceptions_contained :
  forall (st : CollisionStage) (w : World) (start_index end_index : nat),
    (forall ego_actor actor_id rest t,
       check_candidate st ego_actor actor_id false = (Throw, t) ->
       candidate_loop st ego_actor (actor_id :: rest) false
       = (fst (candidate_loop st ego_actor rest false),
          (t ++ [EvLogWarning; EvLogInfo])
          ++ snd (candidate_loop st ego_actor rest false))) /\
    (forall ego_actor rest h,
       fst (candidate_loop st ego_actor rest h) <> Throw) /\
    (forall f i data r t0,
       localization_frame st !! i = Some data ->
       (i < length (planner_frame st f))%nat ->
       candidate_loop (queried st data) (actor data) (candidates_of st data)
         false = (r, t0) ->
       r <> Undef ->
       exists h,
         r = Ok h /\
         (h = true <->
          exists actor_id,
            actor_id ∈ candidates_of st data /\
            hazardous_candidate (queried st data) (actor data) actor_id) /\
         let st_next :=
           set_planner_frame (queried st data) f
             (<[i := mkPlannerData h]> (planner_frame st f)) in
         vehicle_step f st i = (Ok st_next, t0 ++ [EvWriteHazard f i h]) /\
         planner_frame st_next f !! i = Some (mkPlannerData h) /\
         forall rest,
           vehicle_loop f st (i :: rest)
           = (fst (vehicle_loop f st_next rest),
              (t0 ++ [EvWriteHazard f i h])
              ++ snd (vehicle_loop f st_next rest))) /\
    (forall st' t,
       Action st w start_index end_index = (Ok st', t) ->
       let f := frame_of_selector (frame_selector st) in
       forall i, in_range start_index end_index i ->
         exists st_i data h t0 before after,
           localization_frame st_i = localization_frame st /\
           id_to_index st_i = id_to_index st /\
           unregistered_actors st_i
           = unregistered_actors (handle_unregistered st w start_index) /\
           localization_frame st !! i = Some data /\
           candidate_loop (queried st_i data) (actor data)
             (candidates_of st_i data) false = (Ok h, t0) /\
           (h = true <->
            exists actor_id,
              actor_id ∈ candidates_of st_i data /\
              hazardous_candidate (queried st_i data) (actor data)
                actor_id) /\
           planner_frame st' f !! i = Some (mkPlannerData h) /\
           t = before ++ t0 ++ [EvWriteHazard f i h] ++ after).
Proof.
  intros st w start_index end_index. split; [| split; [| split]].
  - intros ego_actor actor_id rest t H. now apply candidate_loop_cons_throw.
  - intros ego_actor rest h. apply candidate_loop_never_throws.
  - intros f i data r t0 Hdata Hi Hloop Hdef.
    destruct (vehicle_step_flag f st i data r t0 Hdata Hi Hloop Hdef)
      as (h & -> & Hiff & Hstep).
    exists h. split; [reflexivity |]. split; [exact Hiff |].
    cbn zeta. split; [exact Hstep |]. split.
    + destruct f; cbn; now apply list_lookup_insert_eq.
    + intros rest. rewrite vehicle_loop_cons, Hstep. reflexivity.
  - intros st' t Hrun f i Hi. unfold Action in Hrun. fold f in Hrun.
    destruct (handle_unregistered_same_frames st w start_index)
      as [(Hframe & _) Hid].
    destruct (vehicle_loop_flags f _ _ _ _ Hrun
                (List.seq_NoDup _ _) i (proj2 (in_range_seq _ _ _) Hi))
      as (st_i & data & h & t0 & before & after
          & Hf & Hm & Hu & Hd & Hl & Hp & ->).
    exists st_i, data, h, t0, before, after.
    split; [now rewrite Hf |]. split; [now rewrite Hm |].
    split; [exact Hu |]. split; [now rewrite <- Hframe |].
    split; [exact Hl |]. split; [| split; [exact Hp | reflexivity]].
    pose proof (candidate_loop_result (queried st_i data) (actor data)
                  (candidates_of st_i data) false h) as Hres.
    rewrite Hl in Hres. rewrite (Hres eq_refl).
    split; [intros [[=] | H]; exact H | auto].
Qed.

End Containment.

Lemma C7_witness :
  candidate_loop Scenario.stale_index (Scenario.car 1 0 0 0 0) [2; 1]%nat false
  = (Ok false, [EvLogWarning; EvLogInfo]) /\
  exists st',
    Action Scenario.stale_index Scenario.quiet_world 0 0
    = (Ok st', [EvLogWarning; EvLogInfo; EvWriteHazard FrameA 0 false]) /\
    planner_frame st' FrameA !! 0%nat = Some (mkPlannerData false).
Proof.
  destruct (C7_candidate_exceptions_contained
              Scenario.stale_index Scenario.quiet_world 0 0)
    as (Hcaught & _ & _ & Hflag).
  split.
  - exact (Hcaught (Scenario.car 1 0 0 0 0) 2%nat [1%nat] [] eq_refl).
  - destruct stale_index_Action as [st' Hact].
    exists st'. split; [exact Hact |].
    destruct (Hflag _ _ Hact 0%nat)
      as (st_i & data & h & t0 & before & after
          & _ & _ & _ & _ & _ & _ & Hp & Ht);
      [unfold in_range; lia |].
    assert (Hin : In (EvWriteHazard FrameA 0 h)
                     [EvLogWarning; EvLogInfo; EvWriteHazard FrameA 0 false]).
    { cbn zeta in Ht.
      change (frame_of_selector (frame_selector Scenario.stale_index))
        with FrameA in Ht.
      rewrite Ht. apply in_or_app. right. apply in_or_app. right.
      now left. }
    destruct Hin as [[=] | [[=] | [[= <-] | []]]]. exact Hp.
Defined.

(** ** The shape of the boundaries (lines 222-301) *)

Section Shapes.
Context `{C : Collaborators}.
Local Open Scope R_scope.

(** X9: the static boundary is a rectangle around the vehicle.  Its four
    corners are at the height of the vehicle's location; the location is
    the midpoint of both diagonals; the side from the second to the first
    corner runs along the heading and the side from the second to the third
    across it, at a right angle; and their squared lengths are those of
    twice the half-extents, scaled by the squared planar length of the
    heading vector. *)
Theorem X9_GetBoundary_is_a_centred_rectangle :
  forall a : ActorHandle,
    exists c0 c1 c2 c3,
      GetBoundary a = [c0; c1; c2; c3] /\
      (cg.z c0 = cg.z (GetLocation a) /\ cg.z c1 = cg.z (GetLocation a) /\
       cg.z c2 = cg.z (GetLocation a) /\ cg.z c3 = cg.z (GetLocation a)) /\
      cg.add c0 c2 = cg.scale 2 (GetLocation a) /\
      cg.add c1 c3 = cg.scale 2 (GetLocation a) /\
      planar_dot (cg.sub c0 c1) (cg.sub c2 c1) = 0 /\
      cg.sub c0 c1 = cg.sub c3 c2 /\
      (let h2 := planar_dot (GetForwardVector a) (GetForwardVector a) in
       planar_dot (cg.sub c0 c1) (cg.sub c0 c1)
       = (2 * cg.x (extent a)) * (2 * cg.x (extent a)) * h2 /\
       planar_dot (cg.sub c2 c1) (cg.sub c2 c1)
       = (2 * cg.y (extent a)) * (2 * cg.y (extent a)) * h2).
Proof.
  intros a. unfold GetBoundary. do 4 eexists.
  split; [reflexivity |].
  unfold planar_dot, cg.add, cg.sub, cg.scale. cbn [cg.x cg.y cg.z].
  repeat split; try (f_equal; lra); try lra; ring.
Qed.

(** The corridor loop in closed form: it adds the offsets of the waypoints
    of a prefix of [boundary_end :: rest] that leaves out at least the last
    one, all of them within the extension, and stops at the first waypoint
    that is not. *)
Lemma boundary_loop_prefix width bbox_ext boundary_start rest :
  forall boundary_end left_boundary right_boundary,
    exists k,
      (k <= length rest)%nat /\
      boundary_loop width bbox_ext boundary_start boundary_end rest
        left_boundary right_boundary
      = (left_boundary
           ++ map (left_offset width) (take k (boundary_end :: rest)),
         right_boundary
           ++ map (right_offset width) (take k (boundary_end :: rest))) /\
      Forall (within_extension bbox_ext boundary_start)
             (take k (boundary_end :: rest)) /\
      ((k < length rest)%nat ->
       forall w, (boundary_end :: rest) !! k = Some w ->
         ~ within_extension bbox_ext boundary_start w).
Proof.
  induction rest as [| next rest IH]; intros boundary_end l r.
  - exists 0%nat. cbn. rewrite !app_nil_r.
    split; [lia |]. split; [reflexivity |]. split; [constructor | lia].
  - cbn [boundary_loop].
    destruct (Rlt_dec _ _) as [Hin | Hout].
    + destruct (IH next (l ++ [left_offset width boundary_end])
                  (r ++ [right_offset width boundary_end]))
        as (k & Hk & Heq & Hall & Hstop).
      exists (S k). split; [cbn; lia |]. split; [| split].
      * cbv zeta. etransitivity; [exact Heq |].
        cbn [take map]. now rewrite <- !app_assoc.
      * cbn [take]. constructor; [exact Hin | exact Hall].
      * intros Hlt w Hw. apply Hstop; [cbn in Hlt; lia | exact Hw].
    + exists 0%nat. cbn [take map]. rewrite !app_nil_r.
      split; [lia |]. split; [reflexivity |]. split; [constructor |].
      intros _ w [= <-]. exact Hout.
Qed.

(** X10: for a registered vehicle with a non-empty path buffer the geodesic
    boundary is: the right offsets of a prefix of [front :: buffer] in
    reverse, the four corners, the left offsets of the same prefix.  The
    prefix has at most as many waypoints as the buffer, so the front
    waypoint is used twice before any other and the last waypoint of the
    buffer is never used; every waypoint of the prefix is within the
    extension of the front waypoint, and when the prefix is shorter than
    the buffer the next waypoint is not.  The boundary has 4 + 2k points. *)
Theorem X10_geodesic_boundary_follows_a_prefix_of_the_path :
  forall (st : CollisionStage) (a : ActorHandle) (index : nat)
         (data : LocalizationToCollisionData) (front : SimpleWaypoint)
         (others : list SimpleWaypoint),
    id_to_index st !! GetId a = Some index ->
    localization_frame st !! index = Some data ->
    buffer data = front :: others ->
    let width := cg.y (extent a) in
    let bbox_ext := bbox_extension (cg.Length (GetVelocity a)) in
    exists k boundary,
      (k <= length (buffer data))%nat /\
      let used := take k (front :: buffer data) in
      GetGeodesicBoundary st a = Ok boundary /\
      boundary = rev (map (right_offset width) used) ++ GetBoundary a
                 ++ map (left_offset width) used /\
      length boundary = (4 + 2 * k)%nat /\
      Forall (within_extension bbox_ext front) used /\
      ((k < length (buffer data))%nat ->
       forall w, (front :: buffer data) !! k = Some w ->
         ~ within_extension bbox_ext front w) /\
      (within_extension bbox_ext front front -> (1 <= k)%nat).
Proof.
  intros st a index data front others Hid Hframe Hbuf width bbox_ext.
  cbn zeta. rewrite Hbuf.
  destruct (boundary_loop_prefix width bbox_ext front (front :: others)
              front [] [])
    as (k & Hk & Heq & Hall & Hstop).
  exists k. eexists. split; [exact Hk |].
  split; [| split; [reflexivity | split; [| split; [exact Hall | split]]]].
  - unfold GetGeodesicBoundary, at_. rewrite Hid, Hframe. cbn [res_bind].
    rewrite Hbuf. fold width. fold bbox_ext. rewrite Heq. reflexivity.
  - rewrite !length_app, length_rev, !length_map, length_take.
    cbn [length GetBoundary]. cbn [length] in Hk. lia.
  - exact Hstop.
  - intros Hfront. destruct k as [| k]; [| lia]. exfalso.
    apply (Hstop ltac:(cbn; lia) front eq_refl Hfront).
Qed.

(** X11: for a waypoint whose heading has a ground-plane part that is not
    zero, the two points that the corridor loop adds lie symmetrically
    about the waypoint: the waypoint is their midpoint, they are at the
    waypoint's height, the line through them is at a right angle to the
    heading, and each of them is at planar distance [width] from the
    waypoint.  (For a heading without a ground-plane part the source
    divides by a zero length; nothing is stated for it.) *)
Theorem X11_corridor_offsets_straddle_the_waypoint :
  forall (width : R) (w : SimpleWaypoint),
    planar_dot (wp_forward w) (wp_forward w) <> 0 ->
    cg.add (left_offset width w) (right_offset width w)
    = cg.scale 2 (wp_location w) /\
    cg.z (left_offset width w) = cg.z (wp_location w) /\
    cg.z (right_offset width w) = cg.z (wp_location w) /\
    planar_dot (cg.sub (left_offset width w) (right_offset width w))
               (wp_forward w) = 0 /\
    planar_distance_squared (wp_location w) (left_offset width w)
    = width * width /\
    planar_distance_squared (wp_location w) (right_offset width w)
    = width * width.
Proof.
  intros width w Hh.
  unfold left_offset, right_offset, cg.MakeUnitVector, cg.Length.
  cbn [cg.x cg.y cg.z].
  set (s := - cg.y (wp_forward w) * - cg.y (wp_forward w)
            + cg.x (wp_forward w) * cg.x (wp_forward w) + 0 * 0).
  set (k := 1 / sqrt s).
  unfold planar_dot, planar_distance_squared, cg.add, cg.sub, cg.scale in *.
  cbn [cg.x cg.y cg.z].
  split; [f_equal; lra |]. split; [lra |]. split; [lra |].
  split; [ring |].
  assert (Hs : 0 < s).
  { subst s.
    pose proof (Rle_0_sqr (cg.x (wp_forward w))) as Hx.
    pose proof (Rle_0_sqr (cg.y (wp_forward w))) as Hy.
    unfold Rsqr in *. lra. }
  assert (Hk : k * k * s = 1).
  { subst k. rewrite <- (sqrt_sqrt s) at 3 by lra.
    field. apply Rgt_not_eq. now apply sqrt_lt_R0. }
  split.
  - transitivity (width * width * (k * k * s)); [subst s; ring |].
    rewrite Hk. ring.
  - transitivity (width * width * (k * k * s)); [subst s; ring |].
    rewrite Hk. ring.
Qed.

End Shapes.

Lemma X10_witness :
  exists k boundary,
    (k <= 4)%nat /\
    GetGeodesicBoundary Scenario.follower (Scenario.car 1 0 0 0 0)
    = Ok boundary /\
    length boundary = (4 + 2 * k)%nat.
Proof.
  destruct (X10_geodesic_boundary_follows_a_prefix_of_the_path
              Scenario.follower (Scenario.car 1 0 0 0 0) 0%nat
              (mkLocalization (Scenario.car 1 0 0 0 0) Scenario.path)
              (Scenario.waypoint 0 0)
              [Scenario.waypoint 3 0; Scenario.waypoint 6 0;
               Scenario.waypoint 9 0]
              eq_refl eq_refl eq_refl)
    as (k & boundary & Hk & Hrun & _ & Hlen & _).
  exists k, boundary. auto.
Defined.

Lemma X11_witness :
  cg.add (left_offset 1 (Scenario.waypoint 3 0))
         (right_offset 1 (Scenario.waypoint 3 0))
  = cg.scale 2 (wp_location (Scenario.waypoint 3 0)) /\
  planar_distance_squared (wp_location (Scenario.waypoint 3 0))
    (left_offset 1 (Scenario.waypoint 3 0)) = (1 * 1)%R.
Proof.
  destruct (X11_corridor_offsets_straddle_the_waypoint 1
              (Scenario.waypoint 3 0))
    as (Hmid & _ & _ & _ & Hleft & _).
  - unfold planar_dot. cbn. lra.
  - split; [exact Hmid | exact Hleft].
Defined.

(** ** Negotiation: errors and necessary conditions (lines 153-183) *)

Section NegotiationFacts.
Context `{C : Collaborators}.
Local Open Scope R_scope.

Lemma GetGeodesicBoundary_stale st a index :
  id_to_index st !! GetId a = Some index ->
  (length (localization_frame st) <= index)%nat ->
  GetGeodesicBoundary st a = Throw.
Proof.
  intros Hid Hlen. unfold GetGeodesicBoundary, at_. rewrite Hid.
  now rewrite (proj2 (lookup_ge_None _ _) Hlen).
Qed.

(** X12: a registered identity whose stored index is outside the received
    frame makes every use of it throw [std::out_of_range]: resolving it as
    a candidate, building its geodesic boundary, and negotiating with it
    on either side when the heights are less than 2.0 apart and the other
    vehicle has a geodesic boundary.  When the heights are 2.0 or more
    apart the negotiation returns false without touching the frame. *)
Theorem X12_stale_index_throws :
  forall (st : CollisionStage) (a : ActorHandle) (index : nat),
    id_to_index st !! GetId a = Some index ->
    (length (localization_frame st) <= index)%nat ->
    resolve_actor st (GetId a) = Throw /\
    GetGeodesicBoundary st a = Throw /\
    (forall b,
       Rabs (cg.z (GetLocation a) - cg.z (GetLocation b)) < 2.0 ->
       NegotiateCollision st a b = Throw) /\
    (forall b boundary,
       Rabs (cg.z (GetLocation b) - cg.z (GetLocation a)) < 2.0 ->
       GetGeodesicBoundary st b = Ok boundary ->
       NegotiateCollision st b a = Throw) /\
    (forall b,
       Rabs (cg.z (GetLocation a) - cg.z (GetLocation b)) >= 2.0 ->
       NegotiateCollision st a b = Ok false) /\
    (forall ego_actor h,
       GetId a <> GetId ego_actor ->
       check_candidate st ego_actor (GetId a) h = (Throw, [])).
Proof.
  intros st a index Hid Hlen.
  pose proof (GetGeodesicBoundary_stale st a index Hid Hlen) as Hgeo.
  assert (Hres : resolve_actor st (GetId a) = Throw).
  { unfold resolve_actor, at_. rewrite Hid.
    now rewrite (proj2 (lookup_ge_None _ _) Hlen). }
  split; [exact Hres |]. split; [exact Hgeo |].
  split; [| split; [| split]].
  - intros b Hz. unfold NegotiateCollision.
    destruct (Rlt_dec _ _) as [_ | Hn];
      [| unfold VERTICAL_OVERLAP_THRESHOLD in Hn; lra].
    now rewrite Hgeo.
  - intros b boundary Hz Hb. unfold NegotiateCollision.
    destruct (Rlt_dec _ _) as [_ | Hn];
      [| unfold VERTICAL_OVERLAP_THRESHOLD in Hn; lra].
    now rewrite Hb, Hgeo.
  - intros b Hz. unfold NegotiateCollision.
    destruct (Rlt_dec _ _) as [Hlt | _]; [| reflexivity].
    unfold VERTICAL_OVERLAP_THRESHOLD in Hlt. lra.
  - intros ego_actor h Hne. unfold check_candidate.
    destruct (Nat.eqb_spec (GetId a) (GetId ego_actor)); [contradiction |].
    cbn [negb]. now rewrite Hres.
Qed.

(** X13: a hazard needs close heights and overlapping paths.  When
    [NegotiateCollision] returns true, the two heights are less than 2.0
    apart, both geodesic boundaries exist and [CheckOverlap] is true on
    them, and the reference vehicle is strictly farther from the other's
    geodesic boundary than the other vehicle is from the reference's.  A
    vehicle is never a hazard to itself. *)
Theorem X13_hazard_needs_overlap :
  forall (st : CollisionStage) (reference_vehicle other_vehicle : ActorHandle),
    (NegotiateCollision st reference_vehicle other_vehicle = Ok true ->
     Rabs (cg.z (GetLocation reference_vehicle)
           - cg.z (GetLocation other_vehicle)) < 2.0 /\
     exists reference_geodesic other_geodesic d_ref d_other,
       GetGeodesicBoundary st reference_vehicle = Ok reference_geodesic /\
       GetGeodesicBoundary st other_vehicle = Ok other_geodesic /\
       CheckOverlap reference_geodesic other_geodesic = Ok true /\
       static_to_geodesic_distance st reference_vehicle other_vehicle
       = Ok d_ref /\
       static_to_geodesic_distance st other_vehicle reference_vehicle
       = Ok d_other /\
       d_ref > d_other) /\
    NegotiateCollision st reference_vehicle reference_vehicle <> Ok true.
Proof.
  intros st r o. split.
  - intros H.
    destruct (NegotiateCollision_true st r o H) as (d1 & d2 & E1 & E2 & Hgt).
    unfold NegotiateCollision in H.
    destruct (Rlt_dec _ _) as [Hz | _]; [| discriminate].
    split; [unfold VERTICAL_OVERLAP_THRESHOLD in Hz; lra |].
    destruct (GetGeodesicBoundary st r) as [gr | |]; cbn [res_bind] in H;
      try discriminate.
    destruct (GetGeodesicBoundary st o) as [go | |]; cbn [res_bind] in H;
      try discriminate.
    destruct (CheckOverlap gr go) as [[|] | |] eqn:Hov; cbn [res_bind] in H;
      try discriminate.
    + exists gr, go, d1, d2. auto 7.
    + destruct (GetPolygon gr); cbn [res_bind] in H; try discriminate.
      destruct (GetPolygon go); cbn [res_bind] in H; discriminate.
  - intros H.
    destruct (NegotiateCollision_true st r r H) as (d1 & d2 & E1 & E2 & Hgt).
    rewrite E1 in E2. injection E2 as <-. lra.
Qed.

(** X14: two actors that are both unknown to the identity-to-index map are
    negotiated on their static boundaries alone, and the call always
    returns: the result is true exactly when the heights are less than 2.0
    apart, [CheckOverlap] is true on the two static boundaries and the
    distance from the first polygon to the second exceeds the distance from
    the second to the first.  With a [bg::distance] that does not depend on
    the order of its operands the result is therefore always false. *)
Theorem X14_unregistered_pair_never_hazard :
  forall (st : CollisionStage) (reference_vehicle other_vehicle : ActorHandle),
    id_to_index st !! GetId reference_vehicle = None ->
    id_to_index st !! GetId other_vehicle = None ->
    (exists result reference_polygon other_polygon,
       NegotiateCollision st reference_vehicle other_vehicle = Ok result /\
       GetPolygon (GetBoundary reference_vehicle) = Ok reference_polygon /\
       GetPolygon (GetBoundary other_vehicle) = Ok other_polygon /\
       (result = true <->
        Rabs (cg.z (GetLocation reference_vehicle)
              - cg.z (GetLocation other_vehicle)) < 2.0 /\
        CheckOverlap (GetBoundary reference_vehicle)
                     (GetBoundary other_vehicle) = Ok true /\
        bg_distance reference_polygon other_polygon
        > bg_distance other_polygon reference_polygon)) /\
    (distance_commutes ->
     NegotiateCollision st reference_vehicle other_vehicle = Ok false).
Proof.
  intros st r o Hr Ho.
  destruct (GetPolygon_GetBoundary r) as [pr Hpr].
  destruct (GetPolygon_GetBoundary o) as [po Hpo].
  destruct (CheckOverlap_total (GetBoundary r) (GetBoundary o)) as [ov Hov].
  assert (Hrun : NegotiateCollision st r o
                 = if Rlt_dec (Rabs (cg.z (GetLocation r) - cg.z (GetLocation o)))
                              VERTICAL_OVERLAP_THRESHOLD
                   then if ov && (if Rgt_dec (bg_distance pr po)
                                             (bg_distance po pr)
                                  then true else false)
                        then Ok true else Ok false
                   else Ok false).
  { unfold NegotiateCollision.
    rewrite (GetGeodesicBoundary_unregistered st r Hr).
    rewrite (GetGeodesicBoundary_unregistered st o Ho).
    cbn [res_bind]. rewrite Hov, Hpr, Hpo. reflexivity. }
  split.
  - exists (if Rlt_dec (Rabs (cg.z (GetLocation r) - cg.z (GetLocation o)))
                       VERTICAL_OVERLAP_THRESHOLD
            then ov && (if Rgt_dec (bg_distance pr po) (bg_distance po pr)
                        then true else false)
            else false), pr, po.
    split; [| split; [exact Hpr | split; [exact Hpo |]]].
    + rewrite Hrun. destruct (Rlt_dec _ _); [| reflexivity].
      now destruct (ov && _).
    + rewrite Hov.
      destruct (Rlt_dec _ _) as [Hz | Hz];
        unfold VERTICAL_OVERLAP_THRESHOLD in Hz.
      * destruct ov; cbn [andb].
        -- destruct (Rgt_dec _ _) as [Hd | Hd].
           ++ split; [intros _ | reflexivity]. repeat split; auto. lra.
           ++ split; [discriminate | intros (_ & _ & ?); contradiction].
        -- split; [discriminate | intros (_ & [=] & _)].
      * split; [discriminate | intros (? & _); lra].
  - intros Hsym. rewrite Hrun.
    destruct (Rlt_dec _ _); [| reflexivity].
    destruct (Rgt_dec _ _) as [Hd | _]; [rewrite (Hsym pr po) in Hd; lra |].
    now rewrite andb_false_r.
Qed.

End NegotiationFacts.

(** The bounding-box distance does not depend on the order. *)
Lemma Box_distance_commutes : distance_commutes (C := Box.collaborators).
Proof.
  intros p q. cbn [bg_distance Box.collaborators]. unfold Box.distance.
  destruct (Box.of_polygon p) as [a |], (Box.of_polygon q) as [b |];
    try reflexivity.
  unfold Box.gap. f_equal. f_equal; apply Rmax_comm.
Qed.

Lemma X12_witness :
  resolve_actor Scenario.stale_index 2%nat = Throw /\
  GetGeodesicBoundary Scenario.stale_index (Scenario.car 2 5 0 0 0) = Throw.
Proof.
  destruct (X12_stale_index_throws Scenario.stale_index
              (Scenario.car 2 5 0 0 0) 1%nat eq_refl ltac:(cbn; lia))
    as (Hres & Hgeo & _).
  split; [exact Hres | exact Hgeo].
Defined.

Lemma X13_witness :
  exists reference_geodesic other_geodesic,
    GetGeodesicBoundary Scenario.follower (Scenario.car 1 0 0 0 0)
    = Ok reference_geodesic /\
    GetGeodesicBoundary Scenario.follower (Scenario.car 2 4.5 0 0 0)
    = Ok other_geodesic /\
    CheckOverlap (C := Box.collaborators)
      reference_geodesic other_geodesic = Ok true.
Proof.
  destruct (X13_hazard_needs_overlap Scenario.follower
              (Scenario.car 1 0 0 0 0) (Scenario.car 2 4.5 0 0 0))
    as [Hneeds _].
  destruct (Hneeds (proj1 follower_yields))
    as (_ & gr & go & _ & _ & Hr & Ho & Hov & _).
  exists gr, go. auto.
Defined.

Lemma X14_witness :
  NegotiateCollision (Scenario.fresh 2)
    (Scenario.car 1 0 0 0 0) (Scenario.car 2 1 0 0 0) = Ok false.
Proof.
  apply (X14_unregistered_pair_never_hazard (Scenario.fresh 2)
           (Scenario.car 1 0 0 0 0) (Scenario.car 2 1 0 0 0)
           eq_refl eq_refl).
  exact Box_distance_commutes.
Defined.

(** ** DataReceiver and the indices it stores (lines 130-142) *)

Section Indices.
Context `{C : Collaborators}.

Lemma first_position_is_Some id ids :
  is_Some (first_position id ids) <-> id ∈ ids.
Proof.
  induction ids as [| k rest IH]; cbn [first_position].
  - split; [intros [? [=]] | intros H; now apply elem_of_nil in H].
  - rewrite elem_of_cons. destruct (decide (k = id)) as [-> | Hne].
    + split; [auto | eauto].
    + rewrite fmap_is_Some, IH. split; [auto | intros [-> | ?]; tauto].
Qed.

Lemma first_position_lt id ids i :
  first_position id ids = Some i -> (i < length ids)%nat.
Proof.
  intros H. apply first_position_spec in H as [H _].
  exact (lookup_lt_Some _ _ _ H).
Qed.

Lemma frame_ids_length frame : length (frame_ids frame) = length frame.
Proof. apply length_map. Qed.

Lemma DataReceiver_lookup st packet_id frame id :
  id_to_index (DataReceiver st packet_id frame) !! id
  = match id_to_index st !! id with
    | Some i => Some i
    | None => first_position id (frame_ids frame)
    end.
Proof.
  cbn [DataReceiver id_to_index]. rewrite insert_indices_lookup.
  destruct (id_to_index st !! id); [reflexivity | apply fmap_plus_0].
Qed.

(** X15: what [DataReceiver] does to the identity-to-index map.  The keys
    after the call are the keys before it together with the identities of
    the received frame.  If every index stored before the call is a
    position of the received frame (in particular if the map was empty),
    every index stored after it is one too.  Receiving a frame whose
    identities are all keys already leaves the map as it is, whatever the
    order of the frame and whichever earlier frame brought the keys. *)
Theorem X15_DataReceiver_grows_the_map :
  forall (st : CollisionStage) (packet_id : Z)
         (frame : list LocalizationToCollisionData),
    let st' := DataReceiver st packet_id frame in
    (forall id,
       is_Some (id_to_index st' !! id) <->
       is_Some (id_to_index st !! id) \/ id ∈ frame_ids frame) /\
    ((forall id index,
        id_to_index st !! id = Some index -> (index < length frame)%nat) ->
     indices_in_range st') /\
    (id_to_index st = ∅ -> indices_in_range st') /\
    ((forall id, id ∈ frame_ids frame -> is_Some (id_to_index st !! id)) ->
     id_to_index st' = id_to_index st) /\
    (forall packet_id' frame',
       (forall id, id ∈ frame_ids frame' ->
          is_Some (id_to_index st' !! id)) ->
       id_to_index (DataReceiver st' packet_id' frame') = id_to_index st').
Proof.
  intros st packet_id frame st'.
  assert (Hkeys : forall id,
             is_Some (id_to_index st' !! id) <->
             is_Some (id_to_index st !! id) \/ id ∈ frame_ids frame).
  { intros id. unfold st'. rewrite DataReceiver_lookup.
    destruct (id_to_index st !! id) as [i |] eqn:E.
    - split; [eauto | eauto].
    - rewrite first_position_is_Some. split; [auto |].
      intros [[? [=]] | ?]; assumption. }
  assert (Hrange : (forall id index,
                      id_to_index st !! id = Some index ->
                      (index < length frame)%nat) ->
                   indices_in_range st').
  { intros Hold id index. unfold st'. rewrite DataReceiver_lookup.
    cbn [DataReceiver localization_frame].
    destruct (id_to_index st !! id) as [i |] eqn:E.
    - intros [= <-]. exact (Hold id i E).
    - intros H. rewrite <- frame_ids_length.
      exact (first_position_lt _ _ _ H). }
  assert (Hsame : forall (s0 : CollisionStage) p0 f0,
             (forall id, id ∈ frame_ids f0 -> is_Some (id_to_index s0 !! id)) ->
             id_to_index (DataReceiver s0 p0 f0) = id_to_index s0).
  { intros s0 p0 f0 Hsub. apply map_eq. intros id.
    rewrite DataReceiver_lookup.
    destruct (id_to_index s0 !! id) as [i |] eqn:E; [reflexivity |].
    destruct (first_position id (frame_ids f0)) as [j |] eqn:Ej;
      [| reflexivity].
    exfalso.
    assert (Hin : id ∈ frame_ids f0).
    { apply first_position_is_Some. rewrite Ej. eauto. }
    destruct (Hsub id Hin) as [i Hi]. congruence. }
  split; [exact Hkeys |]. split; [exact Hrange |]. split; [| split].
  - intros Hempty. apply Hrange. intros id index.
    rewrite Hempty, lookup_empty. discriminate.
  - apply Hsame.
  - intros packet_id' frame'. apply Hsame.
Qed.

End Indices.

Lemma X15_witness :
  indices_in_range Scenario.follower /\
  id_to_index
    (DataReceiver
       (DataReceiver Cases.convoy 2
          [mkLocalization (Scenario.car 1 3 0 0 0) []])
       3 [mkLocalization (Scenario.car 2 9 0 0 0) []])
  = id_to_index
      (DataReceiver Cases.convoy 2
         [mkLocalization (Scenario.car 1 3 0 0 0) []]).
Proof.
  split.
  - destruct (X15_DataReceiver_grows_the_map (Scenario.fresh 2) 1
                [mkLocalization (Scenario.car 1 0 0 0 0) Scenario.path])
      as (_ & _ & Hrange & _).
    exact (Hrange eq_refl).
  - destruct (X15_DataReceiver_grows_the_map Cases.convoy 2
                [mkLocalization (Scenario.car 1 3 0 0 0) []])
      as (_ & _ & _ & _ & Hsame).
    apply Hsame. intros id Hin. cbn in Hin.
    apply list_elem_of_singleton in Hin as ->.
    exists 1%nat. reflexivity.
Defined.

(** ** DrawBoundary (lines 303-310) *)

Section Drawing.
Context `{C : Collaborators}.

Lemma draw_loop_lines boundary indices :
  (forall i, i ∈ indices -> (i < length boundary)%nat) ->
  exists lines,
    draw_loop boundary indices = Ok lines /\
    length lines = length indices /\
    forall k i,
      indices !! k = Some i ->
      exists p q,
        boundary !! i = Some p /\
        boundary !! ((i + 1) mod length boundary) = Some q /\
        lines !! k = Some (raised p, raised q).
Proof.
  induction indices as [| i rest IH]; intros Hin.
  - exists []. split; [reflexivity |]. split; [reflexivity |].
    intros k i H. discriminate.
  - destruct IH as (lines & Hrun & Hlen & Hat).
    { intros j Hj. apply Hin. now right. }
    assert (Hi : (i < length boundary)%nat) by (apply Hin; now left).
    assert (Hnext : ((i + 1) mod length boundary < length boundary)%nat)
      by (apply Nat.mod_upper_bound; lia).
    destruct (lookup_lt_is_Some_2 _ _ Hi) as [p Hp].
    destruct (lookup_lt_is_Some_2 _ _ Hnext) as [q Hq].
    exists ((raised p, raised q) :: lines).
    split; [| split].
    + cbn [draw_loop]. unfold index_. rewrite Hp, Hq. cbn [res_bind].
      now rewrite Hrun.
    + cbn [length]. now rewrite Hlen.
    + intros [| k] j.
      * intros [= <-]. exists p, q. auto.
      * intros Hk. exact (Hat k j Hk).
Qed.

(** X17: [DrawBoundary] draws the closed outline of the boundary and never
    reads outside it.  For every boundary, the empty one included, the loop
    completes; it draws as many lines as the boundary has points; line [i]
    goes from point [i] to point [(i + 1) mod n], both raised by one unit
    of height; and the lines chain into a ring: each line starts where the
    previous one ended, the first one where the last one ended. *)
Theorem X17_DrawBoundary_draws_a_closed_outline :
  forall (boundary : LocationList),
  exists lines,
    DrawBoundary boundary = Ok lines /\
    length lines = length boundary /\
    (forall i p,
       boundary !! i = Some p ->
       exists q,
         boundary !! ((i + 1) mod length boundary) = Some q /\
         lines !! i = Some (raised p, raised q)) /\
    (forall i line,
       lines !! i = Some line ->
       exists next,
         lines !! ((i + 1) mod length lines) = Some next /\
         fst next = snd line) /\
    (forall i line,
       lines !! i = Some line ->
       exists p q,
         line = (cg.mkVector3D (cg.x p) (cg.y p) (cg.z p + 1),
                 cg.mkVector3D (cg.x q) (cg.y q) (cg.z q + 1)) /\
         p ∈ boundary /\ q ∈ boundary).
Proof.
  intros boundary.
  destruct (draw_loop_lines boundary (seq 0 (length boundary)))
    as (lines & Hrun & Hlen & Hat).
  { intros i Hi. apply elem_of_seq in Hi. lia. }
  rewrite length_seq in Hlen.
  assert (Hline : forall i p,
             boundary !! i = Some p ->
             exists q,
               boundary !! ((i + 1) mod length boundary) = Some q /\
               lines !! i = Some (raised p, raised q)).
  { intros i p Hp.
    pose proof (lookup_lt_Some _ _ _ Hp) as Hi.
    destruct (Hat i i) as (p' & q & Hp' & Hq & Hl).
    { now apply lookup_seq. }
    pose proof (eq_trans (eq_sym Hp) Hp') as Hpp. injection Hpp as <-.
    eauto. }
  exists lines. split; [exact Hrun |]. split; [exact Hlen |].
  split; [exact Hline |]. split.
  - intros i line Hl.
    assert (Hi : (i < length boundary)%nat)
      by (rewrite <- Hlen; exact (lookup_lt_Some _ _ _ Hl)).
    destruct (lookup_lt_is_Some_2 _ _ Hi) as [p Hp].
    destruct (Hline i p Hp) as (q & Hq & Hl').
    pose proof (eq_trans (eq_sym Hl) Hl') as Hll. injection Hll as ->.
    destruct (Hline _ q Hq) as (q' & _ & Hnext).
    rewrite Hlen. exists (raised q, raised q'). auto.
  - intros i line Hl.
    assert (Hi : (i < length boundary)%nat)
      by (rewrite <- Hlen; exact (lookup_lt_Some _ _ _ Hl)).
    destruct (lookup_lt_is_Some_2 _ _ Hi) as [p Hp].
    destruct (Hline i p Hp) as (q & Hq & Hl').
    pose proof (eq_trans (eq_sym Hl) Hl') as Hll. injection Hll as ->.
    exists p, q. split; [| split].
    + unfold raised, cg.add. cbn [cg.x cg.y cg.z].
      f_equal; f_equal; lra.
    + exact (list_elem_of_lookup_2 _ _ _ Hp).
    + exact (list_elem_of_lookup_2 _ _ _ Hq).
Qed.

End Drawing.

(** ** Reads outside a container in [Action] (lines 86-127) *)

Section Completion.
Context `{C : Collaborators}.

Lemma GetGeodesicBoundary_filled st a :
  indices_in_range st -> buffers_filled st ->
  exists boundary, GetGeodesicBoundary st a = Ok boundary /\ boundary <> [].
Proof.
  intros Hrange Hfill. unfold GetGeodesicBoundary, at_.
  destruct (id_to_index st !! GetId a) as [index |] eqn:E.
  - destruct (lookup_lt_is_Some_2 _ _ (Hrange _ _ E)) as [data Hdata].
    rewrite Hdata. cbn [res_bind].
    pose proof (Hfill data (list_elem_of_lookup_2 _ _ _ Hdata)) as Hne.
    destruct (buffer data) as [| front others]; [contradiction |].
    destruct (boundary_loop _ _ _ _ _ _ _) as [l r].
    eexists. split; [reflexivity |].
    intros H. apply app_eq_nil in H as [_ H].
    apply app_eq_nil in H as [H _]. discriminate H.
  - eexists. split; [reflexivity | discriminate].
Qed.

Lemma NegotiateCollision_completes st a b :
  indices_in_range st -> buffers_filled st ->
  exists hazard, NegotiateCollision st a b = Ok hazard.
Proof.
  intros Hrange Hfill. unfold NegotiateCollision.
  destruct (Rlt_dec _ _); [| eauto].
  destruct (GetGeodesicBoundary_filled st a Hrange Hfill) as (ga & -> & Hga).
  destruct (GetGeodesicBoundary_filled st b Hrange Hfill) as (gb & -> & Hgb).
  cbn [res_bind].
  destruct (CheckOverlap_total ga gb) as [ov ->]. cbn [res_bind].
  destruct (GetPolygon_Ok ga Hga) as [pa ->].
  destruct (GetPolygon_Ok gb Hgb) as [pb ->].
  destruct (GetPolygon_GetBoundary a) as [sa ->].
  destruct (GetPolygon_GetBoundary b) as [sb ->].
  cbn [res_bind]. destruct (ov && _); eauto.
Qed.

Lemma check_candidate_completes st ego_actor actor_id h :
  indices_in_range st -> buffers_filled st -> known st actor_id ->
  exists after, fst (check_candidate st ego_actor actor_id h) = Ok after.
Proof.
  intros Hrange Hfill Hknown. unfold check_candidate.
  destruct (Nat.eqb_spec actor_id (GetId ego_actor)); cbn [negb];
    [eexists; reflexivity |].
  assert (Hres : exists a, resolve_actor st actor_id = Ok (Some a)).
  { unfold resolve_actor, at_.
    destruct (id_to_index st !! actor_id) as [index |] eqn:E.
    - destruct (lookup_lt_is_Some_2 _ _ (Hrange _ _ E)) as [data ->].
      cbn [res_bind]. eauto.
    - destruct Hknown as [[x Hx] | [a ->]]; [congruence | eauto]. }
  destruct Hres as [a ->]. rewrite bind_lift_Ok.
  destruct (Rle_dec _ _); [| eexists; reflexivity].
  rewrite bind_emit. cbn [fst].
  destruct (NegotiateCollision_completes st ego_actor a Hrange Hfill)
    as [hazard ->].
  rewrite bind_lift_Ok. eexists. reflexivity.
Qed.

Lemma candidate_loop_completes st ego_actor rest :
  indices_in_range st -> buffers_filled st ->
  (forall actor_id, actor_id ∈ rest -> known st actor_id) ->
  forall h, exists hazard,
    fst (candidate_loop st ego_actor rest h) = Ok hazard.
Proof.
  intros Hrange Hfill.
  induction rest as [| actor_id rest IH]; intros Hknown h.
  - eexists. reflexivity.
  - destruct h; [rewrite candidate_loop_hazard; eexists; reflexivity |].
    destruct (check_candidate_completes st ego_actor actor_id false
                Hrange Hfill) as [after Hafter].
    { apply Hknown. now left. }
    destruct (check_candidate st ego_actor actor_id false) as [r t] eqn:E.
    cbn [fst] in Hafter. subst r.
    rewrite (candidate_loop_cons_ok _ _ _ _ _ _ E). cbn [fst].
    apply IH. intros id Hid. apply Hknown. now right.
Qed.

Lemma vehicle_loop_defined (good : VicinityGrid -> Prop) f
    (frame : list LocalizationToCollisionData) (m : gmap ActorId nat)
    (table : gmap ActorId ActorHandle) indices :
  (forall id index, m !! id = Some index -> (index < length frame)%nat) ->
  (forall data, data ∈ frame -> buffer data <> []) ->
  (forall g data,
     data ∈ frame -> good g ->
     good (fst (GetActors g (actor data))) /\
     forall id, id ∈ snd (GetActors g (actor data)) ->
                is_Some (m !! id) \/ is_Some (table !! id)) ->
  forall st,
    localization_frame st = frame ->
    id_to_index st = m ->
    unregistered_actors st = table ->
    good (vicinity_grid st) ->
    fst (vehicle_loop f st indices) <> Undef.
Proof.
  intros Hrange Hfill Hgrid.
  induction indices as [| i rest IH]; intros st Hframe Hm Htable Hgood;
    [discriminate |].
  rewrite vehicle_loop_cons, vehicle_step_unfold.
  destruct (localization_frame st !! i) as [data |] eqn:Hdata;
    [| discriminate].
  assert (Hmember : data ∈ frame)
    by (rewrite <- Hframe; exact (list_elem_of_lookup_2 _ _ _ Hdata)).
  destruct (Hgrid (vicinity_grid st) data Hmember Hgood) as [Hgood1 Hknown].
  cbn zeta.
  set (found := GetActors (vicinity_grid st) (actor data)) in *.
  set (st1 := set_vicinity_grid st (fst found)).
  assert (Hrange1 : indices_in_range st1).
  { intros id index. cbn. rewrite Hm, Hframe. apply Hrange. }
  assert (Hfill1 : buffers_filled st1).
  { intros d. cbn. rewrite Hframe. apply Hfill. }
  assert (Hknown1 : forall id, id ∈ snd found -> known st1 id).
  { intros id Hid. unfold known. cbn. rewrite Hm, Htable.
    now apply Hknown. }
  destruct (candidate_loop_completes st1 (actor data) (snd found)
              Hrange1 Hfill1 Hknown1 false) as [h Hh].
  rewrite Hh.
  destruct (planner_frame st f !! i) as [message |]; [| discriminate].
  unfold bind. cbn [fst snd].
  apply IH; [exact Hframe | exact Hm | exact Htable | exact Hgood1].
Qed.

(** X18: on well-formed input [Action] reads nothing outside a container.
    Suppose every stored index is a position of the frame, every entry of
    the frame has at least one waypoint, and the vicinity grid only ever
    returns identities that are keys of the identity-to-index map or of
    the table of unregistered actors (stated with a property [good] of the
    grid that the queries for the vehicles of the frame preserve).  Then
    no run of [Action] reaches one of the reads of the file that have no
    defined behaviour: the location of a null handle (line 110), the front
    of an empty buffer (lines 241-242), the first point of an empty
    boundary (line 214). *)
Theorem X18_Action_reads_nothing_undefined :
  forall (st : CollisionStage) (w : World) (start_index end_index : nat)
         (good : VicinityGrid -> Prop),
    let st1 := handle_unregistered st w start_index in
    indices_in_range st ->
    buffers_filled st ->
    good (vicinity_grid st1) ->
    (forall g data,
       data ∈ localization_frame st -> good g ->
       good (fst (GetActors g (actor data))) /\
       forall id, id ∈ snd (GetActors g (actor data)) -> known st1 id) ->
    fst (Action st w start_index end_index) <> Undef.
Proof.
  intros st w start_index end_index good st1 Hrange Hfill Hgood Hgrid.
  destruct (handle_unregistered_same_frames st w start_index)
    as [(Hframe & _) Hid].
  fold st1 in Hframe, Hid. unfold Action. fold st1.
  apply (vehicle_loop_defined good _ (localization_frame st)
           (id_to_index st) (unregistered_actors st1) _ Hrange Hfill).
  - intros g data Hdata Hg. destruct (Hgrid g data Hdata Hg) as [Hg1 Hk].
    split; [exact Hg1 |]. intros id Hin. destruct (Hk id Hin) as [H | H].
    + left. now rewrite <- Hid.
    + now right.
  - exact Hframe.
  - exact Hid.
  - reflexivity.
  - exact Hgood.
Qed.

End Completion.

Lemma convoy_in_range : indices_in_range Cases.convoy.
Proof.
  intros id index H. unfold Cases.convoy in H.
  rewrite DataReceiver_lookup in H. cbn in H. rewrite lookup_empty in H.
  repeat case_decide; try discriminate; injection H as <-; cbn; lia.
Qed.

Lemma convoy_filled : buffers_filled Cases.convoy.
Proof.
  intros data H. cbn in H.
  apply elem_of_cons in H as [-> | H]; [discriminate |].
  apply elem_of_cons in H as [-> | H]; [discriminate |].
  now apply elem_of_nil in H.
Qed.

Lemma convoy_known id :
  id = 1%nat \/ id = 2%nat -> known Cases.convoy id.
Proof.
  intros H. left. unfold Cases.convoy. rewrite DataReceiver_lookup.
  cbn. rewrite lookup_empty.
  destruct H as [-> | ->]; repeat case_decide; try congruence; eauto.
Qed.

Lemma convoy_grid_query g data :
  data ∈ localization_frame Cases.convoy -> Cases.convoy_grid g ->
  Cases.convoy_grid (fst (GetActors (Collaborators := Box.collaborators) g (actor data))) /\
  forall id, id ∈ snd (GetActors (Collaborators := Box.collaborators) g (actor data)) ->
             known Cases.convoy id.
Proof.
  intros Hdata Hg.
  assert (Hego : GetId (actor data) = 1%nat \/ GetId (actor data) = 2%nat).
  { cbn in Hdata.
    apply elem_of_cons in Hdata as [-> | Hdata]; [now left |].
    apply elem_of_cons in Hdata as [-> | Hdata]; [now right |].
    now apply elem_of_nil in Hdata. }
  assert (Hupdate : Cases.convoy_grid (Box.update g (actor data))).
  { intros b Hb. unfold Box.update in Hb.
    apply elem_of_app in Hb as [Hb | Hb].
    - apply list_elem_of_filter in Hb as [_ Hb]. now apply Hg.
    - apply list_elem_of_singleton in Hb as ->. exact Hego. }
  split; [exact Hupdate |].
  intros id Hid. cbn in Hid. apply list_elem_of_In in Hid.
  apply in_map_iff in Hid as (b & <- & Hb). apply list_elem_of_In in Hb.
  apply convoy_known. now apply Hupdate.
Qed.

Lemma convoy_maintenance :
  handle_unregistered Cases.convoy Scenario.quiet_world 0
  = refresh_unregistered Cases.convoy.
Proof.
  unfold handle_unregistered. cbn [Nat.eqb].
  now rewrite scan_world_idle by (cbn; lra).
Qed.

Lemma X18_witness :
  fst (Action Cases.convoy Scenario.quiet_world 0 1) <> Undef.
Proof.
  apply (X18_Action_reads_nothing_undefined Cases.convoy
           Scenario.quiet_world 0 1 Cases.convoy_grid
           convoy_in_range convoy_filled);
    rewrite convoy_maintenance.
  - intros b Hb. now apply elem_of_nil in Hb.
  - intros g data Hdata Hg.
    destruct (convoy_grid_query g data Hdata Hg) as [Hgrid Hknown].
    split; [exact Hgrid |]. intros id Hid.
    destruct (Hknown id Hid) as [Hindex | [a Ha]].
    + left. exact Hindex.
    + cbn in Ha. rewrite lookup_empty in Ha. discriminate.
Defined.

(** ** GetPolygon (lines 208-220) *)

Section Rings.
Context `{C : Collaborators}.

Lemma ring_lookup {A B : Type} (g : A -> B) (l : list A) (x : B) :
  (forall i p, l !! i = Some p -> (map g l ++ [x]) !! i = Some (g p)) /\
  (map g l ++ [x]) !! length l = Some x.
Proof.
  split.
  - intros i p Hp. rewrite lookup_app_l.
    + change (map g l) with (g <$> l). rewrite list_lookup_fmap.
      now rewrite Hp.
    + rewrite length_map. exact (lookup_lt_Some _ _ _ Hp).
  - rewrite lookup_app_r by (rewrite length_map; lia).
    now rewrite length_map, Nat.sub_diag.
Qed.

(** X19: [GetPolygon] closes the ring and looks at the ground plane only.
    On a boundary of n > 0 points it returns n + 1 points: point [i] of the
    boundary at position [i], and the first point once more at the end.
    The heights do not enter: two boundaries with the same x and y give
    the same polygon, and so the same [CheckOverlap] against any other
    boundary.  On an empty boundary the read of [boundary[0]] is outside
    the vector. *)
Theorem X19_GetPolygon_closes_the_ring :
  forall (boundary : LocationList),
    (boundary = [] -> GetPolygon boundary = Undef) /\
    (boundary <> [] ->
     exists ring,
       GetPolygon boundary = Ok ring /\
       length ring = S (length boundary) /\
       (forall i p, boundary !! i = Some p -> ring !! i = Some (wkt_point p)) /\
       ring !! length boundary = ring !! 0%nat) /\
    (forall boundary',
       map (fun p => (cg.x p, cg.y p)) boundary
       = map (fun p => (cg.x p, cg.y p)) boundary' ->
       GetPolygon boundary = GetPolygon boundary' /\
       forall other,
         CheckOverlap boundary other = CheckOverlap boundary' other /\
         CheckOverlap other boundary = CheckOverlap other boundary').
Proof.
  intros boundary. split; [intros ->; reflexivity |]. split.
  - intros Hne. destruct boundary as [| first others]; [contradiction |].
    eexists. split; [reflexivity |].
    split; [rewrite length_app, length_map; cbn; lia |]. split.
    + exact (proj1 (ring_lookup wkt_point (first :: others)
                      (wkt_point first))).
    + exact (proj2 (ring_lookup wkt_point (first :: others)
                      (wkt_point first))).
  - intros boundary' Hsame.
    assert (Hwkt : map wkt_point boundary = map wkt_point boundary').
    { revert boundary' Hsame.
      induction boundary as [| p rest IH]; intros [| p' rest'] Hsame;
        try discriminate; [reflexivity |].
      cbn [map] in *. injection Hsame as Hx Hy Hrest.
      apply (f_equal2 cons); [| now apply IH].
      unfold wkt_point. now rewrite Hx, Hy. }
    assert (Hlen : length boundary = length boundary').
    { rewrite <- (length_map wkt_point boundary), Hwkt. apply length_map. }
    assert (Hpoly : GetPolygon boundary = GetPolygon boundary').
    { destruct boundary as [| p rest], boundary' as [| p' rest'];
        try discriminate; [reflexivity |].
      cbn [GetPolygon]. rewrite Hwkt.
      assert (Hhead : wkt_point p = wkt_point p')
        by (cbn [map] in Hwkt; congruence).
      now rewrite Hhead. }
    split; [exact Hpoly |].
    intros other. unfold CheckOverlap. now rewrite Hpoly, Hlen.
Qed.

End Rings.

(** ** DataSender (lines 144-151) *)

Section Handover.
Context `{C : Collaborators}.

(** X20: two calls of [DataSender] in a row.  Both complete; the second
    packet carries the state that [SendData] returned for the first one
    and the other output array; the selector is back where it was; and
    neither call changes the content of an output array, the received
    frame or the tables. *)
Theorem X20_DataSender_alternates_and_chains :
  forall (st : CollisionStage),
    let f := frame_of_selector (frame_selector st) in
    exists st1 st2,
      fst (DataSender st) = Ok st1 /\
      fst (DataSender st1) = Ok st2 /\
      planner_messenger_state st1 = SendData (planner_messenger_state st) f /\
      snd (DataSender st1)
      = [EvFlipSelector;
         EvSendData (planner_messenger_state st1)
                    (frame_of_selector (negb (frame_selector st)))] /\
      frame_of_selector (negb (frame_selector st)) <> f /\
      frame_selector st2 = frame_selector st /\
      (forall g, planner_frame st1 g = planner_frame st g /\
                 planner_frame st2 g = planner_frame st g) /\
      localization_frame st2 = localization_frame st /\
      id_to_index st2 = id_to_index st /\
      unregistered_actors st2 = unregistered_actors st /\
      vicinity_grid st2 = vicinity_grid st.
Proof.
  intros st f. eexists. eexists.
  split; [reflexivity |]. split; [reflexivity |].
  split; [reflexivity |]. split; [reflexivity |].
  split; [apply frame_of_selector_negb |].
  split; [cbn; apply negb_involutive |].
  split; [intros []; split; reflexivity |].
  repeat split.
Qed.

End Handover.

(** ** The candidates and the two tables (lines 101-111) *)

Section Handles.
Context `{C : Collaborators}.
Variable has : VicinityGrid -> ActorId -> Prop.
Hypothesis grid_contract : GridContract has.
Hypothesis query_contract : QueryContract has.

Lemma grid_known_constructor n ls ps grid clock :
  (forall id, ~ has grid id) -> grid_known has (init n ls ps grid clock).
Proof.
  intros Hempty. split; [| split].
  - intros id Hid. now apply Hempty in Hid.
  - intros id a. cbn. rewrite lookup_empty. discriminate.
  - intros data Hdata. cbn in Hdata. now apply elem_of_nil in Hdata.
Qed.

Lemma grid_known_DataReceiver st packet_id frame :
  grid_known has st -> grid_known has (DataReceiver st packet_id frame).
Proof.
  intros (Hgrid & Hkeyed & _). split; [| split].
  - intros id Hid. destruct (Hgrid id Hid) as [[index Hindex] | Htable].
    + left. exists index. now apply DataReceiver_keeps.
    + now right.
  - exact Hkeyed.
  - intros data Hdata. cbn [DataReceiver localization_frame] in Hdata.
    rewrite DataReceiver_lookup.
    destruct (id_to_index st !! GetId (actor data)); [eauto |].
    apply first_position_is_Some. unfold frame_ids.
    apply list_elem_of_In, in_map_iff. exists data.
    split; [reflexivity | now apply list_elem_of_In].
Qed.

Lemma grid_known_scan_world st w :
  grid_known has st -> grid_known has (scan_world st w).
Proof.
  intros (Hgrid & Hkeyed & Hframe). unfold scan_world.
  destruct (Rgt_dec _ _) as [_ | _]; [| now repeat split].
  split; [| split].
  - intros id Hid. destruct (Hgrid id Hid) as [Hindex | [a Ha]].
    + now left.
    + right. exists a. cbn.
      now apply (note_world_actors_lookup st (world_actors w)).
  - intros id a Ha. cbn in Ha.
    apply (note_world_actors_lookup st (world_actors w)) in Ha
      as [Ha | (_ & _ & _ & Ha)]; [now apply Hkeyed | exact Ha].
  - exact Hframe.
Qed.

Lemma refresh_unregistered_fields st :
  id_to_index (refresh_unregistered st) = id_to_index st /\
  localization_frame (refresh_unregistered st) = localization_frame st.
Proof.
  unfold refresh_unregistered.
  now destruct (foldl refresh_step _ _) as [grid ids].
Qed.

Lemma grid_known_refresh st :
  grid_known has st -> grid_known has (refresh_unregistered st).
Proof.
  intros (Hgrid & Hkeyed & Hframe).
  destruct (refresh_unregistered_fields st) as [Hid Hfr].
  split; [| split].
  - intros id Hhas. rewrite refresh_unregistered_grid in Hhas.
    destruct (refresh_step_grid has (map_to_list (unregistered_actors st))
                grid_contract (NoDup_fst_map_to_list _)
                ltac:(intros i a Hin; apply elem_of_map_to_list in Hin;
                      now apply Hkeyed)
                (vicinity_grid st, []) id) as [H1 H2].
    destruct (unregistered_actors st !! id) as [a |] eqn:Ea.
    + destruct (H1 a ltac:(now apply elem_of_map_to_list)) as [_ Hdead].
      destruct (IsAlive a) eqn:Ealive.
      * right. exists a. now apply refresh_unregistered_lookup.
      * now destruct (Hdead eq_refl).
    + assert (Hold : has (vicinity_grid st) id).
      { apply H2; [| exact Hhas]. intros Hin.
        apply list_elem_of_fmap in Hin as ([i a] & -> & Hin).
        apply elem_of_map_to_list in Hin. cbn in Ea. congruence. }
      destruct (Hgrid id Hold) as [Hindex | [a Ha]]; [| congruence].
      left. now rewrite Hid.
  - intros id a Ha. apply refresh_unregistered_lookup in Ha as [Ha _].
    now apply Hkeyed.
  - intros data Hdata. rewrite Hfr in Hdata. rewrite Hid. now apply Hframe.
Qed.

Lemma grid_known_maintenance st w start_index :
  grid_known has st -> grid_known has (handle_unregistered st w start_index).
Proof.
  intros H. unfold handle_unregistered.
  destruct (start_index =? 0)%nat; [| exact H].
  now apply grid_known_refresh, grid_known_scan_world.
Qed.

Lemma grid_known_vehicle_step f st i st' t :
  grid_known has st -> vehicle_step f st i = (Ok st', t) ->
  grid_known has st'.
Proof.
  intros (Hgrid & Hkeyed & Hframe) Hstep.
  apply vehicle_step_Ok in Hstep
    as (data & h & t0 & Hdata & _ & _ & -> & _).
  assert (Hmember : data ∈ localization_frame st)
    by exact (list_elem_of_lookup_2 _ _ _ Hdata).
  destruct f; (split; [| split]; [| exact Hkeyed | exact Hframe]);
    intros id Hid; cbn in Hid;
    (apply (query_adds has query_contract) in Hid as [Hid | ->];
     [exact (Hgrid id Hid) | left; exact (Hframe data Hmember)]).
Qed.

Lemma grid_known_DataSender st st' t :
  grid_known has st -> DataSender st = (Ok st', t) -> grid_known has st'.
Proof. intros H [= <- _]. exact H. Qed.

Lemma reachable_grid_known st : reachable has st -> grid_known has st.
Proof.
  induction 1.
  - now apply grid_known_constructor.
  - now apply grid_known_DataReceiver.
  - now apply grid_known_maintenance.
  - eapply grid_known_vehicle_step; eauto.
  - eapply grid_known_DataSender; eauto.
Qed.

Lemma vehicle_loop_reachable f indices :
  forall st st' t,
    reachable has st -> vehicle_loop f st indices = (Ok st', t) ->
    reachable has st'.
Proof.
  induction indices as [| i rest IH]; intros st st' t Hreach Hrun.
  - injection Hrun as <- _. exact Hreach.
  - rewrite vehicle_loop_cons in Hrun.
    apply bind_Ok_inv in Hrun as (st1 & t1 & t2 & Hstep & Hrest & _).
    eapply IH; [| exact Hrest].
    eapply reach_vehicle; eauto.
Qed.

Lemma known_resolves st id :
  known st id ->
  resolve_actor st id = Throw \/ exists a, resolve_actor st id = Ok (Some a).
Proof.
  intros Hknown. unfold resolve_actor, at_.
  destruct (id_to_index st !! id) as [index |] eqn:E.
  - destruct (localization_frame st !! index) as [data |]; cbn [res_bind];
      eauto.
  - destruct Hknown as [[x Hx] | [a ->]]; [congruence | eauto].
Qed.

Lemma known_no_null_read st ego_actor id h :
  known st id -> check_candidate st ego_actor id h <> (Undef, []).
Proof.
  intros Hknown. unfold check_candidate.
  destruct (negb _); [| discriminate].
  destruct (known_resolves st id Hknown) as [-> | [a ->]].
  - rewrite bind_lift_Throw. discriminate.
  - rewrite bind_lift_Ok.
    destruct (Rle_dec _ _); [rewrite bind_emit |]; discriminate.
Qed.


End Handles.

Lemma Box_query_contract :
  QueryContract (C := Box.collaborators) Cases.grid_has.
Proof.
  split; cbn [GetActors Box.collaborators]; unfold Box.query; cbn [fst snd].
  - intros g a id (b & Hb & Hid). unfold Box.update in Hb.
    apply elem_of_app in Hb as [Hb | Hb].
    + apply list_elem_of_filter in Hb as [_ Hb]. left. exists b. auto.
    + apply list_elem_of_singleton in Hb as ->. now right.
  - intros g a id Hid. apply list_elem_of_In, in_map_iff in Hid
      as (b & Hb & Hin).
    exists b. split; [now apply list_elem_of_In | exact Hb].
Qed.

Lemma stalled_reachable :
  reachable (C := Box.collaborators) Cases.grid_has Cases.stalled.
Proof.
  apply reach_DataReceiver.
  apply (reach_constructor (C := Box.collaborators)).
  intros id (b & Hb & _). now apply elem_of_nil in Hb.
Qed.

Lemma stalled_at_1_reachable :
  reachable (C := Box.collaborators) Cases.grid_has Cases.stalled_at_1.
Proof.
  apply (reach_vehicle (C := Box.collaborators) Cases.grid_has
           (refresh_unregistered Cases.stalled) FrameA 0%nat
           Cases.stalled_at_1 [EvWriteHazard FrameA 0 false]);
    [| exact stalled_first_vehicle].
  pose proof (reach_maintenance (C := Box.collaborators) Cases.grid_has
                Cases.stalled Scenario.quiet_world 0%nat stalled_reachable)
    as H.
  unfold handle_unregistered in H. cbn [Nat.eqb] in H.
  rewrite scan_world_idle in H by (cbn; lra). exact H.
Qed.

